(** * FRED proxy: TTL cache and batched fan-out

    A shallow embedding of the Express proxy server of the repository
    (the variant with the placeholder-key check, and the variant that
    differs from it only in the credential test), with the properties of
    its cache-key function, of its single-series handler, of its batch
    handler and of its health and cache-clear endpoints; and of the
    single-series handler and the maintenance endpoints of the earlier
    variant.

    JavaScript strings are sequences of UTF-16 code units, the cache is a
    [Map] from key strings to [{data, timestamp}] objects, and the handlers
    are programs of a small state-and-exception monad whose world holds the
    cache, the number of [Date.now()] and [fetch] calls made so far, and the
    trace of observable events. The clock, the upstream service and the
    order in which pending fetches settle belong to the environment.

    Scope of the model: a handler runs from its request to its last effect
    without another request in between; the [series] field of a batch is any
    JSON value; the dates and the sort order are strings or [undefined], as
    a query string or a well-typed body gives them; JSON numbers are
    integers. *)

From Stdlib Require Import ZArith NArith Lia String Ascii.
From stdpp Require Import base option list gmap.

Local Open Scope Z_scope.

(** * The model *)

(** ** JavaScript strings *)

(** A string is the list of its UTF-16 code units. *)
Abbreviation jsstring := (list N).

(** The code units of an ASCII literal. *)
Definition js (s : string) : jsstring :=
  List.map N_of_ascii (list_ascii_of_string s).

(** [!s] for a string: the empty string is the only falsy one. *)
Definition truthyStr (s : jsstring) : bool :=
  match s with [] => false | _ => true end.

(** An optional string is [undefined] or a string; [x || d]. *)
Definition orElse (x : option jsstring) (d : jsstring) : jsstring :=
  match x with
  | Some s => if truthyStr s then s else d
  | None => d
  end.

(** [if (x)] for an optional string. *)
Definition truthyOpt (x : option jsstring) : bool :=
  match x with Some s => truthyStr s | None => false end.

(** The code units [String.prototype.trim] strips: WhiteSpace and
    LineTerminator of ECMAScript. *)
Definition isWhiteSpace (c : N) : bool :=
  ((9 <=? c) && (c <=? 13) || (c =? 32) || (c =? 160) || (c =? 5760)
   || (8192 <=? c) && (c <=? 8202) || (c =? 8232) || (c =? 8233)
   || (c =? 8239) || (c =? 8287) || (c =? 12288) || (c =? 65279))%N.

Fixpoint trimStart (s : jsstring) : jsstring :=
  match s with
  | c :: t => if isWhiteSpace c then trimStart t else s
  | [] => []
  end.

Definition trimEnd (s : jsstring) : jsstring := rev (trimStart (rev s)).

Definition trim (s : jsstring) : jsstring := trimEnd (trimStart s).

(** ** [encodeURIComponent] *)

Definition isUnreserved (c : N) : bool :=
  ((65 <=? c) && (c <=? 90) || (97 <=? c) && (c <=? 122)
   || (48 <=? c) && (c <=? 57)
   || (c =? 45) || (c =? 95) || (c =? 46) || (c =? 33) || (c =? 126)
   || (c =? 42) || (c =? 39) || (c =? 40) || (c =? 41))%N.

Definition isHighSurrogate (c : N) : bool := ((55296 <=? c) && (c <=? 56319))%N.
Definition isLowSurrogate (c : N) : bool := ((56320 <=? c) && (c <=? 57343))%N.

Definition hexDigit (d : N) : N := (if d <? 10 then 48 + d else 55 + d)%N.

(** One octet as [%XX], upper-case hexadecimal. *)
Definition pctOctet (b : N) : jsstring :=
  [37%N; hexDigit (b / 16); hexDigit (b mod 16)].

Definition utf8 (cp : N) : list N :=
  (if cp <? 128 then [cp]
   else if cp <? 2048 then [192 + cp / 64; 128 + cp mod 64]
   else if cp <? 65536 then
     [224 + cp / 4096; 128 + (cp / 64) mod 64; 128 + cp mod 64]
   else [240 + cp / 262144; 128 + (cp / 4096) mod 64;
         128 + (cp / 64) mod 64; 128 + cp mod 64])%N.

Definition pctEncode (cp : N) : jsstring := concat (List.map pctOctet (utf8 cp)).

(** [None] is the [URIError] thrown on a lone surrogate. *)
Fixpoint encodeURIComponent (s : jsstring) : option jsstring :=
  match s with
  | [] => Some []
  | c :: t =>
    if isUnreserved c then cons c <$> encodeURIComponent t
    else if isLowSurrogate c then None
    else if isHighSurrogate c then
      match t with
      | d :: t' =>
        if isLowSurrogate d
        then app (pctEncode ((c - 55296) * 1024 + (d - 56320) + 65536)%N)
               <$> encodeURIComponent t'
        else None
      | [] => None
      end
    else app (pctEncode c) <$> encodeURIComponent t
  end.

(** [String.prototype.isWellFormed]: no lone surrogate. *)
Fixpoint isWellFormed (s : jsstring) : bool :=
  match s with
  | [] => true
  | c :: t =>
    if isLowSurrogate c then false
    else if isHighSurrogate c then
      match t with
      | d :: t' => isLowSurrogate d && isWellFormed t'
      | [] => false
      end
    else isWellFormed t
  end.

Definition wellFormedOpt (x : option jsstring) : bool :=
  match x with Some s => isWellFormed s | None => true end.

(** ** JSON values *)

(** Numbers are kept to the integers: the only numbers the handlers build
    are HTTP status codes. *)
#[warnings="-register-all"]
Inductive JVal :=
| JNull
| JBool (b : bool)
| JNum (n : Z)
| JStr (s : jsstring)
| JArr (l : list JVal)
| JObj (l : list (jsstring * JVal)).

(** [!v] is [negb (truthy v)]. Arrays and objects are always truthy. *)
Definition truthy (v : JVal) : bool :=
  match v with
  | JNull => false
  | JBool b => b
  | JNum n => negb (n =? 0)
  | JStr s => truthyStr s
  | JArr _ | JObj _ => true
  end.

(** ** The cache *)

Record CacheEntry := { data : JVal; timestamp : Z }.

(** [const CACHE_DURATION = 5 * 60 * 1000] *)
Definition CACHE_DURATION : Z := 5 * 60 * 1000.

(** [`${seriesId}-${startDate || 'none'}-${endDate || 'none'}`] *)
Definition getCacheKey (seriesId : jsstring) (startDate endDate : option jsstring)
  : jsstring :=
  seriesId ++ js "-" ++ orElse startDate (js "none") ++ js "-"
    ++ orElse endDate (js "none").

(** A call site binds parameters by position; a parameter without an
    argument is [undefined]. [dates] are the arguments after [seriesId]. *)
Definition getCacheKey_call (seriesId : jsstring) (dates : list (option jsstring))
  : jsstring :=
  getCacheKey seriesId (nth 0 dates None) (nth 1 dates None).

(** [cachedData && Date.now() - cachedData.timestamp < CACHE_DURATION];
    a stored entry is an object, hence truthy. *)
Definition isFresh (cachedData : option CacheEntry) (now : Z) : bool :=
  match cachedData with
  | Some e => now - timestamp e <? CACHE_DURATION
  | None => false
  end.

(** ** Configuration *)

(** The two variants of the server differ in how [FRED_API_KEY] is bound and
    tested: one falls back to a placeholder key and rejects it, the other
    reads the environment only. *)
Inductive Variant := PlaceholderFallback | EnvironmentOnly.

(** [envKey] is [process.env.FRED_API_KEY] ([None] when unset). The
    placeholder literal of the source is a field, so that every property
    holds whatever its value. *)
Record Config := {
  variant : Variant;
  envKey : option jsstring;
  PLACEHOLDER_API_KEY : jsstring
}.

(** [process.env.FRED_API_KEY || PLACEHOLDER], resp. [process.env.FRED_API_KEY] *)
Definition FRED_API_KEY (cfg : Config) : option jsstring :=
  match variant cfg with
  | PlaceholderFallback => Some (orElse (envKey cfg) (PLACEHOLDER_API_KEY cfg))
  | EnvironmentOnly => envKey cfg
  end.

(** [!FRED_API_KEY || FRED_API_KEY === PLACEHOLDER_API_KEY ||
     FRED_API_KEY === 'YOUR_FALLBACK_KEY_IF_ANY'], resp. [!FRED_API_KEY] *)
Definition keyMissing (cfg : Config) : bool :=
  match variant cfg with
  | PlaceholderFallback =>
    negb (truthyOpt (FRED_API_KEY cfg))
    || bool_decide (FRED_API_KEY cfg = Some (PLACEHOLDER_API_KEY cfg))
    || bool_decide (FRED_API_KEY cfg = Some (js "YOUR_FALLBACK_KEY_IF_ANY"))
  | EnvironmentOnly => negb (truthyOpt (FRED_API_KEY cfg))
  end.

(** [`${x}`] for a value that is a string or [undefined]. *)
Definition tmpl (x : option jsstring) : jsstring :=
  match x with Some s => s | None => js "undefined" end.

(** ** The environment: clock, upstream service, scheduler *)

Inductive Read (A : Type) :=
| ReadOk (a : A)
| ReadFail (message : jsstring).
Arguments ReadOk {A} a.
Arguments ReadFail {A} message.

(** What [fetch] resolves to: the status line, and what reading the body
    with [response.text()] and with [response.json()] gives. *)
Record Response := {
  status : Z;
  text : Read jsstring;
  json : Read JVal
}.

(** [response.ok] *)
Definition ok (r : Response) : bool := (200 <=? status r) && (status r <=? 299).

Inductive FetchOutcome :=
| Settled (r : Response)
| Rejected (message : jsstring).

(** [clock n] is what the [n]-th call of [Date.now()] returns, [net n] how
    the [n]-th call of [fetch] settles, [pick] chooses which pending fetch
    settles next, and [JSON_parse] is [JSON.parse] ([None]: it throws). *)
Record Env := {
  clock : nat -> Z;
  net : nat -> FetchOutcome;
  pick : nat -> nat;
  JSON_parse : jsstring -> option JVal
}.

(** ** Worlds and events *)

(** A response body: a JSON value, or the own enumerable properties of the
    object that [res.json] serialises. *)
Inductive Payload :=
| PJson (v : JVal)
| PProps (props : gmap jsstring JVal).

Inductive Event :=
| EvSpawn (elem : JVal)
| EvFetch (url : jsstring)
| EvCacheSet (key : jsstring) (entry : CacheEntry)
| EvRespond (code : Z) (body : Payload).

Record World := {
  cache : gmap jsstring CacheEntry;
  ticks : nat;
  fetches : nat;
  trace : list Event
}.

Definition emit (e : Event) (w : World) : World :=
  {| cache := cache w; ticks := ticks w; fetches := fetches w;
     trace := trace w ++ [e] |}.

(** ** The handler monad: state and exceptions *)

Inductive Res (A : Type) :=
| Ret (a : A)
| Throw (message : jsstring).
Arguments Ret {A} a.
Arguments Throw {A} message.

Definition M (A : Type) : Type := World -> Res A * World.

Definition ret {A} (a : A) : M A := fun w => (Ret a, w).

Definition bind {A B} (m : M A) (k : A -> M B) : M B :=
  fun w => match m w with
           | (Ret a, w') => k a w'
           | (Throw e, w') => (Throw e, w')
           end.

Definition throw {A} (message : jsstring) : M A := fun w => (Throw message, w).

(** [try { m } catch (error) { h(error.message) }] *)
Definition tryCatch {A} (m : M A) (h : jsstring -> M A) : M A :=
  fun w => match m w with
           | (Ret a, w') => (Ret a, w')
           | (Throw e, w') => h e w'
           end.

Notation "'let*' x ':=' m 'in' k" := (bind m (fun x => k))
  (at level 10, x pattern, m at level 100, k at level 200).
Notation "m ;; k" := (bind m (fun _ => k))
  (at level 100, k at level 200, right associativity).

(** A step that cannot throw. *)
Definition lift {A} (f : World -> A * World) : M A :=
  fun w => let '(a, w') := f w in (Ret a, w').

(** [Date.now()] *)
Definition dateNow (env : Env) : M Z :=
  fun w => (Ret (clock env (ticks w)),
            {| cache := cache w; ticks := S (ticks w); fetches := fetches w;
               trace := trace w |}).

(** [cache.get(key)] *)
Definition cacheGet (key : jsstring) : M (option CacheEntry) :=
  fun w => (Ret (cache w !! key), w).

(** [cache.set(key, entry)] *)
Definition cacheSet (key : jsstring) (entry : CacheEntry) : M unit :=
  fun w => (Ret tt,
            {| cache := <[key := entry]> (cache w); ticks := ticks w;
               fetches := fetches w;
               trace := trace w ++ [EvCacheSet key entry] |}).

(** [fetch(url)]: the request leaves; the answer is the number of the call,
    at which the environment settles it. *)
Definition startFetch (url : jsstring) : M nat :=
  fun w => (Ret (fetches w),
            {| cache := cache w; ticks := ticks w; fetches := S (fetches w);
               trace := trace w ++ [EvFetch url] |}).

(** [await] of the promise of call [n]. *)
Definition settle (env : Env) (n : nat) : M Response :=
  match net env n with
  | Settled r => ret r
  | Rejected e => throw e
  end.

Definition awaitRead {A} (r : Read A) : M A :=
  match r with
  | ReadOk a => ret a
  | ReadFail e => throw e
  end.

(** [res.status(code).json(body)] *)
Definition respond (code : Z) (body : Payload) : M unit :=
  fun w => (Ret tt, emit (EvRespond code body) w).

Definition URIError : jsstring := js "URI malformed".

Definition encodeURI (s : jsstring) : M jsstring :=
  match encodeURIComponent s with
  | Some e => ret e
  | None => throw URIError
  end.

(** [if (d) fredURL += `&name=${encodeURIComponent(d)}`] *)
Definition addParam (name : jsstring) (d : option jsstring) (fredURL : jsstring)
  : M jsstring :=
  if truthyOpt d then
    let* e := encodeURI (tmpl d) in ret (fredURL ++ name ++ e)
  else ret fredURL.

(** [Date.now() - cachedData.timestamp < CACHE_DURATION] is evaluated only
    when [cachedData] is there. The result is the payload of a fresh entry. *)
Definition freshData (env : Env) (cachedData : option CacheEntry)
  : M (option JVal) :=
  match cachedData with
  | Some e =>
    let* now := dateNow env in
    ret (if now - timestamp e <? CACHE_DURATION then Some (data e) else None)
  | None => ret None
  end.

(** ** The single-series handler: [GET /api/fred/:seriesId] *)

(** [req.params.seriesId] and the three fields read from [req.query]. Each
    of the three is a string or [undefined], as a query in which the field
    occurs at most once, plainly, gives it; a query parser that delivers an
    array or an object for a field is outside the model. With such fields
    the [console.log] statements of the handlers cannot throw, and they are
    left out. *)
Record SeriesRequest := {
  seriesId : jsstring;
  start_date : option jsstring;
  end_date : option jsstring;
  sort_order : option jsstring
}.

(** [const { ..., sort_order = 'desc' } = req.query]: the default replaces
    [undefined] only. *)
Definition sortOrderOf (req : SeriesRequest) : jsstring :=
  match sort_order req with Some s => s | None => js "desc" end.

Definition observationsURL : jsstring :=
  js "https://api.stlouisfed.org/fred/series/observations?series_id=".

Definition errorBody (error : jsstring) (field : jsstring) (v : JVal) : Payload :=
  PJson (JObj [(js "error", JStr error); (field, v)]).

Definition errorOnly (error : jsstring) : Payload :=
  PJson (JObj [(js "error", JStr error)]).

(** The text of the configuration error, per variant and per handler. *)
Definition configErrorText (v : Variant) (batch : bool) : jsstring :=
  match v with
  | PlaceholderFallback =>
    js "Server configuration error: FRED API Key missing or invalid."
  | EnvironmentOnly =>
    if batch then js "Server configuration error: FRED API Key missing."
    else js "Server configuration error: FRED API Key is missing."
  end.

(** The body of the [try] block of the handler. *)
Definition fetchSeries (env : Env) (id cacheKey fredURL : jsstring) : M unit :=
  let* n := startFetch fredURL in
  let* response := settle env n in
  if negb (ok response) then
    let* errorText := awaitRead (text response) in
    let errorDetails :=
      match JSON_parse env errorText with
      | Some v => v
      | None => JStr errorText
      end in
    respond (status response)
      (errorBody (js "Failed to fetch data from FRED for series " ++ id)
         (js "details") errorDetails)
  else
    let* data := awaitRead (json response) in
    let* now := dateNow env in
    cacheSet cacheKey {| data := data; timestamp := now |} ;;
    respond 200 (PJson data).

(** The URL of the single-series handler; it is built before the [try]. *)
Definition seriesURL (cfg : Config) (req : SeriesRequest) : M jsstring :=
  let* id := encodeURI (seriesId req) in
  let* order := encodeURI (sortOrderOf req) in
  let fredURL :=
    observationsURL ++ id ++ js "&api_key=" ++ tmpl (FRED_API_KEY cfg)
      ++ js "&file_type=json&sort_order=" ++ order in
  let* fredURL := addParam (js "&observation_start=") (start_date req) fredURL in
  addParam (js "&observation_end=") (end_date req) fredURL.

Definition internalError (message : jsstring) : Payload :=
  errorBody (js "Internal server error when fetching data") (js "message")
    (JStr message).

Definition getSeries (cfg : Config) (env : Env) (req : SeriesRequest) : M unit :=
  if negb (truthyStr (seriesId req)) then
    respond 400 (errorOnly (js "Missing series_id parameter"))
  else if keyMissing cfg then
    respond 500 (errorOnly (configErrorText (variant cfg) false))
  else
    let cacheKey := getCacheKey (seriesId req) (start_date req) (end_date req) in
    let* cachedData := cacheGet cacheKey in
    let* hit := freshData env cachedData in
    match hit with
    | Some payload => respond 200 (PJson payload)
    | None =>
      let* fredURL := seriesURL cfg req in
      tryCatch (fetchSeries env (seriesId req) cacheKey fredURL)
        (fun message => respond 500 (internalError message))
    end.

(** ** The batch handler: [POST /api/fred/multiple] *)

(** The three fields read from [req.body]; [series] is any JSON value, or
    [None] when the field is absent. The two dates are strings or absent: a
    body whose [start_date] or [end_date] is of another JSON type is
    outside the model. *)
Record BatchRequest := {
  series : option JVal;
  batch_start : option jsstring;
  batch_end : option jsstring
}.

Definition joinTypeError : jsstring := js "series.join is not a function".

Definition toPrimitiveTypeError : jsstring :=
  js "Cannot convert object to primitive value".

Fixpoint hasKey (k : jsstring) (l : list (jsstring * JVal)) : bool :=
  match l with
  | [] => false
  | (k', _) :: t => bool_decide (k = k') || hasKey k t
  end.

(** Can [join] turn the value into a string? An object parsed from JSON
    whose own [toString] property shadows the inherited method cannot be
    converted: no JSON value is callable. *)
Fixpoint printable (v : JVal) : bool :=
  match v with
  | JObj props => negb (hasKey (js "toString") props)
  | JArr l => forallb printable l
  | _ => true
  end.

(** The argument of the first [console.log]:
    [series ? series.join(', ') : '[]']. Only arrays have [join]. *)
Definition logSeries (series : option JVal) : M unit :=
  match series with
  | Some v =>
    if truthy v then
      match v with
      | JArr l =>
        if forallb printable l then ret tt else throw toPrimitiveTypeError
      | _ => throw joinTypeError
      end
    else ret tt
  | None => ret tt
  end.

(** [!series || !Array.isArray(series) || series.length === 0] *)
Definition invalidSeries (series : option JVal) : bool :=
  match series with
  | None => true
  | Some v =>
    negb (truthy v)
    || match v with
       | JArr l => (length l =? 0)%nat
       | _ => true
       end
  end.

Definition elementsOf (series : option JVal) : list JVal :=
  match series with
  | Some (JArr l) => l
  | _ => []
  end.

(** *** The [results] object *)

(** The prototype of [results]: [Object.prototype] at first; assigning to
    [results["__proto__"]] runs the accessor of [Object.prototype], which
    replaces the prototype by an object (or array) value or by [null] and
    creates no own property. *)
Inductive Proto :=
| ObjectPrototype
| NullPrototype
| ValuePrototype (v : JVal).

Record Results := { proto : Proto; own : gmap jsstring JVal }.

Definition emptyResults : Results := {| proto := ObjectPrototype; own := ∅ |}.

Definition protoKey : jsstring := js "__proto__".

(** Does the lookup of ["__proto__"] along the prototype chain end at the
    accessor of [Object.prototype]? An object parsed from JSON may have an
    own data property of that name, which shadows it. *)
Definition setterFound (p : Proto) : bool :=
  match p with
  | ObjectPrototype => true
  | NullPrototype => false
  | ValuePrototype (JObj props) => negb (hasKey protoKey props)
  | ValuePrototype _ => true
  end.

(** [results[key] = v] *)
Definition setResult (r : Results) (key : jsstring) (v : JVal) : Results :=
  if bool_decide (key = protoKey)
     && bool_decide (own r !! key = None)
     && setterFound (proto r)
  then
    match v with
    | JObj _ | JArr _ => {| proto := ValuePrototype v; own := own r |}
    | JNull => {| proto := NullPrototype; own := own r |}
    | _ => r
    end
  else {| proto := proto r; own := <[key := v]> (own r) |}.

(** *** One task of the fan-out *)

Inductive Task :=
| TaskDone
| TaskFailed (message : jsstring)
| TaskPending (id cacheKey : jsstring) (call : nat).

Definition trimTypeError (elem : JVal) : jsstring :=
  match elem with
  | JNull => js "Cannot read properties of null (reading 'trim')"
  | _ => js "seriesIdUntrimmed.trim is not a function"
  end.

(** [seriesIdUntrimmed.trim()] *)
Definition trimElem (elem : JVal) : M jsstring :=
  match elem with
  | JStr s => ret (trim s)
  | _ => throw (trimTypeError elem)
  end.

(** The URL of one task: the sort order is the literal [desc]. *)
Definition batchURL (cfg : Config) (seriesId : jsstring)
    (start_date end_date : option jsstring) : M jsstring :=
  let* id := encodeURI seriesId in
  let fredURL :=
    observationsURL ++ id ++ js "&api_key=" ++ tmpl (FRED_API_KEY cfg)
      ++ js "&file_type=json&sort_order=desc" in
  let* fredURL := addParam (js "&observation_start=") start_date fredURL in
  addParam (js "&observation_end=") end_date fredURL.

(** The callback of [series.map] up to its first suspension, at
    [await fetch(fredURL)]. *)
Definition taskBody (cfg : Config) (env : Env) (start_date end_date : option jsstring)
    (results : Results) (elem : JVal) : M (Task * Results) :=
  lift (fun w => (tt, emit (EvSpawn elem) w)) ;;
  let* seriesId := trimElem elem in
  if negb (truthyStr seriesId) then ret (TaskDone, results)
  else
    let cacheKey := getCacheKey seriesId start_date end_date in
    let* cachedData := cacheGet cacheKey in
    let* hit := freshData env cachedData in
    match hit with
    | Some payload => ret (TaskDone, setResult results seriesId payload)
    | None =>
      let* fredURL := batchURL cfg seriesId start_date end_date in
      let* n := startFetch fredURL in
      ret (TaskPending seriesId cacheKey n, results)
    end.

(** An exception in an [async] callback rejects its promise; it does not
    leave [series.map]. *)
Definition taskStart (cfg : Config) (env : Env) (start_date end_date : option jsstring)
    (results : Results) (elem : JVal) (w : World) : (Task * Results) * World :=
  match taskBody cfg env start_date end_date results elem w with
  | (Ret tr, w') => (tr, w')
  | (Throw e, w') => ((TaskFailed e, results), w')
  end.

(** [series.map(async ...)]: the callbacks run in order, each up to its
    first suspension. *)
Fixpoint spawnAll (cfg : Config) (env : Env) (start_date end_date : option jsstring)
    (elems : list JVal) (results : Results) (w : World)
  : (list Task * Results) * World :=
  match elems with
  | [] => (([], results), w)
  | elem :: rest =>
    let '((t, results1), w1) := taskStart cfg env start_date end_date results elem w in
    let '((ts, results2), w2) := spawnAll cfg env start_date end_date rest results1 w1 in
    ((t :: ts, results2), w2)
  end.

Definition failDescriptor (id : jsstring) (code : Z) (errorText : jsstring) : JVal :=
  JObj [(js "error", JStr (js "Failed to fetch " ++ id));
        (js "status", JNum code);
        (js "details", JStr errorText)].

Definition internalDescriptor (id : jsstring) (message : jsstring) : JVal :=
  JObj [(js "error", JStr (js "Internal error fetching " ++ id));
        (js "message", JStr message)].

(** The rest of the callback, from the settlement of its fetch on: the inner
    [try ... catch (fetchError)]. The segments between its suspensions touch
    the cache and [results] only in the last one, so the continuation is
    run in one piece, at the time of that last segment. *)
Definition taskFinish (env : Env) (id cacheKey : jsstring) (call : nat)
    (results : Results) : M Results :=
  tryCatch
    (let* response := settle env call in
     if ok response then
       let* data := awaitRead (json response) in
       let* now := dateNow env in
       cacheSet cacheKey {| data := data; timestamp := now |} ;;
       ret (setResult results id data)
     else
       let* errorText := awaitRead (text response) in
       ret (setResult results id (failDescriptor id (status response) errorText)))
    (fun message => ret (setResult results id (internalDescriptor id message))).

Definition finishTask (env : Env) (t : Task) (results : Results) : M Results :=
  match t with
  | TaskPending id cacheKey call => taskFinish env id cacheKey call results
  | _ => ret results
  end.

Definition isPending (t : Task) : bool :=
  match t with TaskPending _ _ _ => true | _ => false end.

(** The pending callbacks resume in the order their fetches settle, which
    the environment chooses: at step [step], the [pick env step]-th of the
    callbacks still pending (modulo their number). *)
Fixpoint drain (env : Env) (n step : nat) (pending : list Task)
    (results : Results) : M Results :=
  match n with
  | O => ret results
  | S n' =>
    let i := (pick env step mod length pending)%nat in
    match pending !! i with
    | Some t =>
      let* results' := finishTask env t results in
      drain env n' (S step) (delete i pending) results'
    | None => ret results
    end
  end.

Definition pendingOf (tasks : list Task) : list Task :=
  filter (fun t => isPending t = true) tasks.

(** [await Promise.all(promises)], when no promise is rejected: every
    pending callback runs to its end. *)
Definition drainAll (env : Env) (tasks : list Task) (results : Results) : M Results :=
  drain env (length (pendingOf tasks)) 0 (pendingOf tasks) results.

(** [Promise.all] rejects with the reason of the first promise to reject. *)
Fixpoint firstFailure (tasks : list Task) : option jsstring :=
  match tasks with
  | [] => None
  | TaskFailed e :: _ => Some e
  | _ :: rest => firstFailure rest
  end.

Definition batchError (message : jsstring) : Payload :=
  errorBody (js "Internal server error while processing multiple series")
    (js "message") (JStr message).

Definition invalidSeriesError : Payload :=
  errorOnly (js "Missing or invalid series array in request body").

Definition getMultiple (cfg : Config) (env : Env) (req : BatchRequest) : M unit :=
  logSeries (series req) ;;
  if invalidSeries (series req) then
    respond 400 invalidSeriesError
  else if keyMissing cfg then
    respond 500 (errorOnly (configErrorText (variant cfg) true))
  else
    let* (tasks, results) :=
      lift (spawnAll cfg env (batch_start req) (batch_end req)
              (elementsOf (series req)) emptyResults) in
    match firstFailure tasks with
    | Some message =>
      (* the rejection reaches the outer [catch] before any fetch settles;
         the callbacks still pending run on after the response *)
      respond 500 (batchError message) ;;
      let* _ := drainAll env tasks results in ret tt
    | None =>
      let* results' := drainAll env tasks results in
      respond 200 (PProps (own results'))
    end.

(** ** The maintenance endpoints *)

(** [cache.size] *)
Definition cacheSize : M Z :=
  fun w => (Ret (Z.of_nat (size (cache w))), w).

(** [cache.clear()] *)
Definition cacheClear : M unit :=
  fun w => (Ret tt,
            {| cache := ∅; ticks := ticks w; fetches := fetches w;
               trace := trace w |}).

(** [FRED_API_KEY === PLACEHOLDER_API_KEY ||
     FRED_API_KEY === 'YOUR_FALLBACK_KEY_IF_ANY'] *)
Definition apiKeyIsPlaceholder (cfg : Config) : bool :=
  bool_decide (FRED_API_KEY cfg = Some (PLACEHOLDER_API_KEY cfg))
  || bool_decide (FRED_API_KEY cfg = Some (js "YOUR_FALLBACK_KEY_IF_ANY")).

(** [!!FRED_API_KEY && !apiKeyIsPlaceholder], resp. [!!FRED_API_KEY] *)
Definition apiKeyOkay (cfg : Config) : bool :=
  match variant cfg with
  | PlaceholderFallback =>
    truthyOpt (FRED_API_KEY cfg) && negb (apiKeyIsPlaceholder cfg)
  | EnvironmentOnly => truthyOpt (FRED_API_KEY cfg)
  end.

Definition healthNote (v : Variant) (okay : bool) : jsstring :=
  match v with
  | PlaceholderFallback =>
    if okay then js "API Key seems configured."
    else js "WARNING: API Key might be missing or a placeholder!"
  | EnvironmentOnly =>
    if okay then js "API Key is present."
    else js "WARNING: FRED_API_KEY environment variable is not set!"
  end.

(** [GET /api/health]. [new Date()] reads the clock; [toISOString] is
    [Date.prototype.toISOString] as a function of the time value. *)
Definition getHealth (cfg : Config) (env : Env) (toISOString : Z → jsstring)
  : M unit :=
  let okay := apiKeyOkay cfg in
  let* now := dateNow env in
  let* n := cacheSize in
  respond 200
    (PJson (JObj [(js "status", JStr (js "ok"));
                  (js "timestamp", JStr (toISOString now));
                  (js "cache_size", JNum n);
                  (js "api_key_configured_properly", JBool okay);
                  (js "note", JStr (healthNote (variant cfg) okay))])).

(** [POST /api/cache/clear] *)
Definition clearCache : M unit :=
  cacheClear ;;
  let* n := cacheSize in
  respond 200
    (PJson (JObj [(js "message", JStr (js "Cache cleared successfully"));
                  (js "cache_size", JNum n)])).

(** ** The earlier variant of the server *)

(** [server.js] holds an earlier variant of the same server. What it does
    differently where the claims point at it: *)
Module Legacy.

(** [`${seriesId}-${startDate}-${endDate}`]: an absent date is interpolated
    as it is. *)
Definition getCacheKey (seriesId : jsstring) (startDate endDate : option jsstring)
  : jsstring :=
  seriesId ++ js "-" ++ tmpl startDate ++ js "-" ++ tmpl endDate.

(** [!series || !Array.isArray(series)]: the empty array passes. *)
Definition invalidSeries (series : option JVal) : bool :=
  match series with
  | None => true
  | Some v =>
    negb (truthy v)
    || match v with
       | JArr _ => false
       | _ => true
       end
  end.

End Legacy.

(** Its single-series handler and its maintenance endpoints. The cache, the
    clock and the upstream service are those of the current variant. *)
Module LegacyServer.

(** [process.env.FRED_API_KEY || '...']: the fallback literal is the one the
    current variant names [PLACEHOLDER_API_KEY]. *)
Definition FRED_API_KEY (cfg : Config) : jsstring :=
  orElse (envKey cfg) (PLACEHOLDER_API_KEY cfg).

(** The strings of the request are interpolated as they are. *)
Definition seriesURL (cfg : Config) (req : SeriesRequest) : jsstring :=
  let fredURL :=
    observationsURL ++ seriesId req ++ js "&api_key=" ++ FRED_API_KEY cfg
      ++ js "&file_type=json&sort_order=" ++ sortOrderOf req in
  let fredURL :=
    if truthyOpt (start_date req)
    then fredURL ++ js "&observation_start=" ++ tmpl (start_date req)
    else fredURL in
  if truthyOpt (end_date req)
  then fredURL ++ js "&observation_end=" ++ tmpl (end_date req)
  else fredURL.

(** The body of the [try] block: the text of an upstream error is passed on
    as it is. *)
Definition fetchSeries (env : Env) (cacheKey fredURL : jsstring) : M unit :=
  let* n := startFetch fredURL in
  let* response := settle env n in
  if negb (ok response) then
    let* errorText := awaitRead (text response) in
    respond (status response)
      (errorBody (js "Failed to fetch data from FRED") (js "details")
         (JStr errorText))
  else
    let* data := awaitRead (json response) in
    let* now := dateNow env in
    cacheSet cacheKey {| data := data; timestamp := now |} ;;
    respond 200 (PJson data).

Definition configError : Payload := errorOnly (js "Server configuration error").

Definition getSeries (cfg : Config) (env : Env) (req : SeriesRequest) : M unit :=
  if negb (truthyStr (seriesId req)) then
    respond 400 (errorOnly (js "Missing series_id parameter"))
  else if negb (truthyStr (FRED_API_KEY cfg)) then
    respond 500 configError
  else
    let cacheKey :=
      Legacy.getCacheKey (seriesId req) (start_date req) (end_date req) in
    let* cachedData := cacheGet cacheKey in
    let* hit := freshData env cachedData in
    match hit with
    | Some payload => respond 200 (PJson payload)
    | None =>
      tryCatch (fetchSeries env cacheKey (seriesURL cfg req))
        (fun message => respond 500 (internalError message))
    end.

(** [GET /api/health] *)
Definition getHealth (cfg : Config) : M unit :=
  let* n := cacheSize in
  respond 200
    (PJson (JObj [(js "status", JStr (js "ok"));
                  (js "cache_size", JNum n);
                  (js "api_key_configured", JBool (truthyStr (FRED_API_KEY cfg)))])).

(** [POST /api/cache/clear]: the size in the answer is the literal [0]. *)
Definition clearCache : M unit :=
  cacheClear ;;
  respond 200
    (PJson (JObj [(js "message", JStr (js "Cache cleared"));
                  (js "cache_size", JNum 0)])).

End LegacyServer.

(** * Notions used in the statements *)

(** ** Outcomes of a call *)

(** The three outcomes of an upstream call, read off the branches the
    handlers take: the status is a success and the body parses; the status
    is not a success and the body text could be read; anything else was
    thrown and caught. *)
Inductive Outcome :=
| Success (payload : JVal)
| UpstreamError (code : Z) (errorText : jsstring)
| TransportError (message : jsstring).

Definition outcomeOf (o : FetchOutcome) : Outcome :=
  match o with
  | Settled r =>
    if ok r then
      match json r with
      | ReadOk d => Success d
      | ReadFail e => TransportError e
      end
    else
      match text r with
      | ReadOk t => UpstreamError (status r) t
      | ReadFail e => TransportError e
      end
  | Rejected e => TransportError e
  end.

Definition isSuccess (o : Outcome) : bool :=
  match o with Success _ => true | _ => false end.

(** The entry a task writes for its identifier, by the outcome of its
    call. *)
Definition entryOf (id : jsstring) (o : Outcome) : JVal :=
  match o with
  | Success d => d
  | UpstreamError code errorText => failDescriptor id code errorText
  | TransportError message => internalDescriptor id message
  end.

(** ** Requests *)

(** The first statement of the handler does not throw. *)
Definition loggable (series : option JVal) : bool :=
  match series with
  | Some v =>
    if truthy v then
      match v with
      | JArr l => forallb printable l
      | _ => false
      end
    else true
  | None => true
  end.

(** No lone surrogate in any string of the request that goes into the URL. *)
Definition requestWellFormed (req : SeriesRequest) : bool :=
  isWellFormed (seriesId req) && isWellFormed (sortOrderOf req)
  && wellFormedOpt (start_date req) && wellFormedOpt (end_date req).

Definition keyOf (req : SeriesRequest) : jsstring :=
  getCacheKey (seriesId req) (start_date req) (end_date req).

Definition isString (v : JVal) : bool :=
  match v with JStr _ => true | _ => false end.

(** What the fan-out needs of an element for its task not to throw. *)
Definition encodable (sd ed : option jsstring) (elem : JVal) : bool :=
  match elem with
  | JStr s => isWellFormed (trim s) && wellFormedOpt sd && wellFormedOpt ed
  | _ => false
  end.

(** An element the fan-out skips: a string of white space only. *)
Definition isBlank (elem : JVal) : bool :=
  match elem with
  | JStr s => forallb isWhiteSpace s
  | _ => false
  end.

(** The code units of a JavaScript string are 16-bit. *)
Definition isCodeUnits (s : jsstring) : bool :=
  forallb (fun c => (c <? 65536)%N) s.

Definition codeUnitsOpt (x : option jsstring) : bool :=
  match x with Some s => isCodeUnits s | None => true end.

Definition requestCodeUnits (req : SeriesRequest) : bool :=
  isCodeUnits (seriesId req) && isCodeUnits (sortOrderOf req)
  && codeUnitsOpt (start_date req) && codeUnitsOpt (end_date req).

(** What [encodeURIComponent] leaves in its result: unreserved characters
    and the percent sign of an escape. *)
Definition urlSafe (c : N) : bool := isUnreserved c || (c =? 37)%N.

(** How the date [d] of a request appears in the URL, as [p]: not at all
    when it is absent or empty, and else as the parameter [name] whose value
    is the date, escaped. *)
Definition dateQuery (name : jsstring) (d : option jsstring) (p : jsstring)
  : Prop :=
  match d with
  | Some (c :: t) =>
    ∃ e, encodeURIComponent (c :: t) = Some e
         ∧ forallb urlSafe e = true
         ∧ p = name ++ e
  | _ => p = []
  end.

(** ** Events *)

Definition isFetch (e : Event) : bool :=
  match e with EvFetch _ => true | _ => false end.

Definition isRespond (e : Event) : bool :=
  match e with EvRespond _ _ => true | _ => false end.

Definition isSpawn (e : Event) : bool :=
  match e with EvSpawn _ => true | _ => false end.

Definition isCacheSet (e : Event) : bool :=
  match e with EvCacheSet _ _ => true | _ => false end.

Definition spawnOrFetch (e : Event) : bool := isSpawn e || isFetch e.

(** The events [w'] has on top of [w]. *)
Definition newEvents (w w' : World) : list Event :=
  drop (length (trace w)) (trace w').

(** [w'] extends [w] by events that all satisfy [p]. *)
Definition quiet (p : Event → bool) (w w' : World) : Prop :=
  ∃ evs, trace w' = trace w ++ evs ∧ forallb p evs = true.

(** ** The world after a step of a handler *)

Definition tick (w : World) : World :=
  {| cache := cache w; ticks := S (ticks w); fetches := fetches w;
     trace := trace w |}.

(** What the [try] block and its [catch] do, by the outcome of the call. *)
Definition afterFetch (env : Env) (id key url : jsstring) (w : World) : World :=
  let w1 :=
    {| cache := cache w; ticks := ticks w; fetches := S (fetches w);
       trace := trace w ++ [EvFetch url] |} in
  match outcomeOf (net env (fetches w)) with
  | Success d =>
    let entry := {| data := d; timestamp := clock env (ticks w) |} in
    {| cache := <[key := entry]> (cache w); ticks := S (ticks w);
       fetches := S (fetches w);
       trace := trace w ++ [EvFetch url; EvCacheSet key entry;
                            EvRespond 200 (PJson d)] |}
  | UpstreamError code errorText =>
    let details :=
      match JSON_parse env errorText with
      | Some v => v
      | None => JStr errorText
      end in
    emit (EvRespond code
            (errorBody (js "Failed to fetch data from FRED for series " ++ id)
               (js "details") details)) w1
  | TransportError message => emit (EvRespond 500 (internalError message)) w1
  end.

Definition cacheStore (key : jsstring) (entry : CacheEntry) (w : World) : World :=
  {| cache := <[key := entry]> (cache w); ticks := ticks w;
     fetches := fetches w; trace := trace w ++ [EvCacheSet key entry] |}.

(** The world after the continuation of a task has run. *)
Definition afterTask (env : Env) (key : jsstring) (call : nat) (w : World) : World :=
  match outcomeOf (net env call) with
  | Success d =>
    cacheStore key {| data := d; timestamp := clock env (ticks w) |} (tick w)
  | _ => w
  end.

Definition launched (url : jsstring) (w : World) : World :=
  {| cache := cache w; ticks := ticks w; fetches := S (fetches w);
     trace := trace w ++ [EvFetch url] |}.

(** A task that found no fresh entry: it builds its URL and calls. *)
Definition launch (cfg : Config) (id key : jsstring) (sd ed : option jsstring)
    (results : Results) (w : World) : (Task * Results) * World :=
  match batchURL cfg id sd ed w with
  | (Ret url, _) => ((TaskPending id key (fetches w), results), launched url w)
  | (Throw e, _) => ((TaskFailed e, results), w)
  end.

(** The five ways the first segment of a task can go. [w1] is the world at
    the time the URL is built: the clock has been read if an entry, stale,
    was found. *)
Inductive StartCase (cfg : Config) (env : Env) (sd ed : option jsstring)
    (results : Results) (elem : JVal) (w : World)
  : (Task * Results) * World → Prop :=
| StartNonString :
    isString elem = false →
    StartCase cfg env sd ed results elem w
      ((TaskFailed (trimTypeError elem), results), emit (EvSpawn elem) w)
| StartBlank s :
    elem = JStr s → trim s = [] →
    StartCase cfg env sd ed results elem w
      ((TaskDone, results), emit (EvSpawn elem) w)
| StartHit s e :
    elem = JStr s → trim s ≠ [] →
    cache w !! getCacheKey (trim s) sd ed = Some e →
    isFresh (Some e) (clock env (ticks w)) = true →
    StartCase cfg env sd ed results elem w
      ((TaskDone, setResult results (trim s) (data e)),
       tick (emit (EvSpawn elem) w))
| StartLaunch s url w1 :
    elem = JStr s → trim s ≠ [] →
    isFresh (cache w !! getCacheKey (trim s) sd ed) (clock env (ticks w)) = false →
    w1 = emit (EvSpawn elem) w ∨ w1 = tick (emit (EvSpawn elem) w) →
    StartCase cfg env sd ed results elem w
      ((TaskPending (trim s) (getCacheKey (trim s) sd ed) (fetches w), results),
       launched url w1)
| StartURIError s w1 :
    elem = JStr s → trim s ≠ [] →
    isWellFormed (trim s) && wellFormedOpt sd && wellFormedOpt ed = false →
    w1 = emit (EvSpawn elem) w ∨ w1 = tick (emit (EvSpawn elem) w) →
    StartCase cfg env sd ed results elem w ((TaskFailed URIError, results), w1).

(** The fan-out as a sequence of such first segments: from [results] and
    [w], the elements leave the tasks [tasks], the object [results'] and the
    world [w']. *)
Inductive Spawned (cfg : Config) (env : Env) (sd ed : option jsstring)
  : list JVal → Results → World → list Task → Results → World → Prop :=
| SpawnedNil results w :
    Spawned cfg env sd ed [] results w [] results w
| SpawnedCons elem rest results w t results1 w1 tasks results2 w2 :
    StartCase cfg env sd ed results elem w ((t, results1), w1) →
    Spawned cfg env sd ed rest results1 w1 tasks results2 w2 →
    Spawned cfg env sd ed (elem :: rest) results w (t :: tasks) results2 w2.

(** ** The pending tasks of a batch *)

(** What the continuation of a task writes into [results], and what it
    does to the world. *)
Definition writeOf (env : Env) (results : Results) (t : Task) : Results :=
  match t with
  | TaskPending id key call =>
    setResult results id (entryOf id (outcomeOf (net env call)))
  | _ => results
  end.

Definition afterFinish (env : Env) (w : World) (t : Task) : World :=
  match t with
  | TaskPending id key call => afterTask env key call w
  | _ => w
  end.

(** The order in which the environment lets the pending tasks resume. *)
Fixpoint schedule (pick : nat → nat) (n step : nat) (pending : list Task)
  : list Task :=
  match n with
  | O => []
  | S n' =>
    let i := (pick step mod length pending)%nat in
    match pending !! i with
    | Some t => t :: schedule pick n' (S step) (delete i pending)
    | None => []
    end
  end.

Definition orderOf (env : Env) (tasks : list Task) : list Task :=
  schedule (pick env) (length (pendingOf tasks)) 0 (pendingOf tasks).

(** The same environment with another upstream service. *)
Definition withNet (env : Env) (net' : nat → FetchOutcome) : Env :=
  {| clock := clock env; net := net'; pick := pick env;
     JSON_parse := JSON_parse env |}.

(** The same environment with another order of settlement. *)
Definition withPick (env : Env) (pick' : nat → nat) : Env :=
  {| clock := clock env; net := net env; pick := pick';
     JSON_parse := JSON_parse env |}.

(** Is the task a pending call for the identifier? *)
Definition isTaskFor (id : jsstring) (t : Task) : bool :=
  match t with
  | TaskPending id' _ _ => bool_decide (id' = id)
  | _ => false
  end.

(** The tasks of a batch, as the fan-out leaves them. *)
Definition tasksOf (cfg : Config) (env : Env) (req : BatchRequest) (w : World)
  : list Task :=
  fst (fst (spawnAll cfg env (batch_start req) (batch_end req)
              (elementsOf (series req)) emptyResults w)).

(** ** Concrete configurations, environments and requests *)

Definition demoConfig : Config :=
  {| variant := EnvironmentOnly; envKey := Some (js "KEY");
     PLACEHOLDER_API_KEY := js "PLACEHOLDER" |}.

Definition demoNoKey : Config :=
  {| variant := EnvironmentOnly; envKey := None;
     PLACEHOLDER_API_KEY := js "PLACEHOLDER" |}.

Definition okResponse (payload : JVal) : Response :=
  {| status := 200; text := ReadFail (js "body used already");
     json := ReadOk payload |}.

Definition notFound : Response :=
  {| status := 404; text := ReadOk (js "Not Found");
     json := ReadFail (js "Unexpected token N in JSON at position 0") |}.

(** The first call succeeds, every later one is answered 404; the clock
    advances by one millisecond at each reading. *)
Definition demoEnv : Env :=
  {| clock := fun n => 1000 + Z.of_nat n;
     net := fun n =>
              match n with
              | O => Settled (okResponse (JNum 1))
              | _ => Settled notFound
              end;
     pick := fun _ => O;
     JSON_parse := fun _ => None |}.

(** An answer with status 503 whose body cannot be read: the connection
    breaks while the body arrives. *)
Definition unreadable : Response :=
  {| status := 503; text := ReadFail (js "terminated");
     json := ReadFail (js "terminated") |}.

(** Every call is answered so. *)
Definition brokenEnv : Env :=
  {| clock := fun n => 1000 + Z.of_nat n;
     net := fun _ => Settled unreadable;
     pick := fun _ => O;
     JSON_parse := fun _ => None |}.

(** Every call is answered 404. *)
Definition failingEnv : Env :=
  {| clock := fun n => 1000 + Z.of_nat n;
     net := fun _ => Settled notFound;
     pick := fun _ => O;
     JSON_parse := fun _ => None |}.

Definition emptyWorld : World :=
  {| cache := ∅; ticks := 0; fetches := 0; trace := [] |}.

(** A world whose cache holds an entry for [GDP], stored at time 1000. *)
Definition warmWorld : World :=
  {| cache := {[ js "GDP-none-none" := {| data := JNum 1; timestamp := 1000 |} ]};
     ticks := 1; fetches := 1; trace := [] |}.

(** A world in which the next call is the second one. *)
Definition laterWorld : World :=
  {| cache := ∅; ticks := 0; fetches := 1; trace := [] |}.

Definition batchOf (elems : list JVal) : BatchRequest :=
  {| series := Some (JArr elems); batch_start := None; batch_end := None |}.

Definition seriesOf (id : string) (order : option jsstring) : SeriesRequest :=
  {| seriesId := js id; start_date := None; end_date := None;
     sort_order := order |}.

Definition scenario : BatchRequest :=
  batchOf [JStr (js "GDP"); JStr (js " "); JStr (js "CPI")].

(** Two requests for different series with the same cache key. *)
Definition gdpFrom2020 : SeriesRequest :=
  {| seriesId := js "GDP"; start_date := Some (js "2020-01-01");
     end_date := None; sort_order := None |}.

Definition gdp2020From0101 : SeriesRequest :=
  {| seriesId := js "GDP-2020"; start_date := Some (js "01-01");
     end_date := None; sort_order := None |}.

(** A request whose strings have characters that are escaped in a URL. *)
Definition escapedRequest : SeriesRequest :=
  {| seriesId := js "a b"; start_date := Some (js "");
     end_date := Some (js "2020-12-31"); sort_order := Some (js "a&b") |}.

(** The clock stands still; the first call succeeds. *)
Definition frozenEnv : Env :=
  {| clock := fun _ => 1000;
     net := net demoEnv;
     pick := fun _ => O;
     JSON_parse := fun _ => None |}.

Definition placeholderConfig : Config :=
  {| variant := PlaceholderFallback; envKey := Some (js "KEY");
     PLACEHOLDER_API_KEY := js "PLACEHOLDER" |}.

(** * Properties *)

(** ** Examples *)

Example getCacheKey_ex :
  getCacheKey (js "GDP") (Some (js "2020-01-01")) None = js "GDP-2020-01-01-none".
Proof. reflexivity. Qed.

Example trim_ex : trim (js "  GDP ") = js "GDP".
Proof. reflexivity. Qed.

(** No-break space and ideographic space are trimmed as well. *)
Example trim_unicode_ex : trim [160%N; 71%N; 12288%N] = [71%N].
Proof. reflexivity. Qed.

Example encode_ex : encodeURIComponent (js "a b&c") = Some (js "a%20b%26c").
Proof. reflexivity. Qed.

(** U+00E9, and U+1F600 as a surrogate pair. *)
Example encode_utf8_ex :
  encodeURIComponent [233%N] = Some (js "%C3%A9")
  ∧ encodeURIComponent [55357%N; 56832%N] = Some (js "%F0%9F%98%80").
Proof. split; reflexivity. Qed.

Example encode_lone_surrogate_ex :
  encodeURIComponent [55296%N] = None
  ∧ encodeURIComponent [56832%N; 55357%N] = None.
Proof. split; reflexivity. Qed.

(** The prototype setter: no property for ["__proto__"], a property for
    any other name, also one that [Object.prototype] has. *)
Example setResult_ex :
  own (setResult emptyResults (js "__proto__") (JObj [])) = ∅
  ∧ own (setResult emptyResults (js "constructor") (JNum 1))
    = {[ js "constructor" := JNum 1 ]}
  ∧ own (setResult (setResult emptyResults (js "__proto__") JNull)
           (js "__proto__") (JNum 1))
    = {[ js "__proto__" := JNum 1 ]}.
Proof. repeat split; reflexivity. Qed.

Example legacy_getCacheKey_undefined :
  Legacy.getCacheKey (js "GDP") None None = js "GDP-undefined-undefined".
Proof. reflexivity. Qed.

Example legacy_empty_series_passes : Legacy.invalidSeries (Some (JArr [])) = false.
Proof. reflexivity. Qed.

(** ** Strings *)

Lemma isUnreserved_ascii (c : N) : isUnreserved c = true → (c < 128)%N.
Proof.
  unfold isUnreserved.
  rewrite !orb_true_iff, !andb_true_iff, !N.leb_le, !N.eqb_eq. lia.
Qed.

Lemma ascii_not_surrogate (c : N) :
  (c < 128)%N → isLowSurrogate c = false ∧ isHighSurrogate c = false.
Proof.
  intros Hc. unfold isLowSurrogate, isHighSurrogate.
  rewrite !andb_false_iff, !N.leb_gt. lia.
Qed.

Lemma encodeURIComponent_total_aux (n : nat) :
  ∀ s : jsstring, (length s <= n)%nat → isWellFormed s = true →
    ∃ e, encodeURIComponent s = Some e.
Proof.
  induction n as [|n IH]; intros s Hlen Hwf.
  - destruct s; [by exists [] | simpl in Hlen; lia].
  - destruct s as [|c t]; [by exists []|].
    simpl in Hlen, Hwf |- *.
    destruct (isUnreserved c) eqn:Hu.
    + destruct (ascii_not_surrogate c (isUnreserved_ascii c Hu)) as [Hl Hh].
      rewrite Hl, Hh in Hwf.
      destruct (IH t) as [e He]; [lia|done|]. rewrite He. by eexists.
    + destruct (isLowSurrogate c); [done|].
      destruct (isHighSurrogate c).
      * destruct t as [|d t']; [done|].
        apply andb_true_iff in Hwf as [Hd Hwf]. rewrite Hd.
        destruct (IH t') as [e He]; [simpl in Hlen; lia|done|].
        rewrite He. by eexists.
      * destruct (IH t) as [e He]; [lia|done|]. rewrite He. by eexists.
Qed.

Lemma encodeURIComponent_total (s : jsstring) :
  isWellFormed s = true → ∃ e, encodeURIComponent s = Some e.
Proof. apply (encodeURIComponent_total_aux (length s)). lia. Qed.

(** [encodeURIComponent] throws exactly on the strings with a lone
    surrogate. *)
Lemma encodeURIComponent_None_aux (n : nat) :
  ∀ s : jsstring, (length s <= n)%nat → isWellFormed s = false →
    encodeURIComponent s = None.
Proof.
  induction n as [|n IH]; intros s Hlen Hwf.
  - destruct s; [done | simpl in Hlen; lia].
  - destruct s as [|c t]; [done|].
    simpl in Hlen, Hwf |- *.
    destruct (isUnreserved c) eqn:Hu.
    + destruct (ascii_not_surrogate c (isUnreserved_ascii c Hu)) as [Hl Hh].
      rewrite Hl, Hh in Hwf. rewrite (IH t); [done|lia|done].
    + destruct (isLowSurrogate c); [done|].
      destruct (isHighSurrogate c).
      * destruct t as [|d t']; [done|].
        destruct (isLowSurrogate d); [|done]. simpl in Hwf.
        rewrite (IH t'); [done|simpl in Hlen; lia|done].
      * rewrite (IH t); [done|lia|done].
Qed.

Lemma encodeURIComponent_None (s : jsstring) :
  encodeURIComponent s = None ↔ isWellFormed s = false.
Proof.
  split.
  - intros Hn. destruct (isWellFormed s) eqn:Hwf; [|done].
    destruct (encodeURIComponent_total s Hwf) as [e He]. congruence.
  - apply (encodeURIComponent_None_aux (length s)). lia.
Qed.

(** ** URL construction *)

Lemma encodeURI_run (s : jsstring) (w : World) :
  encodeURI s w =
    (match encodeURIComponent s with Some e => Ret e | None => Throw URIError end,
     w).
Proof. unfold encodeURI. by destruct (encodeURIComponent s). Qed.

Lemma addParam_world name d url w : snd (addParam name d url w) = w.
Proof.
  unfold addParam, bind. destruct (truthyOpt d); [|done].
  rewrite encodeURI_run. by destruct (encodeURIComponent (tmpl d)).
Qed.

Lemma addParam_ok name d url :
  wellFormedOpt d = true → ∃ url', ∀ w, addParam name d url w = (Ret url', w).
Proof.
  intros Hwf. unfold addParam, bind.
  destruct (truthyOpt d) eqn:Ht; [|by exists url].
  destruct d as [s|]; [|done]. simpl in *.
  destruct (encodeURIComponent_total s Hwf) as [e He].
  exists (url ++ name ++ e). intros w. by rewrite encodeURI_run, He.
Qed.

Lemma addParam_throw name d url w e w' :
  addParam name d url w = (Throw e, w') → e = URIError ∧ wellFormedOpt d = false.
Proof.
  unfold addParam, bind. destruct (truthyOpt d) eqn:Ht; [|done].
  rewrite encodeURI_run.
  destruct (encodeURIComponent (tmpl d)) eqn:He; [done|].
  intros [= <- <-]. split; [done|].
  destruct d as [s|]; [|done]. simpl in *. by apply encodeURIComponent_None.
Qed.

(** Case analysis on the [addParam] of the goal: it returns or throws, and
    the world is the one it started from. *)
Ltac case_addParam :=
  match goal with
  | |- context [addParam ?n ?d ?u ?w] =>
    let H := fresh "Hw" in
    pose proof (addParam_world n d u w) as H;
    destruct (addParam n d u w) as [[?|?] ?]; simpl in H; subst
  end.

Lemma seriesURL_world cfg req w : snd (seriesURL cfg req w) = w.
Proof.
  unfold seriesURL, bind. rewrite encodeURI_run.
  destruct (encodeURIComponent (seriesId req)); [|done].
  rewrite encodeURI_run.
  destruct (encodeURIComponent (sortOrderOf req)); [|done].
  case_addParam; [|done]. apply addParam_world.
Qed.

Lemma seriesURL_ok cfg req :
  requestWellFormed req = true →
  ∃ url, ∀ w, seriesURL cfg req w = (Ret url, w).
Proof.
  unfold requestWellFormed. rewrite !andb_true_iff.
  intros [[[Hid Hso] Hs] He].
  destruct (encodeURIComponent_total _ Hid) as [eid Heid].
  destruct (encodeURIComponent_total _ Hso) as [eso Heso].
  destruct (addParam_ok (js "&observation_start=") (start_date req)
    (observationsURL ++ eid ++ js "&api_key=" ++ tmpl (FRED_API_KEY cfg)
       ++ js "&file_type=json&sort_order=" ++ eso) Hs) as [u1 Hu1].
  destruct (addParam_ok (js "&observation_end=") (end_date req) u1 He)
    as [u2 Hu2].
  exists u2. intros w. unfold seriesURL, bind.
  by rewrite !encodeURI_run, Heid, Heso, Hu1, Hu2.
Qed.

Lemma batchURL_world cfg id sd ed w : snd (batchURL cfg id sd ed w) = w.
Proof.
  unfold batchURL, bind. rewrite encodeURI_run.
  destruct (encodeURIComponent id); [|done].
  case_addParam; [|done]. apply addParam_world.
Qed.

Lemma batchURL_ok cfg id sd ed :
  isWellFormed id = true → wellFormedOpt sd = true → wellFormedOpt ed = true →
  ∃ url, ∀ w, batchURL cfg id sd ed w = (Ret url, w).
Proof.
  intros Hid Hs He.
  destruct (encodeURIComponent_total _ Hid) as [eid Heid].
  destruct (addParam_ok (js "&observation_start=") sd
    (observationsURL ++ eid ++ js "&api_key=" ++ tmpl (FRED_API_KEY cfg)
       ++ js "&file_type=json&sort_order=desc") Hs) as [u1 Hu1].
  destruct (addParam_ok (js "&observation_end=") ed u1 He) as [u2 Hu2].
  exists u2. intros w. unfold batchURL, bind.
  by rewrite !encodeURI_run, Heid, Hu1, Hu2.
Qed.

Lemma batchURL_throw cfg id sd ed w e w' :
  batchURL cfg id sd ed w = (Throw e, w') →
  e = URIError ∧ isWellFormed id && wellFormedOpt sd && wellFormedOpt ed = false.
Proof.
  unfold batchURL. unfold bind at 1. rewrite encodeURI_run.
  destruct (encodeURIComponent id) as [eid|] eqn:Hid.
  - unfold bind.
    match goal with |- context [addParam ?n ?d ?u w] =>
      destruct (addParam n d u w) as [[u1|e1] w1] eqn:H1 end.
    + intros H2. apply addParam_throw in H2 as [-> H2]. split; [done|].
      rewrite H2. by rewrite andb_false_r.
    + intros [= <- <-]. apply addParam_throw in H1 as [-> H1]. split; [done|].
      rewrite H1. by rewrite andb_false_r.
  - intros [= <- <-]. split; [done|].
    apply encodeURIComponent_None in Hid. by rewrite Hid.
Qed.

(** The same for the [batchURL] of the goal. *)
Ltac case_batchURL :=
  match goal with
  | |- context [batchURL ?cfg ?id ?sd ?ed ?w] =>
    let H := fresh "Hw" in
    pose proof (batchURL_world cfg id sd ed w) as H;
    destruct (batchURL cfg id sd ed w) as [[?|?] ?]; simpl in H; subst
  end.

(** ** Events *)

Lemma newEvents_app w w' evs : trace w' = trace w ++ evs → newEvents w w' = evs.
Proof. intros H. unfold newEvents. rewrite H. apply drop_app_length. Qed.

Lemma quiet_refl p w : quiet p w w.
Proof. exists []. by rewrite app_nil_r. Qed.

Lemma quiet_trans p w1 w2 w3 : quiet p w1 w2 → quiet p w2 w3 → quiet p w1 w3.
Proof.
  intros [e1 [H1 F1]] [e2 [H2 F2]]. exists (e1 ++ e2).
  rewrite H2, H1, <- app_assoc. split; [done|].
  rewrite forallb_app. by rewrite F1, F2.
Qed.

Lemma quiet_one (p : Event → bool) w w' e :
  trace w' = trace w ++ [e] → p e = true → quiet p w w'.
Proof. intros H1 H2. exists [e]. split; [done|]. simpl. by rewrite H2. Qed.

Lemma filter_quiet (p q : Event → bool) evs :
  forallb p evs = true → (∀ e, p e = true → q e = false) →
  List.filter q evs = [].
Proof.
  intros Hall Hpq. induction evs as [|e evs IH]; [done|].
  simpl in *. apply andb_true_iff in Hall as [He Hall].
  rewrite (Hpq e He). by apply IH.
Qed.

Lemma spawnOrFetch_not_respond e : spawnOrFetch e = true → isRespond e = false.
Proof. by destruct e. Qed.

Lemma cacheSets_filter (q : Event → bool) evs :
  (∀ ev, ev ∈ evs → ∃ key e, ev = EvCacheSet key e) →
  (∀ key e, q (EvCacheSet key e) = false) →
  List.filter q evs = [].
Proof.
  intros Hall Hq. induction evs as [|e evs IH]; [done|].
  simpl. destruct (Hall e (list_elem_of_here _ _)) as (key & e' & ->).
  rewrite Hq. apply IH. intros ev Hin. apply Hall.
  by apply list_elem_of_further.
Qed.

(** ** The single-series handler, path by path *)

Lemma fetchSeries_run env id key url w :
  tryCatch (fetchSeries env id key url)
    (fun message => respond 500 (internalError message)) w
  = (Ret tt, afterFetch env id key url w).
Proof.
  unfold tryCatch, fetchSeries, bind, startFetch, settle, afterFetch, outcomeOf.
  destruct (net env (fetches w)) as [r|e]; simpl; [|done].
  destruct (ok r); simpl.
  - destruct (json r) as [d|e]; simpl; [|done].
    unfold respond, emit; simpl. by rewrite <- !app_assoc.
  - destruct (text r) as [t|e]; simpl; [|done].
    unfold respond, emit; simpl. done.
Qed.

(** The handler on a request that passes both checks. *)
Lemma getSeries_valid cfg env req w :
  truthyStr (seriesId req) = true →
  keyMissing cfg = false →
  getSeries cfg env req w =
    match cache w !! keyOf req with
    | Some e =>
      if clock env (ticks w) - timestamp e <? CACHE_DURATION
      then (Ret tt, emit (EvRespond 200 (PJson (data e))) (tick w))
      else
        match seriesURL cfg req (tick w) with
        | (Ret url, _) =>
          (Ret tt, afterFetch env (seriesId req) (keyOf req) url (tick w))
        | (Throw e, _) => (Throw e, tick w)
        end
    | None =>
      match seriesURL cfg req w with
      | (Ret url, _) => (Ret tt, afterFetch env (seriesId req) (keyOf req) url w)
      | (Throw e, _) => (Throw e, w)
      end
    end.
Proof.
  intros Hid Hkey. unfold getSeries. rewrite Hid, Hkey. simpl.
  unfold bind at 1. unfold cacheGet. fold (keyOf req).
  destruct (cache w !! keyOf req) as [e|]; simpl.
  - unfold bind. simpl. fold (tick w).
    destruct (clock env (ticks w) - timestamp e <? CACHE_DURATION); [done|].
    pose proof (seriesURL_world cfg req (tick w)) as Hw.
    destruct (seriesURL cfg req (tick w)) as [[url|err] w1]; simpl in Hw; subst;
      [|done].
    apply fetchSeries_run.
  - unfold bind. simpl.
    pose proof (seriesURL_world cfg req w) as Hw.
    destruct (seriesURL cfg req w) as [[url|err] w1]; simpl in Hw; subst;
      [|done].
    apply fetchSeries_run.
Qed.

Lemma afterFetch_fetches env id key url w :
  fetches (afterFetch env id key url w) = S (fetches w).
Proof. unfold afterFetch. by destruct (outcomeOf (net env (fetches w))). Qed.

Lemma afterFetch_trace env id key url w :
  ∃ rest, trace (afterFetch env id key url w) = trace w ++ EvFetch url :: rest.
Proof.
  unfold afterFetch. destruct (outcomeOf (net env (fetches w))); simpl;
    [by eexists | |]; rewrite <- app_assoc; by eexists.
Qed.

Lemma afterFetch_cache env id key url w :
  match outcomeOf (net env (fetches w)) with
  | Success d =>
    cache (afterFetch env id key url w)
    = <[key := {| data := d; timestamp := clock env (ticks w) |}]> (cache w)
  | _ => cache (afterFetch env id key url w) = cache w
  end.
Proof. unfold afterFetch. by destruct (outcomeOf (net env (fetches w))). Qed.

(** The single-series handler changes the cache only by storing the payload
    of a successful fetch under the key of the request. *)
Lemma getSeries_cache cfg env req w :
  cache (snd (getSeries cfg env req w)) = cache w
  ∨ ∃ d t, outcomeOf (net env (fetches w)) = Success d
           ∧ cache (snd (getSeries cfg env req w))
             = <[keyOf req := {| data := d; timestamp := t |}]> (cache w).
Proof.
  destruct (truthyStr (seriesId req)) eqn:Hid;
    [|unfold getSeries; rewrite Hid; by left].
  destruct (keyMissing cfg) eqn:Hkey;
    [unfold getSeries; rewrite Hid, Hkey; by left|].
  rewrite getSeries_valid by done.
  assert (Hgen : ∀ w0, cache w0 = cache w → fetches w0 = fetches w →
    let res := match seriesURL cfg req w0 with
               | (Ret url, _) =>
                 (Ret tt, afterFetch env (seriesId req) (keyOf req) url w0)
               | (Throw e, _) => (Throw e, w0)
               end in
    cache (snd res) = cache w
    ∨ ∃ d t, outcomeOf (net env (fetches w)) = Success d
             ∧ cache (snd res)
               = <[keyOf req := {| data := d; timestamp := t |}]> (cache w)).
  { intros w0 Hc Hf. simpl.
    destruct (seriesURL cfg req w0) as [[url|err] w1]; simpl; [|by left].
    pose proof (afterFetch_cache env (seriesId req) (keyOf req) url w0) as Ha.
    rewrite Hf in Ha.
    destruct (outcomeOf (net env (fetches w))) as [d| |];
      [right; exists d; eexists; split; [done|]; by rewrite Ha, Hc
      |left; by rewrite Ha|left; by rewrite Ha]. }
  destruct (cache w !! keyOf req) as [e|].
  - destruct (clock env (ticks w) - timestamp e <? CACHE_DURATION);
      [by left|]. by apply Hgen.
  - by apply Hgen.
Qed.

Lemma getSeries_cacheSets cfg env req w key e :
  EvCacheSet key e ∈ newEvents w (snd (getSeries cfg env req w)) →
  key = keyOf req ∧ outcomeOf (net env (fetches w)) = Success (data e).
Proof.
  assert (Hnone : ∀ w' evs,
    trace w' = trace w ++ evs → List.filter isCacheSet evs = [] →
    EvCacheSet key e ∈ newEvents w w' →
    key = keyOf req ∧ outcomeOf (net env (fetches w)) = Success (data e)).
  { intros w' evs Ht Hf Hin. rewrite (newEvents_app _ _ _ Ht) in Hin.
    apply list_elem_of_In in Hin.
    assert (Hin' : In (EvCacheSet key e) (List.filter isCacheSet evs))
      by (apply List.filter_In; by split).
    by rewrite Hf in Hin'. }
  assert (Hfetch : ∀ w0 url,
    trace w0 = trace w → fetches w0 = fetches w →
    EvCacheSet key e
      ∈ newEvents w (afterFetch env (seriesId req) (keyOf req) url w0) →
    key = keyOf req ∧ outcomeOf (net env (fetches w)) = Success (data e)).
  { intros w0 url Htr Hfe. unfold afterFetch. rewrite Hfe.
    destruct (outcomeOf (net env (fetches w))) as [d| |] eqn:Ho.
    - erewrite newEvents_app by (simpl; by rewrite Htr).
      intros Hin. apply elem_of_cons in Hin as [Hin|Hin]; [done|].
      apply elem_of_cons in Hin as [Hin|Hin]; [by injection Hin as -> ->|].
      apply elem_of_cons in Hin as [Hin|Hin]; [done|].
      by apply elem_of_nil in Hin.
    - eapply Hnone;
        [simpl; rewrite Htr, <- app_assoc; reflexivity|done].
    - eapply Hnone;
        [simpl; rewrite Htr, <- app_assoc; reflexivity|done]. }
  destruct (truthyStr (seriesId req)) eqn:Hid.
  2: { unfold getSeries. rewrite Hid. simpl.
       eapply Hnone; [simpl; reflexivity|done]. }
  destruct (keyMissing cfg) eqn:Hkey.
  1: { unfold getSeries. rewrite Hid, Hkey. simpl.
       eapply Hnone; [simpl; reflexivity|done]. }
  rewrite getSeries_valid by done.
  destruct (cache w !! keyOf req) as [e0|].
  - destruct (clock env (ticks w) - timestamp e0 <? CACHE_DURATION).
    + simpl. eapply Hnone; [simpl; reflexivity|done].
    + destruct (seriesURL cfg req (tick w)) as [[url|err] w1]; simpl.
      * by apply Hfetch.
      * apply (Hnone _ []); [by rewrite app_nil_r|done].
  - destruct (seriesURL cfg req w) as [[url|err] w1]; simpl.
    + by apply Hfetch.
    + apply (Hnone _ []); [by rewrite app_nil_r|done].
Qed.

(** ** Claims on the cache key and on the single-series handler *)

(** C4. The cache-key function is deterministic: equal arguments give equal
    keys. An absent ([undefined]) start or end date is rendered as the
    sentinel ["none"], and a date that is omitted at the call site gives
    the same key as a date passed as [undefined]. *)
Theorem getCacheKey_deterministic_none_sentinel :
  (∀ id id' s s' e e',
     id = id' → s = s' → e = e' → getCacheKey id s e = getCacheKey id' s' e')
  ∧ (∀ id e,
       getCacheKey id None e = id ++ js "-" ++ js "none" ++ js "-" ++ orElse e (js "none"))
  ∧ (∀ id s,
       getCacheKey id s None = id ++ js "-" ++ orElse s (js "none") ++ js "-" ++ js "none")
  ∧ (∀ id, getCacheKey_call id [] = getCacheKey_call id [None; None])
  ∧ (∀ id s, getCacheKey_call id [s] = getCacheKey_call id [s; None]).
Proof.
  repeat split.
  intros id id' s s' e e' -> -> ->. reflexivity.
Qed.

Lemma getCacheKey_deterministic_none_sentinel_witness :
  getCacheKey (js "GDP") (Some (js "2020-01-01")) None
  = getCacheKey (js "GDP") (Some (js "2020-01-01")) None.
Proof.
  apply (proj1 getCacheKey_deterministic_none_sentinel); reflexivity.
Defined.

(** C1. When an entry [e] was stored under the key of a request at time
    [timestamp e], a single-series lookup at time [timestamp e + delta]
    with [delta] below five minutes answers 200 with exactly the payload of
    [e], makes no upstream call and leaves the store as it is. With [delta]
    at or above five minutes the lookup is a miss: the handler goes on to
    fetch, and the lookup has not removed the entry, which stays in the
    store until a successful fetch overwrites it. *)
Theorem cache_lookup_ttl cfg env req w e delta :
  truthyStr (seriesId req) = true →
  keyMissing cfg = false →
  cache w !! keyOf req = Some e →
  clock env (ticks w) = timestamp e + delta →
  ∃ r w', getSeries cfg env req w = (r, w')
    ∧ (delta < 5 * 60 * 1000 →
         r = Ret tt
         ∧ trace w' = trace w ++ [EvRespond 200 (PJson (data e))]
         ∧ fetches w' = fetches w
         ∧ cache w' = cache w)
    ∧ (5 * 60 * 1000 <= delta →
         (requestWellFormed req = true →
            r = Ret tt
            ∧ fetches w' = S (fetches w)
            ∧ ∃ url rest, trace w' = trace w ++ EvFetch url :: rest)
         ∧ is_Some (cache w' !! keyOf req)
         ∧ (isSuccess (outcomeOf (net env (fetches w))) = false →
              cache w' !! keyOf req = Some e)).
Proof.
  intros Hid Hkey Hlook Hclock.
  rewrite getSeries_valid, Hlook, Hclock by done.
  replace (timestamp e + delta - timestamp e) with delta by lia.
  change CACHE_DURATION with (5 * 60 * 1000).
  destruct (delta <? 5 * 60 * 1000) eqn:Hd.
  - apply Z.ltb_lt in Hd. do 2 eexists. split; [done|].
    split; [done|]. lia.
  - apply Z.ltb_ge in Hd.
    destruct (requestWellFormed req) eqn:Hwf.
    + destruct (seriesURL_ok cfg req Hwf) as [url Hurl]. rewrite Hurl.
      do 2 eexists. split; [done|]. split; [lia|]. intros _.
      pose proof (afterFetch_cache env (seriesId req) (keyOf req) url (tick w))
        as Hc. simpl in Hc.
      split; [intros _; split; [done|split]|split].
      * by rewrite afterFetch_fetches.
      * destruct (afterFetch_trace env (seriesId req) (keyOf req) url (tick w))
          as [rest Hrest]. by exists url, rest.
      * destruct (outcomeOf (net env (fetches w))); rewrite Hc;
          [by rewrite lookup_insert_eq| |]; by rewrite Hlook.
      * intros Hs.
        destruct (outcomeOf (net env (fetches w))); [done| |];
          by rewrite Hc.
    + pose proof (seriesURL_world cfg req (tick w)) as Hw.
      destruct (seriesURL cfg req (tick w)) as [[url|err] w1] eqn:Hurl;
        simpl in Hw; subst w1.
      * do 2 eexists. split; [done|]. split; [lia|]. intros _.
        pose proof (afterFetch_cache env (seriesId req) (keyOf req) url (tick w))
          as Hc. simpl in Hc.
        split; [done|]. split.
        -- destruct (outcomeOf (net env (fetches w))); rewrite Hc;
             [by rewrite lookup_insert_eq| |]; by rewrite Hlook.
        -- intros Hs.
           destruct (outcomeOf (net env (fetches w))); [done| |];
             by rewrite Hc.
      * do 2 eexists. split; [done|]. split; [lia|]. intros _.
        split; [done|]. simpl. rewrite Hlook. by split.
Qed.

Lemma cache_lookup_ttl_witness :
  ∃ r w',
    getSeries demoConfig demoEnv (seriesOf "GDP" None) warmWorld = (r, w')
    ∧ (1 < 5 * 60 * 1000 →
         r = Ret tt
         ∧ trace w' = trace warmWorld ++ [EvRespond 200 (PJson (JNum 1))]
         ∧ fetches w' = fetches warmWorld
         ∧ cache w' = cache warmWorld).
Proof.
  destruct (cache_lookup_ttl demoConfig demoEnv (seriesOf "GDP" None) warmWorld
              {| data := JNum 1; timestamp := 1000 |} 1
              eq_refl eq_refl eq_refl eq_refl) as (r & w' & Hrun & Hhit & _).
  by exists r, w'.
Defined.

(** C5, as stated, fails when the body of the upstream error cannot be
    read: [response.text()] rejects inside the [try], and the [catch]
    answers 500 with the message of the rejection, not with the upstream
    status 503. *)
Lemma upstream_error_passthrough_counterexample :
  net brokenEnv 0 = Settled unreadable
  ∧ status unreadable = 503
  ∧ ok unreadable = false
  ∧ getSeries demoConfig brokenEnv (seriesOf "GDP" None) emptyWorld
    = (Ret tt,
       {| cache := ∅; ticks := 0; fetches := 1;
          trace := [EvFetch
                      (observationsURL
                         ++ js "GDP&api_key=KEY&file_type=json&sort_order=desc");
                    EvRespond 500 (internalError (js "terminated"))] |}).
Proof. repeat split. Qed.

(** C5, amended. When the upstream call of a single-series request comes
    back with a status outside 200..299 and a body that can be read as
    text, the response of the handler carries that status unchanged, and
    its [details] field is the upstream body parsed as JSON when
    [JSON.parse] succeeds and the raw body text when it throws. *)
Theorem upstream_error_passthrough cfg env req w r errorText :
  truthyStr (seriesId req) = true →
  keyMissing cfg = false →
  requestWellFormed req = true →
  isFresh (cache w !! keyOf req) (clock env (ticks w)) = false →
  net env (fetches w) = Settled r →
  ok r = false →
  text r = ReadOk errorText →
  ∃ w' url,
    getSeries cfg env req w = (Ret tt, w')
    ∧ trace w' = trace w ++
        [EvFetch url;
         EvRespond (status r)
           (PJson (JObj
              [(js "error",
                JStr (js "Failed to fetch data from FRED for series "
                        ++ seriesId req));
               (js "details",
                match JSON_parse env errorText with
                | Some parsed => parsed
                | None => JStr errorText
                end)]))]
    ∧ cache w' = cache w.
Proof.
  intros Hid Hkey Hwf Hfresh Hnet Hok Htext.
  destruct (seriesURL_ok cfg req Hwf) as [url Hurl].
  assert (Hout : outcomeOf (net env (fetches w))
                 = UpstreamError (status r) errorText).
  { by rewrite Hnet; simpl; rewrite Hok, Htext. }
  rewrite getSeries_valid by done. unfold isFresh in Hfresh.
  destruct (cache w !! keyOf req) as [e|]; [rewrite Hfresh|]; rewrite Hurl;
    eexists; exists url; (split; [done|]);
    unfold afterFetch; simpl; rewrite Hout; simpl;
    rewrite <- app_assoc; simpl; by split.
Qed.

Lemma upstream_error_passthrough_witness :
  ∃ w' url,
    getSeries demoConfig demoEnv (seriesOf "GDP" None) laterWorld = (Ret tt, w')
    ∧ trace w' = trace laterWorld ++
        [EvFetch url;
         EvRespond 404
           (PJson (JObj
              [(js "error",
                JStr (js "Failed to fetch data from FRED for series "
                        ++ js "GDP"));
               (js "details", JStr (js "Not Found"))]))]
    ∧ cache w' = cache laterWorld.
Proof.
  apply (upstream_error_passthrough demoConfig demoEnv (seriesOf "GDP" None)
           laterWorld notFound (js "Not Found")); reflexivity.
Defined.

(** Whatever the status, an upstream error whose body cannot be read is
    answered as a transport error: 500 with the message of the failed
    read. *)
Lemma upstream_error_unreadable_body cfg env req w r message :
  truthyStr (seriesId req) = true →
  keyMissing cfg = false →
  requestWellFormed req = true →
  isFresh (cache w !! keyOf req) (clock env (ticks w)) = false →
  net env (fetches w) = Settled r →
  ok r = false →
  text r = ReadFail message →
  ∃ w' url,
    getSeries cfg env req w = (Ret tt, w')
    ∧ trace w' = trace w ++ [EvFetch url; EvRespond 500 (internalError message)]
    ∧ cache w' = cache w.
Proof.
  intros Hid Hkey Hwf Hfresh Hnet Hok Htext.
  destruct (seriesURL_ok cfg req Hwf) as [url Hurl].
  assert (Hout : outcomeOf (net env (fetches w)) = TransportError message).
  { by rewrite Hnet; simpl; rewrite Hok, Htext. }
  rewrite getSeries_valid by done. unfold isFresh in Hfresh.
  destruct (cache w !! keyOf req) as [e|]; [rewrite Hfresh|]; rewrite Hurl;
    eexists; exists url; (split; [done|]);
    unfold afterFetch; simpl; rewrite Hout; simpl;
    rewrite <- app_assoc; simpl; by split.
Qed.

(** C8. The cache key is computed from the identifier and the two dates
    only. Two single-series requests that differ at most in [sort_order]
    have the same key; once the first has fetched and stored a payload, the
    second, arriving while the entry is fresh, is answered with that payload
    and without any upstream call, whatever its sort order. *)
Theorem sort_order_not_in_cache_key cfg env req1 req2 w d :
  seriesId req1 = seriesId req2 →
  start_date req1 = start_date req2 →
  end_date req1 = end_date req2 →
  truthyStr (seriesId req1) = true →
  keyMissing cfg = false →
  requestWellFormed req1 = true →
  isFresh (cache w !! keyOf req1) (clock env (ticks w)) = false →
  outcomeOf (net env (fetches w)) = Success d →
  keyOf req1 = keyOf req2
  ∧ ∃ w1 t,
      getSeries cfg env req1 w = (Ret tt, w1)
      ∧ cache w1 !! keyOf req2 = Some {| data := d; timestamp := t |}
      ∧ (clock env (ticks w1) - t < CACHE_DURATION →
           ∃ w2, getSeries cfg env req2 w1 = (Ret tt, w2)
                 ∧ trace w2 = trace w1 ++ [EvRespond 200 (PJson d)]
                 ∧ fetches w2 = fetches w1
                 ∧ cache w2 = cache w1).
Proof.
  intros Hsid Hsd Hed Hid Hkey Hwf Hfresh Hout.
  assert (Hk : keyOf req1 = keyOf req2).
  { unfold keyOf. by rewrite Hsid, Hsd, Hed. }
  split; [done|].
  destruct (seriesURL_ok cfg req1 Hwf) as [url Hurl].
  assert (Hsecond : ∀ w1 t,
    cache w1 !! keyOf req2 = Some {| data := d; timestamp := t |} →
    clock env (ticks w1) - t < CACHE_DURATION →
    ∃ w2, getSeries cfg env req2 w1 = (Ret tt, w2)
          ∧ trace w2 = trace w1 ++ [EvRespond 200 (PJson d)]
          ∧ fetches w2 = fetches w1 ∧ cache w2 = cache w1).
  { intros w1 t Hl Hlt. rewrite getSeries_valid by (by rewrite <- ?Hsid).
    rewrite Hl. simpl. apply Z.ltb_lt in Hlt. rewrite Hlt. by eexists. }
  rewrite getSeries_valid by done. unfold isFresh in Hfresh.
  destruct (cache w !! keyOf req1) as [e|]; [rewrite Hfresh|]; rewrite Hurl.
  - pose proof (afterFetch_cache env (seriesId req1) (keyOf req1) url (tick w))
      as Hc. simpl in Hc. rewrite Hout in Hc.
    eexists. exists (clock env (S (ticks w))). split; [done|].
    assert (Hl : cache (afterFetch env (seriesId req1) (keyOf req1) url (tick w))
                   !! keyOf req2
                 = Some {| data := d; timestamp := clock env (S (ticks w)) |}).
    { by rewrite Hc, <- Hk, lookup_insert_eq. }
    split; [done|]. by apply Hsecond.
  - pose proof (afterFetch_cache env (seriesId req1) (keyOf req1) url w) as Hc.
    rewrite Hout in Hc.
    eexists. exists (clock env (ticks w)). split; [done|].
    assert (Hl : cache (afterFetch env (seriesId req1) (keyOf req1) url w)
                   !! keyOf req2
                 = Some {| data := d; timestamp := clock env (ticks w) |}).
    { by rewrite Hc, <- Hk, lookup_insert_eq. }
    split; [done|]. by apply Hsecond.
Qed.

Lemma sort_order_not_in_cache_key_witness :
  keyOf (seriesOf "GDP" (Some (js "asc"))) = keyOf (seriesOf "GDP" None)
  ∧ ∃ w1 t,
      getSeries demoConfig demoEnv (seriesOf "GDP" (Some (js "asc"))) emptyWorld
      = (Ret tt, w1)
      ∧ cache w1 !! keyOf (seriesOf "GDP" None)
        = Some {| data := JNum 1; timestamp := t |}
      ∧ (clock demoEnv (ticks w1) - t < CACHE_DURATION →
           ∃ w2, getSeries demoConfig demoEnv (seriesOf "GDP" None) w1
                 = (Ret tt, w2)
                 ∧ trace w2 = trace w1 ++ [EvRespond 200 (PJson (JNum 1))]
                 ∧ fetches w2 = fetches w1
                 ∧ cache w2 = cache w1).
Proof.
  apply (sort_order_not_in_cache_key demoConfig demoEnv
           (seriesOf "GDP" (Some (js "asc"))) (seriesOf "GDP" None)
           emptyWorld (JNum 1)); reflexivity.
Defined.

(** ** The batch handler: the [results] object *)

Lemma setResult_lookup r key v id :
  id ≠ protoKey →
  own (setResult r key v) !! id
  = if decide (key = id) then Some v else own r !! id.
Proof.
  intros Hid. unfold setResult.
  destruct (bool_decide (key = protoKey) && bool_decide (own r !! key = None)
            && setterFound (proto r)) eqn:Hb.
  - apply andb_true_iff in Hb as [Hb _]. apply andb_true_iff in Hb as [Hb _].
    apply bool_decide_eq_true in Hb. subst key.
    destruct (decide (protoKey = id)); [congruence|].
    by destruct v.
  - simpl. apply lookup_insert.
Qed.

Lemma setResult_mono r key v id :
  is_Some (own r !! id) → is_Some (own (setResult r key v) !! id).
Proof.
  intros Hs. unfold setResult.
  destruct (bool_decide (key = protoKey) && bool_decide (own r !! key = None)
            && setterFound (proto r)).
  - by destruct v.
  - simpl. rewrite lookup_insert. by destruct (decide (key = id)).
Qed.

(** Assigning to ["__proto__"] on the fresh object creates no property. *)
Lemma setResult_proto_empty v : own (setResult emptyResults protoKey v) = ∅.
Proof. by destruct v. Qed.

(** ** The batch handler: one task *)

Lemma taskFinish_run env id key call results w :
  taskFinish env id key call results w
  = (Ret (setResult results id (entryOf id (outcomeOf (net env call)))),
     afterTask env key call w).
Proof.
  unfold taskFinish, tryCatch, bind, settle, afterTask, outcomeOf.
  destruct (net env call) as [r|e]; simpl; [|done].
  destruct (ok r); simpl.
  - by destruct (json r) as [d|e].
  - by destruct (text r) as [t|e].
Qed.

Lemma taskStart_string cfg env sd ed results s w :
  taskStart cfg env sd ed results (JStr s) w =
    let id := trim s in
    let key := getCacheKey id sd ed in
    let w0 := emit (EvSpawn (JStr s)) w in
    if truthyStr id then
      match cache w !! key with
      | Some e =>
        if clock env (ticks w) - timestamp e <? CACHE_DURATION
        then ((TaskDone, setResult results id (data e)), tick w0)
        else launch cfg id key sd ed results (tick w0)
      | None => launch cfg id key sd ed results w0
      end
    else ((TaskDone, results), w0).
Proof.
  unfold taskStart, taskBody. simpl.
  unfold bind at 1. simpl. unfold bind at 1. simpl.
  destruct (truthyStr (trim s)); simpl; [|done].
  unfold bind at 1. simpl.
  destruct (cache w !! getCacheKey (trim s) sd ed) as [e|]; simpl.
  - unfold bind at 1. simpl. unfold bind at 1. simpl.
    destruct (clock env (ticks w) - timestamp e <? CACHE_DURATION); [done|].
    unfold launch, bind, tick, emit; simpl. by case_batchURL.
  - unfold bind at 1. simpl.
    unfold launch, bind, emit; simpl. by case_batchURL.
Qed.

Lemma taskStart_non_string cfg env sd ed results elem w :
  isString elem = false →
  taskStart cfg env sd ed results elem w
  = ((TaskFailed (trimTypeError elem), results), emit (EvSpawn elem) w).
Proof. intros Hs. by destruct elem. Qed.

Lemma taskStart_cases cfg env sd ed results elem w :
  StartCase cfg env sd ed results elem w
    (taskStart cfg env sd ed results elem w).
Proof.
  destruct (isString elem) eqn:Hs.
  2: { rewrite taskStart_non_string by done. by constructor. }
  destruct elem as [| | |s| |]; try done.
  rewrite taskStart_string. simpl.
  destruct (truthyStr (trim s)) eqn:Ht.
  2: { apply (StartBlank _ _ _ _ _ _ _ s); [done|]. by destruct (trim s). }
  assert (Hne : trim s ≠ []) by (by destruct (trim s)).
  assert (Hlaunch : ∀ w1,
    isFresh (cache w !! getCacheKey (trim s) sd ed) (clock env (ticks w)) = false →
    w1 = emit (EvSpawn (JStr s)) w ∨ w1 = tick (emit (EvSpawn (JStr s)) w) →
    fetches w1 = fetches w →
    StartCase cfg env sd ed results (JStr s) w
      (launch cfg (trim s) (getCacheKey (trim s) sd ed) sd ed results w1)).
  { intros w1 Hf Hw1 Hfe. unfold launch.
    destruct (batchURL cfg (trim s) sd ed w1) as [[url|err] w2] eqn:Hu.
    - rewrite Hfe. by apply (StartLaunch _ _ _ _ _ _ _ s url w1).
    - apply batchURL_throw in Hu as [-> Hu].
      by apply (StartURIError _ _ _ _ _ _ _ s w1). }
  destruct (cache w !! getCacheKey (trim s) sd ed) as [e|] eqn:Hl.
  - destruct (clock env (ticks w) - timestamp e <? CACHE_DURATION) eqn:Hf.
    + by apply (StartHit _ _ _ _ _ _ _ s e).
    + apply Hlaunch; [done|by right|by destruct Hl].
  - apply Hlaunch; [done|by left|done].
Qed.

(** ** The batch handler: the fan-out *)

Section FanOut.

Context (cfg : Config) (env : Env) (sd ed : option jsstring).

Local Abbreviation StartCase := (StartCase cfg env sd ed).
Local Abbreviation Spawned := (Spawned cfg env sd ed).

(** [spawnAll] runs the first segments one after the other. *)
Lemma spawnAll_Spawned elems :
  ∀ results w tasks results' w',
    spawnAll cfg env sd ed elems results w = ((tasks, results'), w') →
    Spawned elems results w tasks results' w'.
Proof.
  induction elems as [|elem rest IH]; intros results w tasks results' w' Hrun;
    simpl in Hrun.
  - injection Hrun as <- <- <-. constructor.
  - pose proof (taskStart_cases cfg env sd ed results elem w) as Hstart.
    destruct (taskStart cfg env sd ed results elem w) as [[t r1] w1].
    destruct (spawnAll cfg env sd ed rest r1 w1) as [[ts r2] w2] eqn:Hrest.
    injection Hrun as <- <- <-. econstructor; [done|by apply IH].
Qed.

(** The first segment of a task leaves the cache alone and emits nothing
    but its spawn and, possibly, its call. *)
Lemma StartCase_frame results elem w t results1 w1 :
  StartCase results elem w ((t, results1), w1) →
  cache w1 = cache w ∧ (fetches w <= fetches w1)%nat ∧ quiet spawnOrFetch w w1.
Proof.
  assert (H0 : quiet spawnOrFetch w (emit (EvSpawn elem) w))
    by (by apply (quiet_one _ _ _ (EvSpawn elem))).
  inversion 1 as [Hs|s Hs Hb|s e Hs Hne Hl Hf|s url w0 Hs Hne Hf Hw0
                  |s w0 Hs Hne Hwf Hw0]; subst;
    try (split; [done|split; [simpl; lia|done]]).
  - destruct Hw0 as [-> | ->]; simpl; (split; [done|split; [lia|]]);
      (eapply quiet_trans; [apply H0|]);
      by apply (quiet_one _ _ _ (EvFetch url)).
  - by destruct Hw0 as [-> | ->]; simpl; (split; [done|split; [lia|]]).
Qed.

Lemma Spawned_frame elems results w tasks results' w' :
  Spawned elems results w tasks results' w' →
  cache w' = cache w ∧ (fetches w <= fetches w')%nat ∧ quiet spawnOrFetch w w'.
Proof.
  induction 1 as [results w|elem rest results w t r1 w1 ts r2 w2 Hstart _ IH].
  - split; [done|]. split; [lia|apply quiet_refl].
  - destruct (StartCase_frame _ _ _ _ _ _ Hstart) as (Hc1 & Hf1 & Hq1).
    destruct IH as (Hc2 & Hf2 & Hq2).
    split; [congruence|]. split; [lia|]. by eapply quiet_trans.
Qed.

(** Every pending task stems from a non-blank string element, has the key
    of its identifier and owns one call of this batch. *)
Lemma Spawned_pending elems results w tasks results' w' id key n :
  Spawned elems results w tasks results' w' →
  TaskPending id key n ∈ tasks →
  id ≠ [] ∧ key = getCacheKey id sd ed
  ∧ (fetches w <= n < fetches w')%nat
  ∧ ∃ s, JStr s ∈ elems ∧ trim s = id.
Proof.
  induction 1 as [results w|elem rest results w t r1 w1 ts r2 w2 Hstart Hrest IH];
    intros Hin; [by apply elem_of_nil in Hin|].
  destruct (StartCase_frame _ _ _ _ _ _ Hstart) as (_ & Hf1 & _).
  destruct (Spawned_frame _ _ _ _ _ _ Hrest) as (_ & Hf2 & _).
  apply elem_of_cons in Hin as [Heq|Hin].
  - subst t. inversion Hstart as [| | |s url w0 Hs Hne Hf Hw0|]; subst.
    split; [done|]. split; [done|]. split.
    + assert (fetches (launched url w0) = S (fetches w))
        by (by destruct Hw0; subst).
      lia.
    + exists s. split; [apply list_elem_of_here|done].
  - destruct (IH Hin) as (H1 & H2 & H3 & s & Hs & Ht).
    split; [done|]. split; [done|]. split; [lia|].
    exists s. split; [by apply list_elem_of_further|done].
Qed.

(** An entry written during the fan-out is the payload of a cache hit of a
    task with that identifier. *)
Lemma Spawned_results elems results w tasks results' w' id v :
  Spawned elems results w tasks results' w' →
  id ≠ protoKey →
  own results' !! id = Some v →
  own results !! id = Some v
  ∨ ∃ s e, JStr s ∈ elems ∧ trim s = id ∧ id ≠ []
           ∧ cache w !! getCacheKey id sd ed = Some e ∧ v = data e.
Proof.
  induction 1 as [results w|elem rest results w t r1 w1 ts r2 w2 Hstart _ IH];
    intros Hid Hl; [by left|].
  destruct (StartCase_frame _ _ _ _ _ _ Hstart) as (Hc1 & _ & _).
  destruct (IH Hid Hl) as [Hr1|(s & e & Hs & Ht & Hne & Hce & Hv)].
  - inversion Hstart as [| |s e Hs Hne Hce Hf| |]; subst; try by left.
    rewrite setResult_lookup in Hr1 by done.
    destruct (decide (trim s = id)) as [Heq|]; [|by left].
    right. exists s, e. injection Hr1 as <-. subst id.
    split; [apply list_elem_of_here|done].
  - right. exists s, e. rewrite <- Hc1.
    split; [by apply list_elem_of_further|done].
Qed.

Lemma Spawned_mono elems results w tasks results' w' id :
  Spawned elems results w tasks results' w' →
  is_Some (own results !! id) → is_Some (own results' !! id).
Proof.
  induction 1 as [results w|elem rest results w t r1 w1 ts r2 w2 Hstart _ IH];
    intros Hs; [done|].
  apply IH. inversion Hstart; subst; try done. by apply setResult_mono.
Qed.

(** No task throws when every element is a string that can go into a URL. *)
Lemma Spawned_no_failure elems results w tasks results' w' :
  Spawned elems results w tasks results' w' →
  forallb (encodable sd ed) elems = true →
  firstFailure tasks = None.
Proof.
  induction 1 as [results w|elem rest results w t r1 w1 ts r2 w2 Hstart _ IH];
    intros Henc; [done|].
  simpl in Henc. apply andb_true_iff in Henc as [He Hrest].
  specialize (IH Hrest).
  inversion Hstart; subst; simpl; try done.
  - by destruct elem.
  - simpl in He. congruence.
Qed.

(** Every non-blank string element ends the fan-out with an entry for its
    identifier or with a pending task for it, unless a task threw. *)
Lemma Spawned_complete elems results w tasks results' w' s :
  Spawned elems results w tasks results' w' →
  forallb (encodable sd ed) elems = true →
  JStr s ∈ elems → trim s ≠ [] → trim s ≠ protoKey →
  is_Some (own results' !! trim s) ∨ ∃ key n, TaskPending (trim s) key n ∈ tasks.
Proof.
  induction 1 as [results w|elem rest results w t r1 w1 ts r2 w2 Hstart Hrest IH];
    intros Henc Hin Hne Hnp; [by apply elem_of_nil in Hin|].
  simpl in Henc. apply andb_true_iff in Henc as [He Henc].
  apply elem_of_cons in Hin as [<-|Hin].
  - inversion Hstart as [Hs|s' Hs Hb|s' e Hs _ Hce Hf|s' url w0 Hs _ Hf Hw0
                         |s' w0 Hs _ Hwf Hw0]; subst; try done.
    + injection Hs as <-. congruence.
    + injection Hs as <-. left. apply (Spawned_mono _ _ _ _ _ _ _ Hrest).
      rewrite setResult_lookup by done. by rewrite decide_True.
    + injection Hs as <-. right. do 2 eexists. apply list_elem_of_here.
    + injection Hs as <-. simpl in He. congruence.
  - destruct (IH Henc Hin Hne Hnp) as [Hl|(key & n & Hp)]; [by left|].
    right. exists key, n. by apply list_elem_of_further.
Qed.

(** An element that is not a string makes [Promise.all] reject. *)
Lemma Spawned_non_string elems results w tasks results' w' x :
  Spawned elems results w tasks results' w' →
  x ∈ elems → isString x = false →
  is_Some (firstFailure tasks).
Proof.
  induction 1 as [results w|elem rest results w t r1 w1 ts r2 w2 Hstart _ IH];
    intros Hin Hx; [by apply elem_of_nil in Hin|].
  apply elem_of_cons in Hin as [<-|Hin].
  - inversion Hstart; subst; done.
  - destruct t; try by apply IH. done.
Qed.

(** A task throws for two reasons only: its element is not a string, or a
    string that goes into its URL has a lone surrogate. *)
Lemma Spawned_failure_reason elems results w tasks results' w' message :
  Spawned elems results w tasks results' w' →
  firstFailure tasks = Some message →
  (∃ x, x ∈ elems ∧ isString x = false ∧ message = trimTypeError x)
  ∨ (message = URIError ∧ ∃ x, x ∈ elems ∧ encodable sd ed x = false).
Proof.
  induction 1 as [results w|elem rest results w t r1 w1 ts r2 w2 Hstart _ IH];
    [done|].
  assert (Hrest : firstFailure ts = Some message →
    (∃ x, x ∈ elem :: rest ∧ isString x = false ∧ message = trimTypeError x)
    ∨ (message = URIError
       ∧ ∃ x, x ∈ elem :: rest ∧ encodable sd ed x = false)).
  { intros Hff. destruct (IH Hff) as [(x & Hin & Hx)|(Hm & x & Hin & Hx)].
    - left. exists x. split; [by apply list_elem_of_further|done].
    - right. split; [done|]. exists x.
      split; [by apply list_elem_of_further|done]. }
  inversion Hstart as [Hs| | | |s w0 Hs Hne Hwf Hw0]; subst; simpl; try done.
  - intros [= <-]. left. exists elem. split; [apply list_elem_of_here|done].
  - intros [= <-]. right. split; [done|]. exists (JStr s).
    split; [apply list_elem_of_here|done].
Qed.

End FanOut.

(** The fan-out does not look at the upstream service. *)
Lemma spawnAll_withNet cfg env net' sd ed elems :
  ∀ results w,
    spawnAll cfg (withNet env net') sd ed elems results w
    = spawnAll cfg env sd ed elems results w.
Proof.
  induction elems as [|elem rest IH]; intros results w; simpl; [done|].
  change (taskStart cfg (withNet env net') sd ed results elem w)
    with (taskStart cfg env sd ed results elem w).
  destruct (taskStart cfg env sd ed results elem w) as [[t r1] w1].
  by rewrite IH.
Qed.

Lemma encodable_printable sd ed elems :
  forallb (encodable sd ed) elems = true → forallb printable elems = true.
Proof.
  induction elems as [|x l IH]; [done|]. simpl.
  rewrite !andb_true_iff. intros [Hx Hl]. split; [by destruct x|by apply IH].
Qed.

(** ** The batch handler: the pending tasks *)

Lemma finishTask_run env t results w :
  finishTask env t results w = (Ret (writeOf env results t), afterFinish env w t).
Proof. destruct t; try done. apply taskFinish_run. Qed.

Lemma drain_schedule env n :
  ∀ step pending results w,
    drain env n step pending results w
    = (Ret (foldl (writeOf env) results (schedule (pick env) n step pending)),
       foldl (afterFinish env) w (schedule (pick env) n step pending)).
Proof.
  induction n as [|n IH]; intros step pending results w; simpl; [done|].
  destruct (pending !! (pick env step mod length pending)%nat) as [t|]; [|done].
  unfold bind. rewrite finishTask_run. apply IH.
Qed.

(** Every pending task resumes, once. *)
Lemma schedule_Permutation pick n :
  ∀ step pending, length pending = n → schedule pick n step pending ≡ₚ pending.
Proof.
  induction n as [|n IH]; intros step pending Hlen; simpl.
  - by destruct pending.
  - assert (Hi : (pick step mod length pending < length pending)%nat).
    { apply Nat.mod_upper_bound. lia. }
    destruct (lookup_lt_is_Some_2 pending _ Hi) as [t Ht]. rewrite Ht.
    etrans; [|symmetry; apply (delete_Permutation pending _ t Ht)].
    constructor. apply IH. rewrite length_delete by eauto. lia.
Qed.

Lemma drainAll_run env tasks results w :
  drainAll env tasks results w
  = (Ret (foldl (writeOf env) results (orderOf env tasks)),
     foldl (afterFinish env) w (orderOf env tasks)).
Proof. unfold drainAll. apply drain_schedule. Qed.

Lemma orderOf_elem env tasks t :
  t ∈ orderOf env tasks ↔ t ∈ tasks ∧ isPending t = true.
Proof.
  unfold orderOf.
  rewrite (schedule_Permutation (pick env) _ 0 (pendingOf tasks) eq_refl).
  unfold pendingOf. rewrite list_elem_of_filter. tauto.
Qed.

Lemma orderOf_pending env tasks id key n :
  TaskPending id key n ∈ orderOf env tasks ↔ TaskPending id key n ∈ tasks.
Proof. rewrite orderOf_elem. simpl. tauto. Qed.

(** An entry written by the continuations is the entry of a task with that
    identifier, computed from the outcome of that task's own call. *)
Lemma writes_sound env order :
  ∀ results id v,
    id ≠ protoKey →
    own (foldl (writeOf env) results order) !! id = Some v →
    own results !! id = Some v
    ∨ ∃ key n, TaskPending id key n ∈ order
               ∧ v = entryOf id (outcomeOf (net env n)).
Proof.
  induction order as [|t rest IH]; intros results id v Hid; simpl; [by left|].
  intros Hl. destruct (IH _ id v Hid Hl) as [Hr|(key & n & Hin & Hv)].
  - destruct t as [| |id' key n]; simpl in Hr; try by left.
    rewrite setResult_lookup in Hr by done.
    destruct (decide (id' = id)) as [->|]; [|by left].
    right. exists key, n. injection Hr as <-.
    split; [apply list_elem_of_here|done].
  - right. exists key, n. split; [by apply list_elem_of_further|done].
Qed.

Lemma writes_mono env order :
  ∀ results id,
    is_Some (own results !! id) →
    is_Some (own (foldl (writeOf env) results order) !! id).
Proof.
  induction order as [|t rest IH]; intros results id Hs; simpl; [done|].
  apply IH. destruct t; try done. by apply setResult_mono.
Qed.

Lemma writes_complete env order :
  ∀ results id key n,
    id ≠ protoKey → TaskPending id key n ∈ order →
    is_Some (own (foldl (writeOf env) results order) !! id).
Proof.
  induction order as [|t rest IH]; intros results id key n Hid Hin; simpl;
    [by apply elem_of_nil in Hin|].
  apply elem_of_cons in Hin as [<-|Hin].
  - apply writes_mono. simpl. rewrite setResult_lookup by done.
    by rewrite decide_True.
  - by eapply IH.
Qed.

(** The entry of an identifier depends on the outcomes of the calls of its
    own tasks only. *)
Lemma writes_isolated env net' order id :
  id ≠ protoKey →
  (∀ key n, TaskPending id key n ∈ order → net' n = net env n) →
  ∀ r1 r2,
    own r1 !! id = own r2 !! id →
    own (foldl (writeOf env) r1 order) !! id
    = own (foldl (writeOf (withNet env net')) r2 order) !! id.
Proof.
  intros Hid. induction order as [|t rest IH]; intros Hnet r1 r2 Hr; simpl;
    [done|].
  apply IH.
  - intros key n Hin. apply (Hnet key n). by apply list_elem_of_further.
  - destruct t as [| |id' key n]; simpl; try done.
    rewrite !setResult_lookup by done.
    destruct (decide (id' = id)) as [->|]; [|done].
    by rewrite (Hnet key n) by apply list_elem_of_here.
Qed.

(** The continuations touch the world only through [cache.set], and only
    after a call that succeeded. *)
Lemma afterFinish_world env order :
  ∀ w,
    let w' := foldl (afterFinish env) w order in
    fetches w' = fetches w
    ∧ ∃ evs, trace w' = trace w ++ evs
             ∧ ∀ ev, ev ∈ evs →
                 ∃ id key n e, ev = EvCacheSet key e
                               ∧ TaskPending id key n ∈ order
                               ∧ outcomeOf (net env n) = Success (data e).
Proof.
  induction order as [|t rest IH]; intros w; simpl.
  - split; [done|]. exists []. rewrite app_nil_r. split; [done|].
    intros ev H. by apply elem_of_nil in H.
  - destruct (IH (afterFinish env w t)) as (Hf & evs & Ht & Hev).
    assert (Hstep : fetches (afterFinish env w t) = fetches w
      ∧ ∃ evs0, trace (afterFinish env w t) = trace w ++ evs0
          ∧ ∀ ev, ev ∈ evs0 →
              ∃ id key n e, ev = EvCacheSet key e
                            ∧ TaskPending id key n ∈ t :: rest
                            ∧ outcomeOf (net env n) = Success (data e)).
    { destruct t as [| |id key n]; simpl;
        try (split; [done|]; exists []; rewrite app_nil_r; split; [done|];
             intros ev H; by apply elem_of_nil in H).
      unfold afterTask.
      destruct (outcomeOf (net env n)) as [d| |] eqn:Ho; simpl;
        try (split; [done|]; exists []; rewrite app_nil_r; split; [done|];
             intros ev H; by apply elem_of_nil in H).
      split; [done|]. eexists. split; [done|].
      intros ev H. apply list_elem_of_singleton in H as ->.
      exists id, key, n. eexists. split; [done|].
      split; [apply list_elem_of_here|done]. }
    destruct Hstep as (Hf0 & evs0 & Ht0 & Hev0).
    split; [congruence|]. exists (evs0 ++ evs).
    rewrite Ht, Ht0, <- app_assoc. split; [done|].
    intros ev H. apply elem_of_app in H as [H|H]; [by apply Hev0|].
    destruct (Hev ev H) as (id & key & n & e & -> & Hin & Ho).
    exists id, key, n, e. split; [done|].
    split; [by apply list_elem_of_further|done].
Qed.

Lemma afterFinish_failures env order :
  ∀ w,
    (∀ id key n, TaskPending id key n ∈ order →
       isSuccess (outcomeOf (net env n)) = false) →
    foldl (afterFinish env) w order = w.
Proof.
  induction order as [|t rest IH]; intros w Hfail; simpl; [done|].
  assert (Hstep : afterFinish env w t = w).
  { destruct t as [| |id key n]; simpl; try done.
    unfold afterTask. specialize (Hfail id key n (list_elem_of_here _ _)).
    by destruct (outcomeOf (net env n)). }
  rewrite Hstep. apply IH. intros id key n Hin.
  apply (Hfail id key n). by apply list_elem_of_further.
Qed.

(** ** The batch handler, path by path *)

Lemma logSeries_world series w : snd (logSeries series w) = w.
Proof.
  unfold logSeries. destruct series as [v|]; [|done].
  destruct (truthy v); [|done]. destruct v; try done.
  by destruct (forallb printable l).
Qed.

Lemma logSeries_loggable series w :
  loggable series = true → logSeries series w = (Ret tt, w).
Proof.
  unfold logSeries, loggable. destruct series as [v|]; [|done].
  destruct (truthy v); [|done]. destruct v; try done. by intros ->.
Qed.

Lemma logSeries_throws series w :
  loggable series = false → ∃ e, logSeries series w = (Throw e, w).
Proof.
  unfold logSeries, loggable. destruct series as [v|]; [|intros [=]].
  destruct (truthy v); [|intros [=]].
  destruct v; intros Hl; try discriminate Hl; try (by eexists).
  rewrite Hl. by eexists.
Qed.

(** The statement that logs [series] comes first: when it throws, the
    handler ends there. *)
Lemma getMultiple_log_throws cfg env req w :
  loggable (series req) = false →
  ∃ e, getMultiple cfg env req w = (Throw e, w).
Proof.
  intros Hlog. destruct (logSeries_throws _ w Hlog) as [e He].
  exists e. unfold getMultiple, bind. by rewrite He.
Qed.

(** A truthy [series] that is not an array stops the handler at its first
    statement, whatever the configuration. *)
Lemma getMultiple_join_throws cfg env req w v :
  series req = Some v → truthy v = true → (∀ l, v ≠ JArr l) →
  getMultiple cfg env req w = (Throw joinTypeError, w).
Proof.
  intros Hs Ht Hv. unfold getMultiple, bind, logSeries. rewrite Hs, Ht.
  destruct v; try done. by destruct (Hv l).
Qed.

(** An array holding an object with an own [toString] property stops the
    handler at the same statement. *)
Lemma getMultiple_join_unprintable cfg env req w l :
  series req = Some (JArr l) → forallb printable l = false →
  getMultiple cfg env req w = (Throw toPrimitiveTypeError, w).
Proof.
  intros Hs Hp. unfold getMultiple, bind, logSeries. rewrite Hs. simpl.
  by rewrite Hp.
Qed.

(** The handler when [series] is absent, falsy or the empty array. *)
Lemma getMultiple_invalid cfg env req w :
  invalidSeries (series req) = true →
  getMultiple cfg env req w
  = match logSeries (series req) w with
    | (Ret _, _) => (Ret tt, emit (EvRespond 400 invalidSeriesError) w)
    | (Throw e, _) => (Throw e, w)
    end.
Proof.
  intros Hinv. unfold getMultiple, bind. rewrite Hinv.
  pose proof (logSeries_world (series req) w) as Hw.
  by destruct (logSeries (series req) w) as [[[]|e] w1]; simpl in Hw; subst.
Qed.

(** An absent or falsy [series] and the empty array are answered 400, and
    no task is spawned. *)
Lemma getMultiple_400 cfg env req w :
  series req = None
  ∨ (∃ v, series req = Some v ∧ truthy v = false)
  ∨ series req = Some (JArr []) →
  getMultiple cfg env req w
  = (Ret tt, emit (EvRespond 400 invalidSeriesError) w).
Proof.
  intros [Hs|[(v & Hs & Hv)|Hs]]; rewrite getMultiple_invalid;
    rewrite Hs; simpl; try done.
  - by rewrite Hv.
  - by rewrite Hv.
Qed.

(** The handler when the credential is not configured. *)
Lemma getMultiple_no_key cfg env req w :
  loggable (series req) = true →
  invalidSeries (series req) = false →
  keyMissing cfg = true →
  getMultiple cfg env req w
  = (Ret tt,
     emit (EvRespond 500 (errorOnly (configErrorText (variant cfg) true))) w).
Proof.
  intros Hlog Hinv Hkey. unfold getMultiple, bind.
  by rewrite logSeries_loggable, Hinv, Hkey.
Qed.

Lemma invalidSeries_false series :
  invalidSeries series = false →
  ∃ x l, series = Some (JArr (x :: l)).
Proof.
  unfold invalidSeries. destruct series as [v|]; [|done].
  intros Hinv. apply orb_false_iff in Hinv as [_ Ha].
  destruct v as [| | | |l|]; try done. destruct l as [|x l]; [done|].
  by exists x, l.
Qed.

(** The handler once both checks have passed. *)
Lemma getMultiple_valid cfg env req w :
  loggable (series req) = true →
  invalidSeries (series req) = false →
  keyMissing cfg = false →
  getMultiple cfg env req w
  = let '((tasks, r1), w1) :=
      spawnAll cfg env (batch_start req) (batch_end req)
        (elementsOf (series req)) emptyResults w in
    match firstFailure tasks with
    | Some message =>
      (Ret tt,
       foldl (afterFinish env) (emit (EvRespond 500 (batchError message)) w1)
         (orderOf env tasks))
    | None =>
      (Ret tt,
       emit (EvRespond 200
               (PProps (own (foldl (writeOf env) r1 (orderOf env tasks)))))
         (foldl (afterFinish env) w1 (orderOf env tasks)))
    end.
Proof.
  intros Hlog Hinv Hkey. unfold getMultiple. rewrite Hinv, Hkey.
  unfold bind at 1. rewrite logSeries_loggable by done. unfold bind at 1.
  unfold lift.
  destruct (spawnAll cfg env (batch_start req) (batch_end req)
              (elementsOf (series req)) emptyResults w) as [[tasks r1] w1].
  destruct (firstFailure tasks) as [message|].
  - unfold bind. simpl. by rewrite drainAll_run.
  - unfold bind. by rewrite drainAll_run.
Qed.

(** What the handler emits once both checks have passed: the events of the
    fan-out, the response, and the [cache.set]s of the continuations, which
    come before the response when every task resolved and after it when
    [Promise.all] rejected. *)
Lemma getMultiple_events cfg env req w :
  loggable (series req) = true →
  invalidSeries (series req) = false →
  keyMissing cfg = false →
  let '((tasks, r1), w1) :=
    spawnAll cfg env (batch_start req) (batch_end req)
      (elementsOf (series req)) emptyResults w in
  let answer :=
    match firstFailure tasks with
    | Some message => EvRespond 500 (batchError message)
    | None =>
      EvRespond 200 (PProps (own (foldl (writeOf env) r1 (orderOf env tasks))))
    end in
  ∃ w' evs1 evs2,
    getMultiple cfg env req w = (Ret tt, w')
    ∧ trace w1 = trace w ++ evs1
    ∧ forallb spawnOrFetch evs1 = true
    ∧ (∀ ev, ev ∈ evs2 →
         ∃ id key n e, ev = EvCacheSet key e
                       ∧ TaskPending id key n ∈ tasks
                       ∧ outcomeOf (net env n) = Success (data e))
    ∧ fetches w' = fetches w1
    ∧ (trace w' = trace w ++ evs1 ++ evs2 ++ [answer]
       ∨ trace w' = trace w ++ evs1 ++ [answer] ++ evs2)
    ∧ List.filter isRespond (newEvents w w') = [answer].
Proof.
  intros Hlog Hinv Hkey. rewrite getMultiple_valid by done.
  destruct (spawnAll cfg env (batch_start req) (batch_end req)
              (elementsOf (series req)) emptyResults w)
    as [[tasks r1] w1] eqn:Hsp.
  apply spawnAll_Spawned in Hsp.
  destruct (Spawned_frame _ _ _ _ _ _ _ _ _ _ Hsp) as (_ & _ & evs1 & Ht1 & Hq1).
  assert (Hf1 : List.filter isRespond evs1 = [])
    by (by apply (filter_quiet spawnOrFetch);
        [|apply spawnOrFetch_not_respond]).
  assert (Hcs : ∀ evs2 (w0 : World),
    (∀ ev, ev ∈ evs2 →
       ∃ id key n e, ev = EvCacheSet key e
                     ∧ TaskPending id key n ∈ orderOf env tasks
                     ∧ outcomeOf (net env n) = Success (data e)) →
    List.filter isRespond evs2 = []
    ∧ ∀ ev, ev ∈ evs2 →
        ∃ id key n e, ev = EvCacheSet key e
                      ∧ TaskPending id key n ∈ tasks
                      ∧ outcomeOf (net env n) = Success (data e)).
  { intros evs2 _ Hev. split.
    - apply cacheSets_filter; [|done]. intros ev Hin.
      destruct (Hev ev Hin) as (id & key & n & e & -> & _). by exists key, e.
    - intros ev Hin. destruct (Hev ev Hin) as (id & key & n & e & -> & Hp & Ho).
      exists id, key, n, e. by rewrite <- orderOf_pending. }
  destruct (firstFailure tasks) as [message|].
  - destruct (afterFinish_world env (orderOf env tasks)
                (emit (EvRespond 500 (batchError message)) w1))
      as (Hf & evs2 & Ht2 & Hev).
    destruct (Hcs evs2 w Hev) as [Hf2 Hev2].
    eexists; exists evs1, evs2. split; [done|]. split; [done|].
    split; [done|]. split; [done|]. split; [done|].
    assert (Htr : trace (foldl (afterFinish env)
                           (emit (EvRespond 500 (batchError message)) w1)
                           (orderOf env tasks))
                  = trace w ++ evs1 ++ [EvRespond 500 (batchError message)] ++ evs2).
    { rewrite Ht2. simpl. rewrite Ht1. by rewrite <- !app_assoc. }
    split; [by right|].
    rewrite (newEvents_app _ _ _ Htr). rewrite !List.filter_app, Hf1, Hf2. done.
  - destruct (afterFinish_world env (orderOf env tasks) w1)
      as (Hf & evs2 & Ht2 & Hev).
    destruct (Hcs evs2 w Hev) as [Hf2 Hev2].
    eexists; exists evs1, evs2. split; [done|]. split; [done|].
    split; [done|]. split; [done|]. split; [done|].
    match goal with |- context [EvRespond 200 ?b] => set (body := b) end.
    assert (Htr : trace (emit (EvRespond 200 body)
                           (foldl (afterFinish env) w1 (orderOf env tasks)))
                  = trace w ++ evs1 ++ evs2 ++ [EvRespond 200 body]).
    { simpl. rewrite Ht2, Ht1. by rewrite <- !app_assoc. }
    split; [by left|].
    rewrite (newEvents_app _ _ _ Htr). rewrite !List.filter_app, Hf1, Hf2. done.
Qed.

Lemma getMultiple_cacheSets cfg env req w :
  let w' := snd (getMultiple cfg env req w) in
  (∀ key e, EvCacheSet key e ∈ newEvents w w' →
     ∃ n, (fetches w <= n < fetches w')%nat
          ∧ outcomeOf (net env n) = Success (data e))
  ∧ ((∀ n, (fetches w <= n < fetches w')%nat →
        isSuccess (outcomeOf (net env n)) = false) →
     cache w' = cache w).
Proof.
  destruct (loggable (series req)) eqn:Hlog.
  2: { destruct (getMultiple_log_throws cfg env req w Hlog) as [err ->].
       simpl. rewrite (newEvents_app w w []) by (by rewrite app_nil_r).
       split; [|done]. intros key e Hin. by apply elem_of_nil in Hin. }
  destruct (invalidSeries (series req)) eqn:Hinv.
  { rewrite getMultiple_invalid, logSeries_loggable by done. simpl.
    rewrite (newEvents_app w _ [EvRespond 400 invalidSeriesError]) by done.
    split; [|done]. intros key e Hin.
    apply list_elem_of_singleton in Hin. done. }
  destruct (keyMissing cfg) eqn:Hkey.
  { rewrite getMultiple_no_key by done. simpl.
    erewrite (newEvents_app w _ [_]) by done.
    split; [|done]. intros key e Hin.
    apply list_elem_of_singleton in Hin. done. }
  pose proof (getMultiple_events cfg env req w Hlog Hinv Hkey) as Hev.
  pose proof (getMultiple_valid cfg env req w Hlog Hinv Hkey) as Hval.
  destruct (spawnAll cfg env (batch_start req) (batch_end req)
              (elementsOf (series req)) emptyResults w)
    as [[tasks r1] w1] eqn:Hsp.
  apply spawnAll_Spawned in Hsp.
  destruct (Spawned_frame _ _ _ _ _ _ _ _ _ _ Hsp) as (Hc1 & _ & _).
  pose proof (λ id key n,
    Spawned_pending _ _ _ _ _ _ _ _ _ _ id key n Hsp) as Hpend.
  destruct Hev as (w' & evs1 & evs2 & Hrun & Ht1 & Hq1 & Hev2 & Hfe & Htr & _).
  rewrite Hrun. simpl. split.
  - intros key e Hin.
    assert (Hin2 : EvCacheSet key e ∈ evs2).
    { assert (Hno1 : EvCacheSet key e ∉ evs1).
      { intros H1. apply list_elem_of_In in H1.
        rewrite forallb_forall in Hq1. by specialize (Hq1 _ H1). }
      destruct Htr as [Htr|Htr]; rewrite (newEvents_app _ _ _ Htr) in Hin;
        rewrite !elem_of_app in Hin;
        destruct Hin as [Hin|[Hin|Hin]]; try done.
      - apply list_elem_of_singleton in Hin.
        by destruct (firstFailure tasks).
      - apply list_elem_of_singleton in Hin.
        by destruct (firstFailure tasks). }
    destruct (Hev2 _ Hin2) as (id & key' & n & e' & Heq & Hp & Ho).
    injection Heq as -> ->. exists n. split; [|done].
    destruct (Hpend id key' n Hp) as (_ & _ & Hn & _). lia.
  - intros Hfail.
    assert (Hall : ∀ id key n, TaskPending id key n ∈ orderOf env tasks →
                     isSuccess (outcomeOf (net env n)) = false).
    { intros id key n Hin. apply orderOf_pending in Hin.
      destruct (Hpend id key n Hin) as (_ & _ & Hn & _).
      apply Hfail. lia. }
    rewrite Hrun in Hval.
    destruct (firstFailure tasks); injection Hval as ->;
      rewrite afterFinish_failures by done; done.
Qed.

(** ** Claims on the validation of a batch *)

(** C6, at the input [{"series": "GDP"}]: [series] is a string, not a list.
    The handler does not answer 400: evaluating [series.join] for the log
    line throws a [TypeError] before the validation is reached, and the
    handler ends without any response. *)
Theorem batch_string_series_throws cfg env w :
  getMultiple cfg env
    {| series := Some (JStr (js "GDP")); batch_start := None; batch_end := None |}
    w
  = (Throw joinTypeError, w)
  ∧ invalidSeries (Some (JStr (js "GDP"))) = true.
Proof.
  split; [|reflexivity].
  apply (getMultiple_join_throws _ _ _ _ (JStr (js "GDP"))); [reflexivity..|].
  intros l Hl. discriminate Hl.
Qed.

(** C7, as stated, fails on a request without [series] when the credential
    is not configured: the answer is the 400 of the validation, not the
    configuration error. *)
Lemma batch_credential_counterexample :
  keyMissing demoNoKey = true
  ∧ getMultiple demoNoKey demoEnv
      {| series := None; batch_start := None; batch_end := None |} emptyWorld
    = (Ret tt, emit (EvRespond 400 invalidSeriesError) emptyWorld)
  ∧ getMultiple demoNoKey demoEnv
      {| series := None; batch_start := None; batch_end := None |} emptyWorld
    ≠ (Ret tt,
       emit (EvRespond 500 (errorOnly (configErrorText EnvironmentOnly true)))
         emptyWorld).
Proof.
  split; [reflexivity|]. split; [reflexivity|].
  intros H. apply (f_equal (fun p => trace (snd p))) in H.
  vm_compute in H. discriminate H.
Qed.

(** C7, amended. For every batch request whose [series] is a non-empty
    list (that the log statement can print), when the credential is not
    configured the handler answers the 500 configuration error, once, and
    does nothing else: no task is spawned and no call is made. And for every
    batch request whatsoever, an unconfigured credential means that no call
    is made, no task is spawned and the cache is not touched; nor does the
    single-series handler call upstream without a credential. *)
Theorem batch_credential_fail_fast cfg env req w :
  keyMissing cfg = true →
  (∀ x l, series req = Some (JArr (x :: l)) →
     forallb printable (x :: l) = true →
     getMultiple cfg env req w
     = (Ret tt,
        emit (EvRespond 500 (errorOnly (configErrorText (variant cfg) true))) w))
  ∧ (let w' := snd (getMultiple cfg env req w) in
     fetches w' = fetches w
     ∧ cache w' = cache w
     ∧ List.filter isFetch (newEvents w w') = []
     ∧ List.filter isSpawn (newEvents w w') = [])
  ∧ (∀ single,
       let w' := snd (getSeries cfg env single w) in
       fetches w' = fetches w ∧ List.filter isFetch (newEvents w w') = []).
Proof.
  intros Hkey. split; [|split].
  - intros x l Hs Hp. apply getMultiple_no_key; [| |done]; rewrite Hs; [|done].
    simpl. simpl in Hp. by rewrite Hp.
  - destruct (loggable (series req)) eqn:Hlog.
    2: { destruct (getMultiple_log_throws cfg env req w Hlog) as [e ->].
         simpl. rewrite (newEvents_app w w []) by (by rewrite app_nil_r).
         done. }
    destruct (invalidSeries (series req)) eqn:Hinv.
    + rewrite getMultiple_invalid, logSeries_loggable by done. simpl.
      rewrite (newEvents_app w _ [EvRespond 400 invalidSeriesError]) by done.
      done.
    + rewrite getMultiple_no_key by done. simpl.
      erewrite (newEvents_app w _ [_]) by done. done.
  - intros single. unfold getSeries. rewrite Hkey.
    destruct (negb (truthyStr (seriesId single))); simpl;
      by erewrite (newEvents_app w _ [_]) by done.
Qed.

Lemma batch_credential_fail_fast_witness :
  getMultiple demoNoKey demoEnv (batchOf [JStr (js "GDP")]) emptyWorld
  = (Ret tt,
     emit (EvRespond 500 (errorOnly (configErrorText EnvironmentOnly true)))
       emptyWorld).
Proof.
  apply (proj1 (batch_credential_fail_fast demoNoKey demoEnv
                  (batchOf [JStr (js "GDP")]) emptyWorld eq_refl)
           (JStr (js "GDP")) []); reflexivity.
Defined.

(** ** Claims on the fan-out *)

(** C10. There are batch inputs that pass the validation and fail as a
    whole, namely every non-empty array holding an element that is not a
    string (and that the log statement can print): [trim] throws in the task
    of that element, [Promise.all] rejects, and the only response is a 500
    internal error carrying the message of the first task that threw; no
    BatchResult is sent. *)
Theorem non_string_element_fails_batch cfg env req w x :
  loggable (series req) = true →
  invalidSeries (series req) = false →
  keyMissing cfg = false →
  x ∈ elementsOf (series req) →
  isString x = false →
  (∀ w0, trimElem x w0 = (Throw (trimTypeError x), w0))
  ∧ ∃ message w',
      getMultiple cfg env req w = (Ret tt, w')
      ∧ List.filter isRespond (newEvents w w')
        = [EvRespond 500 (batchError message)]
      ∧ ((∃ y, y ∈ elementsOf (series req) ∧ isString y = false
               ∧ message = trimTypeError y)
         ∨ message = URIError).
Proof.
  intros Hlog Hinv Hkey Hin Hx. split; [intros w0; by destruct x|].
  pose proof (getMultiple_events cfg env req w Hlog Hinv Hkey) as Hev.
  destruct (spawnAll cfg env (batch_start req) (batch_end req)
              (elementsOf (series req)) emptyResults w)
    as [[tasks r1] w1] eqn:Hsp.
  apply spawnAll_Spawned in Hsp.
  destruct (Spawned_non_string _ _ _ _ _ _ _ _ _ _ x Hsp Hin Hx)
    as [message Hff].
  rewrite Hff in Hev.
  destruct Hev as (w' & evs1 & evs2 & Hrun & _ & _ & _ & _ & _ & Hresp).
  exists message, w'. split; [done|]. split; [done|].
  destruct (Spawned_failure_reason _ _ _ _ _ _ _ _ _ _ message Hsp Hff)
    as [H|[H _]]; [by left|by right].
Qed.

Lemma non_string_element_fails_batch_witness :
  ∃ message w',
    getMultiple demoConfig demoEnv (batchOf [JNum 42]) emptyWorld = (Ret tt, w')
    ∧ List.filter isRespond (newEvents emptyWorld w')
      = [EvRespond 500 (batchError message)]
    ∧ ((∃ y, y ∈ [JNum 42] ∧ isString y = false ∧ message = trimTypeError y)
       ∨ message = URIError).
Proof.
  apply (proj2 (non_string_element_fails_batch demoConfig demoEnv
                  (batchOf [JNum 42]) emptyWorld (JNum 42)
                  eq_refl eq_refl eq_refl (list_elem_of_here _ _) eq_refl)).
Defined.

Example non_string_element_run :
  getMultiple demoConfig demoEnv (batchOf [JNum 42]) emptyWorld
  = (Ret tt,
     {| cache := ∅; ticks := 0; fetches := 0;
        trace := [EvSpawn (JNum 42);
                  EvRespond 500 (batchError (trimTypeError (JNum 42)))] |}).
Proof. reflexivity. Qed.

(** C3, at the input [{"series": ["__proto__"]}]: one non-blank identifier,
    and a BatchResult without any key. The assignment
    [results["__proto__"] = ...] runs the prototype setter of the object and
    creates no property, whatever the cache holds and however the call
    ends. *)
Theorem proto_identifier_gets_no_entry cfg env w sd ed :
  keyMissing cfg = false →
  wellFormedOpt sd = true →
  wellFormedOpt ed = true →
  trim protoKey = protoKey
  ∧ ∃ w',
      getMultiple cfg env
        {| series := Some (JArr [JStr protoKey]);
           batch_start := sd; batch_end := ed |} w
      = (Ret tt, w')
      ∧ List.filter isRespond (newEvents w w') = [EvRespond 200 (PProps ∅)].
Proof.
  intros Hkey Hsd Hed. split; [done|].
  pose proof (getMultiple_events cfg env
    {| series := Some (JArr [JStr protoKey]); batch_start := sd;
       batch_end := ed |} w eq_refl eq_refl Hkey) as Hev.
  simpl in Hev.
  pose proof (taskStart_cases cfg env sd ed emptyResults (JStr protoKey) w)
    as Hc.
  destruct (taskStart cfg env sd ed emptyResults (JStr protoKey) w)
    as [[t r1] w1].
  assert (Hbody : firstFailure [t] = None
                  ∧ own (foldl (writeOf env) r1 (orderOf env [t])) = ∅).
  { inversion Hc as [|s Hs Hb|s e Hs Hne Hl Hf|s url w0 Hs Hne Hf Hw0
                     |s w0 Hs Hne Hwf Hw0]; subst; try done.
    - injection Hs as <-. split; [done|]. apply setResult_proto_empty.
    - injection Hs as <-. split; [done|].
      change (trim protoKey) with protoKey.
      unfold orderOf. simpl. apply setResult_proto_empty.
    - injection Hs as <-. change (trim protoKey) with protoKey in Hwf.
      rewrite Hsd, Hed in Hwf. done. }
  destruct Hbody as [Hff Hown]. rewrite Hff, Hown in Hev.
  destruct Hev as (w' & evs1 & evs2 & Hrun & _ & _ & _ & _ & _ & Hresp).
  by exists w'.
Qed.

Lemma proto_identifier_gets_no_entry_witness :
  ∃ w',
    getMultiple demoConfig demoEnv (batchOf [JStr protoKey]) emptyWorld
    = (Ret tt, w')
    ∧ List.filter isRespond (newEvents emptyWorld w')
      = [EvRespond 200 (PProps ∅)].
Proof.
  apply (proj2 (proto_identifier_gets_no_entry demoConfig demoEnv emptyWorld
                  None None eq_refl eq_refl eq_refl)).
Defined.

(** C2, as stated, fails on requests that pass the validation and are
    rejected as a whole all the same: an element that is not a string, and a
    string with a lone surrogate, make their task throw before its [try]. *)
Lemma batch_isolation_counterexample :
  invalidSeries (series (batchOf [JNum 42])) = false
  ∧ getMultiple demoConfig demoEnv (batchOf [JNum 42]) emptyWorld
    = (Ret tt,
       {| cache := ∅; ticks := 0; fetches := 0;
          trace := [EvSpawn (JNum 42);
                    EvRespond 500 (batchError (trimTypeError (JNum 42)))] |})
  ∧ invalidSeries (series (batchOf [JStr [55296%N]])) = false
  ∧ getMultiple demoConfig demoEnv (batchOf [JStr [55296%N]]) emptyWorld
    = (Ret tt,
       {| cache := ∅; ticks := 0; fetches := 0;
          trace := [EvSpawn (JStr [55296%N]);
                    EvRespond 500 (batchError URIError)] |}).
Proof. repeat split; reflexivity. Qed.

(** C2, amended. For every batch request that passes the validation,
    whose elements are all strings that can go into a URL, and whose two
    dates are each absent or a string that can go into a URL, the request
    is answered 200 with a BatchResult, however the upstream calls end.
    For every identifier other than ["__proto__"]: it has an entry exactly
    when it is the trimmed, non-blank form of an element; its entry is the
    payload of a cache hit of its own key or the entry computed from the
    outcome of the call of one of its own tasks; and that entry stays the
    same when the outcomes of the calls of all other tasks change. *)
Theorem batch_isolation cfg env req w :
  invalidSeries (series req) = false →
  keyMissing cfg = false →
  forallb (encodable (batch_start req) (batch_end req))
    (elementsOf (series req)) = true →
  ∃ w' res,
    getMultiple cfg env req w = (Ret tt, w')
    ∧ List.filter isRespond (newEvents w w') = [EvRespond 200 (PProps res)]
    ∧ ∀ id, id ≠ protoKey →
        (is_Some (res !! id)
         ↔ id ≠ [] ∧ ∃ s, JStr s ∈ elementsOf (series req) ∧ trim s = id)
        ∧ (∀ v, res !! id = Some v →
             (∃ e, cache w !! getCacheKey id (batch_start req) (batch_end req)
                     = Some e ∧ v = data e)
             ∨ (∃ key n, TaskPending id key n ∈ tasksOf cfg env req w
                         ∧ v = entryOf id (outcomeOf (net env n))))
        ∧ (∀ net',
             (∀ key n, TaskPending id key n ∈ tasksOf cfg env req w →
                net' n = net env n) →
             ∃ w'' res',
               getMultiple cfg (withNet env net') req w = (Ret tt, w'')
               ∧ List.filter isRespond (newEvents w w'')
                 = [EvRespond 200 (PProps res')]
               ∧ res' !! id = res !! id).
Proof.
  intros Hinv Hkey Henc.
  assert (Hlog : loggable (series req) = true).
  { destruct (invalidSeries_false _ Hinv) as (x & l & Hs).
    rewrite Hs in Henc |- *.
    apply (encodable_printable _ _ _ Henc). }
  pose proof (getMultiple_events cfg env req w Hlog Hinv Hkey) as Hev.
  assert (Hiso : ∀ net',
    getMultiple cfg (withNet env net') req w
    = let '((tasks, r1), w1) :=
        spawnAll cfg env (batch_start req) (batch_end req)
          (elementsOf (series req)) emptyResults w in
      match firstFailure tasks with
      | Some message =>
        (Ret tt,
         foldl (afterFinish (withNet env net'))
           (emit (EvRespond 500 (batchError message)) w1) (orderOf env tasks))
      | None =>
        (Ret tt,
         emit (EvRespond 200
                 (PProps (own (foldl (writeOf (withNet env net')) r1
                                 (orderOf env tasks)))))
           (foldl (afterFinish (withNet env net')) w1 (orderOf env tasks)))
      end).
  { intros net'. rewrite getMultiple_valid by done.
    by rewrite spawnAll_withNet. }
  pose proof (λ net',
    getMultiple_events cfg (withNet env net') req w Hlog Hinv Hkey) as Hev'.
  unfold tasksOf.
  destruct (spawnAll cfg env (batch_start req) (batch_end req)
              (elementsOf (series req)) emptyResults w)
    as [[tasks r1] w1] eqn:Hrun1.
  pose proof (spawnAll_Spawned _ _ _ _ _ _ _ _ _ _ Hrun1) as Hsp.
  pose proof (Spawned_no_failure _ _ _ _ _ _ _ _ _ _ Hsp Henc) as Hff.
  simpl in *. rewrite Hff in Hev.
  destruct Hev as (w' & evs1 & evs2 & Hrun & _ & _ & _ & _ & _ & Hresp).
  exists w'. eexists. split; [done|]. split; [done|].
  intros id Hid. split; [split|split].
  - (* an entry only for the trimmed form of an element *)
    intros [v Hv].
    destruct (writes_sound env _ _ id v Hid Hv) as [Hr1|(key & n & Hin & _)].
    + destruct (Spawned_results _ _ _ _ _ _ _ _ _ _ id v Hsp Hid Hr1)
        as [He|(s & e & Hs & Ht & Hne & _)];
        [simpl in He; by rewrite lookup_empty in He|].
      split; [done|]. by exists s.
    + apply orderOf_pending in Hin.
      destruct (Spawned_pending _ _ _ _ _ _ _ _ _ _ id key n Hsp Hin)
        as (Hne & _ & _ & s & Hs & Ht).
      split; [done|]. by exists s.
  - (* every trimmed non-blank element has an entry *)
    intros (Hne & s & Hs & Ht). subst id.
    destruct (Spawned_complete _ _ _ _ _ _ _ _ _ _ s Hsp Henc Hs Hne Hid)
      as [Hr1|(key & n & Hin)].
    + by apply writes_mono.
    + apply (writes_complete env _ _ _ key n); [done|].
      by apply orderOf_pending.
  - (* the entry is the identifier's own *)
    intros v Hv.
    destruct (writes_sound env _ _ id v Hid Hv) as [Hr1|(key & n & Hin & Hvn)].
    + destruct (Spawned_results _ _ _ _ _ _ _ _ _ _ id v Hsp Hid Hr1)
        as [He|(s & e & Hs & Ht & Hne & Hc & Hd)];
        [simpl in He; by rewrite lookup_empty in He|].
      left. by exists e.
    + right. exists key, n.
      split; [by apply (proj1 (orderOf_pending env tasks id key n))|done].
  - (* and does not depend on the calls of the others *)
    intros net' Hnet. specialize (Hev' net').
    rewrite spawnAll_withNet, Hrun1, Hff in Hev'.
    destruct Hev' as (w'' & evs1' & evs2' & Hrun' & _ & _ & _ & _ & _ & Hresp').
    exists w''. eexists. split; [done|]. split; [done|].
    symmetry. apply writes_isolated; [done| |done].
    intros key n Hin. apply (Hnet key n). by apply orderOf_pending in Hin.
Qed.

Lemma batch_isolation_witness :
  ∃ w' res,
    getMultiple demoConfig demoEnv scenario emptyWorld = (Ret tt, w')
    ∧ List.filter isRespond (newEvents emptyWorld w')
      = [EvRespond 200 (PProps res)].
Proof.
  destruct (batch_isolation demoConfig demoEnv scenario emptyWorld
              eq_refl eq_refl eq_refl) as (w' & res & Hrun & Hresp & _).
  by exists w', res.
Defined.

(** The scenario of the specification: [GDP] succeeds, [CPI] is answered
    404, the blank entry leaves no key. *)
Example scenario_run :
  ∃ w' res,
    getMultiple demoConfig demoEnv scenario emptyWorld = (Ret tt, w')
    ∧ List.filter isRespond (newEvents emptyWorld w')
      = [EvRespond 200 (PProps res)]
    ∧ res !! js "GDP" = Some (JNum 1)
    ∧ res !! js "CPI" = Some (failDescriptor (js "CPI") 404 (js "Not Found"))
    ∧ size res = 2%nat
    ∧ cache w' !! js "GDP-none-none"
      = Some {| data := JNum 1; timestamp := 1000 |}
    ∧ cache w' !! js "CPI-none-none" = None.
Proof. do 2 eexists. repeat split; vm_compute; reflexivity. Qed.

(** ** Claims on what is written to the cache *)

(** C9. An upstream HTTP error or a transport error leaves the cache as it
    was, for the single-series handler and for every task of a batch: the
    handlers call [cache.set] only with the payload of a call that
    succeeded, so an error neither creates nor overwrites an entry. *)
Theorem errors_never_write_cache cfg env w :
  (∀ req,
     (isSuccess (outcomeOf (net env (fetches w))) = false →
      cache (snd (getSeries cfg env req w)) = cache w)
     ∧ (∀ key e,
          EvCacheSet key e ∈ newEvents w (snd (getSeries cfg env req w)) →
          key = keyOf req
          ∧ outcomeOf (net env (fetches w)) = Success (data e)))
  ∧ (∀ id key n results,
       isSuccess (outcomeOf (net env n)) = false →
       snd (taskFinish env id key n results w) = w)
  ∧ (∀ req,
       let w' := snd (getMultiple cfg env req w) in
       (∀ key e, EvCacheSet key e ∈ newEvents w w' →
          ∃ n, (fetches w <= n < fetches w')%nat
               ∧ outcomeOf (net env n) = Success (data e))
       ∧ ((∀ n, (fetches w <= n < fetches w')%nat →
             isSuccess (outcomeOf (net env n)) = false) →
          cache w' = cache w)).
Proof.
  split; [|split].
  - intros req. split; [|apply getSeries_cacheSets].
    intros Hfail.
    destruct (getSeries_cache cfg env req w) as [H|(d & t & Ho & _)]; [done|].
    by rewrite Ho in Hfail.
  - intros id key n results Hfail. rewrite taskFinish_run. simpl.
    unfold afterTask. by destruct (outcomeOf (net env n)).
  - intros req. apply getMultiple_cacheSets.
Qed.

Lemma errors_never_write_cache_witness :
  cache (snd (getSeries demoConfig failingEnv (seriesOf "GDP" None) emptyWorld))
  = cache emptyWorld.
Proof.
  apply (proj1 (proj1 (errors_never_write_cache demoConfig failingEnv emptyWorld)
                  (seriesOf "GDP" None))).
  reflexivity.
Defined.

(** * Further properties *)

(** ** White space *)

Lemma trimStart_blank (s : jsstring) :
  forallb isWhiteSpace s = true → trimStart s = [].
Proof.
  induction s as [|c t IH]; [done|]. simpl.
  intros [Hc Ht]%andb_prop. by rewrite Hc; apply IH.
Qed.

Lemma trimStart_nil (s : jsstring) :
  trimStart s = [] → forallb isWhiteSpace s = true.
Proof.
  induction s as [|c t IH]; [done|]. simpl.
  destruct (isWhiteSpace c); [by auto|done].
Qed.

Lemma trimStart_head (s : jsstring) c t :
  trimStart s = c :: t → isWhiteSpace c = false.
Proof.
  induction s as [|c' t' IH]; [done|]. simpl.
  destruct (isWhiteSpace c') eqn:Hc; [done|]. by intros [= <- _].
Qed.

Lemma forallb_rev_eq {A} (p : A → bool) (l : list A) :
  forallb p (rev l) = forallb p l.
Proof.
  induction l as [|a l IH]; [done|]. simpl.
  rewrite forallb_app, IH. simpl. rewrite andb_true_r. apply andb_comm.
Qed.

Lemma trim_blank (s : jsstring) :
  trim s = [] ↔ forallb isWhiteSpace s = true.
Proof.
  unfold trim, trimEnd. split.
  - intros H. apply trimStart_nil.
    destruct (trimStart s) as [|c t] eqn:Hs; [done|].
    assert (Hr : trimStart (rev (c :: t)) = []).
    { destruct (trimStart (rev (c :: t))) as [|x l]; [done|].
      simpl in H. by destruct (rev l). }
    apply trimStart_nil in Hr. rewrite forallb_rev_eq in Hr. simpl in Hr.
    apply trimStart_head in Hs. by rewrite Hs in Hr.
  - intros H. by rewrite (trimStart_blank s H).
Qed.

(** ** What [encodeURIComponent] returns *)

Lemma hexDigit_safe (d : N) : (d < 16)%N → isUnreserved (hexDigit d) = true.
Proof.
  intros Hd. unfold isUnreserved, hexDigit.
  destruct (N.ltb_spec d 10);
    repeat (rewrite ?orb_true_iff, ?andb_true_iff, ?N.leb_le, ?N.eqb_eq); lia.
Qed.

Lemma pctOctet_safe (b : N) : (b < 256)%N → forallb urlSafe (pctOctet b) = true.
Proof.
  intros Hb. unfold pctOctet, urlSafe. simpl.
  rewrite !hexDigit_safe; [done| |].
  - apply N.mod_lt. lia.
  - apply N.Div0.div_lt_upper_bound. lia.
Qed.

Lemma utf8_octets (cp : N) :
  (cp < 1114112)%N → Forall (fun b => (b < 256)%N) (utf8 cp).
Proof.
  intros Hcp. unfold utf8.
  pose proof (N.mod_lt cp 64).
  pose proof (N.mod_lt (cp / 64) 64).
  pose proof (N.mod_lt (cp / 4096) 64).
  assert (cp < 2048 → cp / 64 < 32)%N
    by (intros; apply N.Div0.div_lt_upper_bound; lia).
  assert (cp < 65536 → cp / 4096 < 16)%N
    by (intros; apply N.Div0.div_lt_upper_bound; lia).
  assert (cp / 262144 < 5)%N by (apply N.Div0.div_lt_upper_bound; lia).
  repeat (case N.ltb_spec; intros); repeat constructor; lia.
Qed.

Lemma pctEncode_safe (cp : N) :
  (cp < 1114112)%N → forallb urlSafe (pctEncode cp) = true.
Proof.
  intros Hcp. unfold pctEncode.
  induction (utf8_octets cp Hcp) as [|b l Hb _ IH]; [done|].
  simpl List.map. rewrite concat_cons, forallb_app, IH, pctOctet_safe; done.
Qed.

Lemma encodeURIComponent_safe_aux (n : nat) :
  ∀ s e : jsstring, (length s <= n)%nat → isCodeUnits s = true →
    encodeURIComponent s = Some e → forallb urlSafe e = true.
Proof.
  induction n as [|n IH]; intros s e Hn Hs He.
  - destruct s; [|simpl in Hn; lia]. by injection He as <-.
  - destruct s as [|c t]; [by injection He as <-|].
    simpl in Hn, Hs, He. apply andb_prop in Hs as [Hc Ht].
    apply N.ltb_lt in Hc.
    destruct (isUnreserved c) eqn:Hu.
    { destruct (encodeURIComponent t) as [e'|] eqn:Ht'; [|done].
      injection He as <-. simpl. unfold urlSafe at 1. rewrite Hu. simpl.
      apply (IH t); [lia|done|done]. }
    destruct (isLowSurrogate c); [done|].
    destruct (isHighSurrogate c) eqn:Hh.
    { destruct t as [|d t']; [done|].
      destruct (isLowSurrogate d) eqn:Hl; [|done].
      destruct (encodeURIComponent t') as [e'|] eqn:Ht'; [|done].
      injection He as <-. simpl in Hn, Ht. apply andb_prop in Ht as [Hd Ht].
      apply N.ltb_lt in Hd.
      rewrite forallb_app, pctEncode_safe; [|].
      - apply (IH t'); [lia|done|done].
      - unfold isHighSurrogate, isLowSurrogate in Hh, Hl.
        apply andb_prop in Hh as [?%N.leb_le ?%N.leb_le].
        apply andb_prop in Hl as [?%N.leb_le ?%N.leb_le]. lia. }
    destruct (encodeURIComponent t) as [e'|] eqn:Ht'; [|done].
    injection He as <-.
    rewrite forallb_app, pctEncode_safe; [|lia].
    apply (IH t); [lia|done|done].
Qed.

Lemma encodeURIComponent_safe (s e : jsstring) :
  isCodeUnits s = true → encodeURIComponent s = Some e →
  forallb urlSafe e = true.
Proof. apply (encodeURIComponent_safe_aux (length s)). lia. Qed.

Lemma addParam_shape name d url w url' w' :
  codeUnitsOpt d = true →
  addParam name d url w = (Ret url', w') →
  ∃ p, url' = url ++ p ∧ dateQuery name d p.
Proof.
  intros Hd. unfold addParam, dateQuery.
  destruct d as [[|c t]|]; simpl.
  - intros [= <- _]. exists []. by rewrite app_nil_r.
  - unfold bind. rewrite encodeURI_run.
    destruct (encodeURIComponent (c :: t)) as [e|] eqn:He; [|done].
    intros [= <- _]. exists (name ++ e). split; [done|].
    exists e. split; [done|]. split; [|done].
    by apply (encodeURIComponent_safe (c :: t)).
  - intros [= <- _]. exists []. by rewrite app_nil_r.
Qed.

Lemma seriesURL_shape cfg req w url w' :
  isCodeUnits (seriesId req) = true →
  isCodeUnits (sortOrderOf req) = true →
  codeUnitsOpt (start_date req) = true →
  codeUnitsOpt (end_date req) = true →
  seriesURL cfg req w = (Ret url, w') →
  ∃ id order from to,
    encodeURIComponent (seriesId req) = Some id
    ∧ encodeURIComponent (sortOrderOf req) = Some order
    ∧ dateQuery (js "&observation_start=") (start_date req) from
    ∧ dateQuery (js "&observation_end=") (end_date req) to
    ∧ forallb urlSafe id = true
    ∧ forallb urlSafe order = true
    ∧ url = observationsURL ++ id ++ js "&api_key=" ++ tmpl (FRED_API_KEY cfg)
              ++ js "&file_type=json&sort_order=" ++ order ++ from ++ to.
Proof.
  intros Hid Hord Hsd Hed. unfold seriesURL, bind. rewrite !encodeURI_run.
  destruct (encodeURIComponent (seriesId req)) as [id|] eqn:H1; [|done].
  destruct (encodeURIComponent (sortOrderOf req)) as [order|] eqn:H2; [|done].
  destruct (addParam _ (start_date req) _ w) as [[u1|?] w3] eqn:H3; [|done].
  intros H4.
  apply addParam_shape in H3 as (from & -> & Hfrom); [|done].
  apply addParam_shape in H4 as (to & -> & Hto); [|done].
  exists id, order, from, to. split; [done|]. split; [done|].
  split; [done|]. split; [done|].
  split; [exact (encodeURIComponent_safe _ _ Hid H1)|].
  split; [exact (encodeURIComponent_safe _ _ Hord H2)|].
  by rewrite <- !app_assoc.
Qed.

Lemma seriesURL_throw cfg req w e w' :
  seriesURL cfg req w = (Throw e, w') →
  e = URIError ∧ requestWellFormed req = false.
Proof.
  intros H. split.
  - revert H. unfold seriesURL, bind. rewrite !encodeURI_run.
    destruct (encodeURIComponent (seriesId req)); [|by intros [= <-]].
    destruct (encodeURIComponent (sortOrderOf req)); [|by intros [= <-]].
    destruct (addParam _ (start_date req) _ w) as [[u1|e1] w3] eqn:H3.
    + intros H4. by apply addParam_throw in H4 as [-> _].
    + intros [= <- _]. by apply addParam_throw in H3 as [-> _].
  - destruct (requestWellFormed req) eqn:Hwf; [|done].
    destruct (seriesURL_ok cfg req Hwf) as [url Hurl].
    by rewrite Hurl in H.
Qed.

(** ** The credential *)

Lemma keyMissing_false cfg :
  keyMissing cfg = false →
  ∃ k, envKey cfg = Some k ∧ k ≠ [] ∧ FRED_API_KEY cfg = Some k
       ∧ (variant cfg = PlaceholderFallback → k ≠ PLACEHOLDER_API_KEY cfg).
Proof.
  unfold keyMissing, FRED_API_KEY. destruct (variant cfg).
  - intros H. apply orb_false_elim in H as [H _].
    apply orb_false_elim in H as [H1 H2].
    apply bool_decide_eq_false in H2.
    destruct (envKey cfg) as [[|c t]|]; simpl in *; try done.
    exists (c :: t). repeat split; try done. intros _ Heq. apply H2. by rewrite Heq.
  - intros H. destruct (envKey cfg) as [[|c t]|]; simpl in *; try done.
    exists (c :: t). by repeat split.
Qed.

Lemma apiKeyOkay_keyMissing cfg : apiKeyOkay cfg = negb (keyMissing cfg).
Proof.
  unfold apiKeyOkay, keyMissing, apiKeyIsPlaceholder.
  generalize (FRED_API_KEY cfg). intros k.
  destruct (variant cfg); cbv iota.
  - by destruct (truthyOpt k), (bool_decide _), (bool_decide _).
  - by destruct (truthyOpt k).
Qed.

(** ** The paths of the single-series handler *)

Lemma afterFetch_events env id key url w :
  ∃ rest code body,
    trace (afterFetch env id key url w) = trace w ++ EvFetch url :: rest
    ∧ List.filter isFetch rest = []
    ∧ List.filter isRespond rest = [EvRespond code body].
Proof.
  unfold afterFetch. destruct (outcomeOf _); simpl.
  - by eexists _, _, _.
  - eexists [_], _, _. by rewrite <- app_assoc.
  - eexists [_], _, _. by rewrite <- app_assoc.
Qed.

(** The three ways a request can go: answered without a call, answered
    after one call, or the URL cannot be built. [w0] is the world at the
    time of the call: [w], with the clock read if a stale entry was found. *)
Lemma getSeries_paths cfg env req w :
  (∃ code body w',
     getSeries cfg env req w = (Ret tt, w')
     ∧ trace w' = trace w ++ [EvRespond code body]
     ∧ fetches w' = fetches w ∧ cache w' = cache w)
  ∨ (truthyStr (seriesId req) = true ∧ keyMissing cfg = false
     ∧ ∃ w0 url,
         seriesURL cfg req w0 = (Ret url, w0)
         ∧ getSeries cfg env req w
           = (Ret tt, afterFetch env (seriesId req) (keyOf req) url w0)
         ∧ trace w0 = trace w ∧ fetches w0 = fetches w ∧ cache w0 = cache w)
  ∨ (requestWellFormed req = false
     ∧ ∃ w0, getSeries cfg env req w = (Throw URIError, w0)
             ∧ trace w0 = trace w ∧ fetches w0 = fetches w
             ∧ cache w0 = cache w).
Proof.
  destruct (truthyStr (seriesId req)) eqn:Hid;
    [|left; unfold getSeries; rewrite Hid; by eexists _, _, _].
  destruct (keyMissing cfg) eqn:Hkey;
    [left; unfold getSeries; rewrite Hid, Hkey; by eexists _, _, _|].
  rewrite getSeries_valid by done.
  assert (Hgen : ∀ w0, trace w0 = trace w → fetches w0 = fetches w →
                       cache w0 = cache w →
    let res := match seriesURL cfg req w0 with
               | (Ret url, _) =>
                 (Ret tt, afterFetch env (seriesId req) (keyOf req) url w0)
               | (Throw e, _) => (Throw e, w0)
               end in
    (∃ w0 url,
       seriesURL cfg req w0 = (Ret url, w0)
       ∧ res = (Ret tt, afterFetch env (seriesId req) (keyOf req) url w0)
       ∧ trace w0 = trace w ∧ fetches w0 = fetches w ∧ cache w0 = cache w)
    ∨ (requestWellFormed req = false
       ∧ ∃ w0, res = (Throw URIError, w0)
               ∧ trace w0 = trace w ∧ fetches w0 = fetches w
               ∧ cache w0 = cache w)).
  { intros w0 Ht Hf Hc. simpl.
    pose proof (seriesURL_world cfg req w0) as Hw.
    destruct (seriesURL cfg req w0) as [[url|err] w1] eqn:Hurl;
      simpl in Hw; subst w1.
    - left. by exists w0, url.
    - right. apply seriesURL_throw in Hurl as [-> Hwf]. split; [done|].
      by exists w0. }
  destruct (cache w !! keyOf req) as [e|].
  - destruct (clock env (ticks w) - timestamp e <? CACHE_DURATION).
    + left. by eexists _, _, _.
    + right. destruct (Hgen (tick w) eq_refl eq_refl eq_refl) as [H|H];
        [left; by repeat split|by right].
  - right. destruct (Hgen w eq_refl eq_refl eq_refl) as [H|H];
      [left; by repeat split|by right].
Qed.

(** ** The cache key *)

Lemma getCacheKey_inj_id id1 id2 s e :
  getCacheKey id1 s e = getCacheKey id2 s e → id1 = id2.
Proof. unfold getCacheKey. apply app_inv_tail. Qed.

(** X1. For fixed dates the cache key determines the identifier: two
    identifiers with the same key are equal. Hence, within one batch, two
    tasks that write the same cache entry were started for the same trimmed
    identifier. *)
Theorem cache_key_separates_identifiers :
  (∀ id1 id2 s e, getCacheKey id1 s e = getCacheKey id2 s e → id1 = id2)
  ∧ (∀ cfg env req w id1 id2 key n1 n2,
       TaskPending id1 key n1 ∈ tasksOf cfg env req w →
       TaskPending id2 key n2 ∈ tasksOf cfg env req w →
       id1 = id2).
Proof.
  split; [apply getCacheKey_inj_id|].
  intros cfg env req w id1 id2 key n1 n2. unfold tasksOf.
  destruct (spawnAll _ _ _ _ _ _ _) as [[tasks r1] w1] eqn:Hsp. simpl.
  apply spawnAll_Spawned in Hsp. intros H1 H2.
  destruct (Spawned_pending _ _ _ _ _ _ _ _ _ _ _ _ _ Hsp H1) as (_ & Hk1 & _).
  destruct (Spawned_pending _ _ _ _ _ _ _ _ _ _ _ _ _ Hsp H2) as (_ & Hk2 & _).
  apply (getCacheKey_inj_id _ _ (batch_start req) (batch_end req)).
  by rewrite <- Hk1, <- Hk2.
Qed.

Lemma cache_key_separates_identifiers_witness :
  js "GDP" = js "GDP".
Proof.
  apply (proj1 cache_key_separates_identifiers (js "GDP") (js "GDP")
           (Some (js "2020-01-01")) None).
  reflexivity.
Defined.

(** X2. Two requests share a cache entry whenever their keys coincide,
    whatever their identifiers: after the first has fetched and stored a
    payload, the second is answered 200 with that payload, without a call,
    while the entry is fresh. The key joins its three parts with a dash, and
    dates contain dashes, so the keys of different series do coincide: the
    witness has the series [GDP] from [2020-01-01] and the series [GDP-2020]
    from [01-01]. *)
Theorem colliding_keys_share_entry cfg env req1 req2 w d :
  keyOf req1 = keyOf req2 →
  truthyStr (seriesId req1) = true →
  truthyStr (seriesId req2) = true →
  keyMissing cfg = false →
  requestWellFormed req1 = true →
  isFresh (cache w !! keyOf req1) (clock env (ticks w)) = false →
  outcomeOf (net env (fetches w)) = Success d →
  ∃ w1 t,
    getSeries cfg env req1 w = (Ret tt, w1)
    ∧ cache w1 !! keyOf req2 = Some {| data := d; timestamp := t |}
    ∧ (clock env (ticks w1) - t < CACHE_DURATION →
         ∃ w2, getSeries cfg env req2 w1 = (Ret tt, w2)
               ∧ trace w2 = trace w1 ++ [EvRespond 200 (PJson d)]
               ∧ fetches w2 = fetches w1).
Proof.
  intros Hk Hid1 Hid2 Hkey Hwf Hfresh Hout.
  destruct (seriesURL_ok cfg req1 Hwf) as [url Hurl].
  assert (Hsecond : ∀ w1 t,
    cache w1 !! keyOf req2 = Some {| data := d; timestamp := t |} →
    clock env (ticks w1) - t < CACHE_DURATION →
    ∃ w2, getSeries cfg env req2 w1 = (Ret tt, w2)
          ∧ trace w2 = trace w1 ++ [EvRespond 200 (PJson d)]
          ∧ fetches w2 = fetches w1).
  { intros w1 t Hl Hlt. rewrite getSeries_valid by done.
    rewrite Hl. simpl. apply Z.ltb_lt in Hlt. rewrite Hlt. by eexists. }
  assert (Hgen : ∀ w0, fetches w0 = fetches w →
    ∃ t, cache (afterFetch env (seriesId req1) (keyOf req1) url w0)
           !! keyOf req2 = Some {| data := d; timestamp := t |}).
  { intros w0 Hf.
    pose proof (afterFetch_cache env (seriesId req1) (keyOf req1) url w0) as Hc.
    rewrite Hf, Hout in Hc. eexists. by rewrite Hc, <- Hk, lookup_insert_eq. }
  rewrite getSeries_valid by done. unfold isFresh in Hfresh.
  destruct (cache w !! keyOf req1) as [e|]; [rewrite Hfresh|]; rewrite Hurl.
  - destruct (Hgen (tick w) eq_refl) as [t Ht].
    eexists _, t. split; [done|]. split; [done|]. by apply Hsecond.
  - destruct (Hgen w eq_refl) as [t Ht].
    eexists _, t. split; [done|]. split; [done|]. by apply Hsecond.
Qed.

Lemma colliding_keys_share_entry_witness :
  seriesId gdpFrom2020 ≠ seriesId gdp2020From0101
  ∧ ∃ w1 t,
    getSeries demoConfig demoEnv gdpFrom2020 emptyWorld = (Ret tt, w1)
    ∧ cache w1 !! keyOf gdp2020From0101 = Some {| data := JNum 1; timestamp := t |}
    ∧ (clock demoEnv (ticks w1) - t < CACHE_DURATION →
         ∃ w2, getSeries demoConfig demoEnv gdp2020From0101 w1 = (Ret tt, w2)
               ∧ trace w2 = trace w1 ++ [EvRespond 200 (PJson (JNum 1))]
               ∧ fetches w2 = fetches w1).
Proof.
  split; [done|].
  apply (colliding_keys_share_entry demoConfig demoEnv gdpFrom2020
           gdp2020From0101 emptyWorld (JNum 1)); reflexivity.
Defined.

(** ** The single-series handler *)

(** X3. For a request whose query fields are each absent or a string: the
    single-series handler calls upstream at most once, and it either sends
    exactly one response, or throws [URIError] before it has sent, fetched
    or stored anything; it throws only on a request with a lone surrogate
    in one of the strings that go into the URL. *)
Theorem getSeries_answers_once cfg env req w :
  ∃ r w',
    getSeries cfg env req w = (r, w')
    ∧ (length (List.filter isFetch (newEvents w w')) <= 1)%nat
    ∧ ((r = Ret tt
        ∧ ∃ code body,
            List.filter isRespond (newEvents w w') = [EvRespond code body])
       ∨ (r = Throw URIError
          ∧ requestWellFormed req = false
          ∧ newEvents w w' = []
          ∧ cache w' = cache w)).
Proof.
  destruct (getSeries_paths cfg env req w)
    as [(code & body & w' & -> & Ht & _)
       |[(_ & _ & w0 & url & _ & -> & Ht & _)
        |(Hwf & w0 & -> & Ht & _ & Hc)]].
  - eexists _, w'. split; [done|]. rewrite (newEvents_app _ _ _ Ht). simpl.
    split; [lia|]. left. split; [done|]. by eexists _, _.
  - destruct (afterFetch_events env (seriesId req) (keyOf req) url w0)
      as (rest & code & body & Ha & Hnf & Hr).
    eexists _, _. split; [done|]. rewrite Ht in Ha.
    rewrite (newEvents_app _ _ _ Ha). simpl. rewrite Hnf, Hr. simpl.
    split; [lia|]. left. split; [done|]. by eexists _, _.
  - eexists _, w0. split; [done|].
    assert (Hn : newEvents w w0 = []).
    { apply newEvents_app. by rewrite app_nil_r. }
    rewrite Hn. simpl. split; [lia|]. by right.
Qed.

(** X4. A single-series request never removes an entry from the cache,
    changes no entry other than the one under its own key, and adds at most
    one entry. *)
Theorem getSeries_cache_frame cfg env req w k :
  let w' := snd (getSeries cfg env req w) in
  (is_Some (cache w !! k) → is_Some (cache w' !! k))
  ∧ (k ≠ keyOf req → cache w' !! k = cache w !! k)
  ∧ (size (cache w') <= S (size (cache w)))%nat.
Proof.
  simpl.
  destruct (getSeries_cache cfg env req w) as [->|(d & t & _ & ->)].
  - split; [done|]. split; [done|]. lia.
  - split; [|split].
    + intros Hk. destruct (decide (keyOf req = k)) as [<-|Hne].
      * by rewrite lookup_insert_eq.
      * by rewrite lookup_insert_ne.
    + intros Hne. by rewrite lookup_insert_ne.
    + destruct (cache w !! keyOf req) eqn:Hl.
      * rewrite map_size_insert_Some; [lia|done].
      * rewrite map_size_insert_None; [lia|done].
Qed.

Lemma getSeries_cache_frame_witness :
  cache (snd (getSeries demoConfig demoEnv (seriesOf "GDP" None) emptyWorld))
    !! js "CPI-none-none"
  = cache emptyWorld !! js "CPI-none-none".
Proof.
  apply (proj1 (proj2 (getSeries_cache_frame demoConfig demoEnv
                         (seriesOf "GDP" None) emptyWorld (js "CPI-none-none")))).
  done.
Defined.

(** X5. For a request whose query fields are each absent or a string:
    every URL the single-series handler calls is the observations URL
    followed by the identifier of the request, escaped; the key of the
    environment (never the fallback literal); the sort order of the
    request, escaped ([desc] when the request has none); and, for each date
    of the request that is not empty, its parameter ([observation_start],
    then [observation_end]) with that date, escaped, as its value. What
    [encodeURIComponent] returns has unreserved characters and [%XX] only,
    so that no string of the request can end or add a query parameter. *)
Theorem upstream_url_is_escaped cfg env req w url :
  requestCodeUnits req = true →
  EvFetch url ∈ newEvents w (snd (getSeries cfg env req w)) →
  ∃ k id order from to,
    envKey cfg = Some k ∧ k ≠ []
    ∧ (variant cfg = PlaceholderFallback → k ≠ PLACEHOLDER_API_KEY cfg)
    ∧ encodeURIComponent (seriesId req) = Some id
    ∧ encodeURIComponent
        (match sort_order req with Some s => s | None => js "desc" end)
      = Some order
    ∧ dateQuery (js "&observation_start=") (start_date req) from
    ∧ dateQuery (js "&observation_end=") (end_date req) to
    ∧ forallb urlSafe id = true
    ∧ forallb urlSafe order = true
    ∧ url = observationsURL ++ id ++ js "&api_key=" ++ k
              ++ js "&file_type=json&sort_order=" ++ order ++ from ++ to.
Proof.
  intros Hcu Hin. unfold requestCodeUnits in Hcu.
  apply andb_prop in Hcu as [Hcu Hed]. apply andb_prop in Hcu as [Hcu Hsd].
  apply andb_prop in Hcu as [Hid Hord].
  destruct (getSeries_paths cfg env req w)
    as [(code & body & w' & Hrun & Ht & _)
       |[(_ & Hkey & w0 & url' & Hurl & Hrun & Ht & _)
        |(Hwf & w0 & Hrun & Ht & _)]];
    rewrite Hrun in Hin; simpl in Hin.
  - rewrite (newEvents_app _ _ _ Ht) in Hin.
    by apply list_elem_of_singleton in Hin.
  - destruct (afterFetch_events env (seriesId req) (keyOf req) url' w0)
      as (rest & code & body & Ha & Hnf & _).
    rewrite Ht in Ha. rewrite (newEvents_app _ _ _ Ha) in Hin.
    apply elem_of_cons in Hin as [[= ->]|Hin].
    + destruct (keyMissing_false cfg Hkey) as (k & Hk & Hne & Hfred & Hph).
      destruct (seriesURL_shape cfg req w0 url' w0 Hid Hord Hsd Hed Hurl)
        as (id & order & from & to & Heid & Heord & Hfrom & Hto & Hsid
            & Hsord & ->).
      exists k, id, order, from, to. rewrite Hfred.
      unfold sortOrderOf in Heord. done.
    + exfalso. apply list_elem_of_In in Hin.
      assert (Hf : In (EvFetch url) (List.filter isFetch rest))
        by (by apply List.filter_In).
      by rewrite Hnf in Hf.
  - assert (Hn : newEvents w w0 = []).
    { apply newEvents_app. by rewrite app_nil_r. }
    rewrite Hn in Hin. by apply elem_of_nil in Hin.
Qed.

Lemma upstream_url_is_escaped_witness :
  ∃ k id order from to,
    envKey demoConfig = Some k ∧ k ≠ []
    ∧ (variant demoConfig = PlaceholderFallback
       → k ≠ PLACEHOLDER_API_KEY demoConfig)
    ∧ encodeURIComponent (seriesId escapedRequest) = Some id
    ∧ encodeURIComponent
        (match sort_order escapedRequest with
         | Some s => s
         | None => js "desc"
         end)
      = Some order
    ∧ dateQuery (js "&observation_start=") (start_date escapedRequest) from
    ∧ dateQuery (js "&observation_end=") (end_date escapedRequest) to
    ∧ forallb urlSafe id = true
    ∧ forallb urlSafe order = true
    ∧ observationsURL
        ++ js "a%20b&api_key=KEY&file_type=json&sort_order=a%26b"
        ++ js "&observation_end=2020-12-31"
      = observationsURL ++ id ++ js "&api_key=" ++ k
          ++ js "&file_type=json&sort_order=" ++ order ++ from ++ to.
Proof.
  apply (upstream_url_is_escaped demoConfig demoEnv escapedRequest emptyWorld);
    [reflexivity|].
  vm_compute. apply list_elem_of_here.
Defined.

(** ** The fan-out on particular batches *)

Lemma spawnAll_cons cfg env sd ed elem rest results w :
  spawnAll cfg env sd ed (elem :: rest) results w
  = let '((t, results1), w1) := taskStart cfg env sd ed results elem w in
    let '((ts, results2), w2) := spawnAll cfg env sd ed rest results1 w1 in
    ((t :: ts, results2), w2).
Proof. reflexivity. Qed.

Lemma isString_printable elems :
  forallb isString elems = true → forallb printable elems = true.
Proof.
  induction elems as [|x l IH]; [done|]. simpl.
  intros [Hx Hl]%andb_prop. rewrite (IH Hl). by destruct x.
Qed.

Lemma isBlank_isString elems :
  forallb isBlank elems = true → forallb isString elems = true.
Proof.
  induction elems as [|x l IH]; [done|]. simpl.
  intros [Hx Hl]%andb_prop. rewrite (IH Hl). by destruct x.
Qed.

Lemma loggable_printable l :
  forallb printable l = true → loggable (Some (JArr l)) = true.
Proof. done. Qed.

Lemma pendingOf_cons t tasks :
  pendingOf (t :: tasks)
  = if isPending t then t :: pendingOf tasks else pendingOf tasks.
Proof.
  unfold pendingOf. rewrite filter_cons.
  destruct (isPending t); by destruct (decide _).
Qed.

Lemma orderOf_no_pending env tasks : pendingOf tasks = [] → orderOf env tasks = [].
Proof. unfold orderOf. by intros ->. Qed.

(** Every element is blank: no task does anything. *)
Lemma spawnAll_blank cfg env sd ed elems :
  forallb isBlank elems = true →
  ∀ results w,
    spawnAll cfg env sd ed elems results w
    = ((List.map (fun _ => TaskDone) elems, results),
       {| cache := cache w; ticks := ticks w; fetches := fetches w;
          trace := trace w ++ List.map EvSpawn elems |}).
Proof.
  induction elems as [|x l IH]; intros Hb results w.
  - simpl. rewrite app_nil_r. by destruct w.
  - simpl in Hb. apply andb_prop in Hb as [Hx Hl].
    destruct x as [| | |s| |]; try done. simpl in Hx.
    apply trim_blank in Hx.
    rewrite spawnAll_cons, taskStart_string. cbv zeta. rewrite Hx. simpl truthyStr.
    cbv iota. rewrite (IH Hl). simpl. by rewrite <- app_assoc.
Qed.

Lemma all_done elems :
  firstFailure (List.map (fun _ : JVal => TaskDone) elems) = None
  ∧ pendingOf (List.map (fun _ : JVal => TaskDone) elems) = [].
Proof.
  induction elems as [|x l [IH1 IH2]]; [done|]. simpl. split; [done|].
  by rewrite pendingOf_cons.
Qed.

(** No element has an entry: every element that is not blank is fetched. *)
Lemma spawnAll_cold cfg env sd ed elems :
  forallb (encodable sd ed) elems = true →
  ∀ results w,
    (∀ s, JStr s ∈ elems → cache w !! getCacheKey (trim s) sd ed = None) →
    ∃ tasks w1 evs,
      spawnAll cfg env sd ed elems results w = ((tasks, results), w1)
      ∧ fetches w1
        = (fetches w + length (List.filter (fun x => negb (isBlank x)) elems))%nat
      ∧ trace w1 = trace w ++ evs
      ∧ length (List.filter isFetch evs)
        = length (List.filter (fun x => negb (isBlank x)) elems).
Proof.
  induction elems as [|x l IH]; intros Henc results w Hcold.
  - exists [], w, []. simpl. rewrite app_nil_r. split; [done|]. split; [lia|done].
  - simpl in Henc. apply andb_prop in Henc as [Hx Hl].
    destruct x as [| | |s| |]; try done. simpl in Hx.
    apply andb_prop in Hx as [Hx Hed]. apply andb_prop in Hx as [Hs Hsd].
    rewrite spawnAll_cons, taskStart_string. cbv zeta.
    assert (Hrest : ∀ w0, cache w0 = cache w →
              ∀ s0, JStr s0 ∈ l → cache w0 !! getCacheKey (trim s0) sd ed = None).
    { intros w0 Hc s0 Hin. rewrite Hc. apply Hcold. by apply list_elem_of_further. }
    cbn [List.filter isBlank].
    destruct (trim s) as [|c t] eqn:Ht.
    + apply trim_blank in Ht. rewrite Ht. simpl.
      destruct (IH Hl results (emit (EvSpawn (JStr s)) w) (Hrest _ eq_refl))
        as (tasks & w1 & evs & -> & Hf & Htr & Hn).
      exists (TaskDone :: tasks), w1, (EvSpawn (JStr s) :: evs).
      split; [done|]. split; [done|]. split; [|done].
      rewrite Htr. simpl. by rewrite <- app_assoc.
    + assert (Hnb : forallb isWhiteSpace s = false).
      { destruct (forallb isWhiteSpace s) eqn:Hb; [|done].
        apply trim_blank in Hb. by rewrite Hb in Ht. }
      rewrite Hnb. simpl truthyStr. cbv iota.
      rewrite <- Ht in Hs |- *. rewrite (Hcold s (list_elem_of_here _ _)).
      unfold launch.
      destruct (batchURL_ok cfg (trim s) sd ed Hs Hsd Hed) as [url Hurl].
      rewrite Hurl.
      destruct (IH Hl results (launched url (emit (EvSpawn (JStr s)) w))
                  (Hrest _ eq_refl))
        as (tasks & w1 & evs & -> & Hf & Htr & Hn).
      eexists (_ :: tasks), w1, (EvSpawn (JStr s) :: EvFetch url :: evs).
      split; [done|]. simpl in *. split; [lia|]. split; [|lia].
      rewrite Htr. by rewrite <- !app_assoc.
Qed.

(** Every element that is not blank has an entry that stays fresh: every
    task ends at once, with the payload of its entry. *)
Lemma spawnAll_warm cfg env sd ed elems :
  forallb isString elems = true →
  ∀ results w,
    (∀ s, JStr s ∈ elems → trim s ≠ [] →
       ∃ e, cache w !! getCacheKey (trim s) sd ed = Some e
            ∧ ∀ n, clock env n - timestamp e < CACHE_DURATION) →
    ∃ tasks r1 w1,
      spawnAll cfg env sd ed elems results w = ((tasks, r1), w1)
      ∧ firstFailure tasks = None
      ∧ pendingOf tasks = []
      ∧ fetches w1 = fetches w
      ∧ cache w1 = cache w
      ∧ trace w1 = trace w ++ List.map EvSpawn elems
      ∧ ∀ id e, id ≠ protoKey →
          cache w !! getCacheKey id sd ed = Some e →
          own results !! id = Some (data e)
          ∨ (id ≠ [] ∧ ∃ s, JStr s ∈ elems ∧ trim s = id) →
          own r1 !! id = Some (data e).
Proof.
  induction elems as [|x l IH]; intros Hstr results w Hwarm.
  - exists [], results, w. simpl. rewrite app_nil_r.
    repeat (split; [done|]). intros id e _ _ [H|(_ & s & Hin & _)]; [done|].
    by apply elem_of_nil in Hin.
  - simpl in Hstr. apply andb_prop in Hstr as [Hx Hl].
    destruct x as [| | |s| |]; try done.
    rewrite spawnAll_cons, taskStart_string. cbv zeta.
    assert (Hrest : ∀ w0, cache w0 = cache w →
              ∀ s0, JStr s0 ∈ l → trim s0 ≠ [] →
                ∃ e, cache w0 !! getCacheKey (trim s0) sd ed = Some e
                     ∧ ∀ n, clock env n - timestamp e < CACHE_DURATION).
    { intros w0 Hc s0 Hin Hne. rewrite Hc. apply Hwarm; [|done].
      by apply list_elem_of_further. }
    destruct (trim s) as [|c t] eqn:Ht.
    + simpl truthyStr. cbv iota.
      destruct (IH Hl results (emit (EvSpawn (JStr s)) w) (Hrest _ eq_refl))
        as (tasks & r1 & w1 & -> & Hff & Hp & Hf & Hc & Htr & Hres).
      exists (TaskDone :: tasks), r1, w1. split; [done|]. split; [done|].
      split; [by rewrite pendingOf_cons|]. split; [done|]. split; [done|].
      split; [rewrite Htr; simpl; by rewrite <- app_assoc|].
      intros id e Hid Hl' [H|(Hne & s0 & Hin & Hs0)]; apply (Hres id e Hid Hl').
      * by left.
      * right. split; [done|]. exists s0. split; [|done].
        apply elem_of_cons in Hin as [[= ->]|Hin]; [|done].
        by rewrite Ht in Hs0; subst id.
    + rewrite <- Ht.
      assert (Hne : trim s ≠ []) by (by rewrite Ht).
      destruct (Hwarm s (list_elem_of_here _ _) Hne) as (e0 & Hl0 & Hfresh).
      assert (Htruthy : truthyStr (trim s) = true) by (by rewrite Ht).
      rewrite Htruthy, Hl0. specialize (Hfresh (ticks w)).
      apply Z.ltb_lt in Hfresh. rewrite Hfresh.
      destruct (IH Hl (setResult results (trim s) (data e0))
                  (tick (emit (EvSpawn (JStr s)) w)) (Hrest _ eq_refl))
        as (tasks & r1 & w1 & -> & Hff & Hp & Hf & Hc & Htr & Hres).
      exists (TaskDone :: tasks), r1, w1. split; [done|]. split; [done|].
      split; [by rewrite pendingOf_cons|]. split; [done|]. split; [done|].
      split; [rewrite Htr; simpl; by rewrite <- app_assoc|].
      intros id e Hid Hl' Hcase. apply (Hres id e Hid Hl').
      rewrite setResult_lookup by done.
      destruct (decide (trim s = id)) as [Heq|Hneq].
      * left. rewrite Heq in Hl0. rewrite Hl0 in Hl'. by injection Hl' as ->.
      * destruct Hcase as [H|(Hne' & s0 & Hin & Hs0)]; [by left|].
        right. split; [done|]. exists s0. split; [|done].
        apply elem_of_cons in Hin as [[= ->]|Hin]; done.
Qed.

(** ** The batch handler on particular batches *)

(** X6. A string element of a batch is skipped (its task ends at once and
    leaves [results], the clock and the cache untouched) exactly when it
    consists of white space only. *)
Theorem blank_element_skipped_iff cfg env sd ed results s w :
  taskStart cfg env sd ed results (JStr s) w
    = ((TaskDone, results), emit (EvSpawn (JStr s)) w)
  ↔ forallb isWhiteSpace s = true.
Proof.
  rewrite <- trim_blank, taskStart_string. cbv zeta.
  destruct (trim s) as [|c t] eqn:Ht; [done|]. rewrite <- Ht.
  assert (Htruthy : truthyStr (trim s) = true) by (by rewrite Ht).
  rewrite Htruthy. split; [|by rewrite Ht].
  assert (Hlaunch : ∀ w0,
    launch cfg (trim s) (getCacheKey (trim s) sd ed) sd ed results w0
    ≠ ((TaskDone, results), emit (EvSpawn (JStr s)) w)).
  { intros w0. unfold launch. by destruct (batchURL _ _ _ _ _) as [[?|?] ?]. }
  destruct (cache w !! getCacheKey (trim s) sd ed) as [e|].
  - destruct (clock env (ticks w) - timestamp e <? CACHE_DURATION).
    + intros H. apply (f_equal (fun p => ticks (snd p))) in H. simpl in H.
      lia.
    + intros H. by apply Hlaunch in H.
  - intros H. by apply Hlaunch in H.
Qed.

Lemma blank_element_skipped_iff_witness :
  taskStart demoConfig demoEnv None None emptyResults (JStr (js "  ")) emptyWorld
  = ((TaskDone, emptyResults), emit (EvSpawn (JStr (js "  "))) emptyWorld).
Proof.
  apply (proj2 (blank_element_skipped_iff demoConfig demoEnv None None
                  emptyResults (js "  ") emptyWorld)).
  reflexivity.
Defined.

(** X7. A batch whose elements are all strings of white space is answered
    200 with the empty object: one task per element is started and ends at
    once, no clock reading, no call, cache unchanged. *)
Theorem blank_batch_answers_empty cfg env req w x l :
  series req = Some (JArr (x :: l)) →
  forallb isBlank (x :: l) = true →
  keyMissing cfg = false →
  getMultiple cfg env req w
  = (Ret tt,
     {| cache := cache w; ticks := ticks w; fetches := fetches w;
        trace := trace w ++ List.map EvSpawn (x :: l)
                   ++ [EvRespond 200 (PProps ∅)] |}).
Proof.
  intros Hs Hb Hkey.
  rewrite getMultiple_valid; [| |by rewrite Hs|done].
  2: { rewrite Hs. apply loggable_printable, isString_printable.
       by apply isBlank_isString. }
  rewrite Hs. cbn [elementsOf]. rewrite spawnAll_blank by done.
  destruct (all_done (x :: l)) as [-> Hp].
  rewrite (orderOf_no_pending env _ Hp). unfold emit. simpl.
  by rewrite <- app_assoc.
Qed.

Lemma blank_batch_answers_empty_witness :
  getMultiple demoConfig demoEnv (batchOf [JStr (js " "); JStr (js "")]) emptyWorld
  = (Ret tt,
     {| cache := ∅; ticks := 0; fetches := 0;
        trace := [EvSpawn (JStr (js " ")); EvSpawn (JStr (js ""));
                  EvRespond 200 (PProps ∅)] |}).
Proof.
  apply (blank_batch_answers_empty demoConfig demoEnv
           (batchOf [JStr (js " "); JStr (js "")]) emptyWorld
           (JStr (js " ")) [JStr (js "")]); reflexivity.
Defined.

(** X8. The batch handler does not coalesce calls: when the cache has no
    entry for any element of a batch that passes the validation, whose
    elements are all strings that can be escaped and whose two dates are
    each absent or a string that can be escaped, the number of upstream
    calls is the number of elements that are not blank, duplicates
    counted. *)
Theorem cold_batch_calls_per_element cfg env req w :
  invalidSeries (series req) = false →
  keyMissing cfg = false →
  forallb (encodable (batch_start req) (batch_end req))
    (elementsOf (series req)) = true →
  (∀ s, JStr s ∈ elementsOf (series req) →
     cache w !! getCacheKey (trim s) (batch_start req) (batch_end req) = None) →
  ∃ w',
    getMultiple cfg env req w = (Ret tt, w')
    ∧ fetches w'
      = (fetches w
         + length (List.filter (fun x => negb (isBlank x))
                     (elementsOf (series req))))%nat
    ∧ length (List.filter isFetch (newEvents w w'))
      = length (List.filter (fun x => negb (isBlank x))
                  (elementsOf (series req))).
Proof.
  intros Hinv Hkey Henc Hcold.
  assert (Hlog : loggable (series req) = true).
  { destruct (invalidSeries_false _ Hinv) as (x & l & Hs). rewrite Hs in *.
    by apply loggable_printable, (encodable_printable _ _ _ Henc). }
  pose proof (getMultiple_events cfg env req w Hlog Hinv Hkey) as Hev.
  destruct (spawnAll_cold cfg env _ _ _ Henc emptyResults w Hcold)
    as (tasks & w1 & evs & Hsp & Hf & Htr & Hn).
  rewrite Hsp in Hev.
  destruct Hev as (w' & evs1 & evs2 & Hrun & Ht1 & _ & Hev2 & Hfe & Htr' & _).
  exists w'. split; [done|]. split; [by rewrite Hfe|].
  assert (evs1 = evs) as ->.
  { rewrite Htr in Ht1. by apply app_inv_head in Ht1. }
  assert (Hf2 : List.filter isFetch evs2 = []).
  { apply cacheSets_filter; [|done]. intros ev Hin.
    destruct (Hev2 ev Hin) as (id & key & n & e & -> & _). by exists key, e. }
  revert Htr'. destruct (firstFailure tasks); intros [Htr'|Htr'];
    rewrite (newEvents_app _ _ _ Htr'), !List.filter_app, Hf2; simpl;
    rewrite ?app_nil_r; done.
Qed.

Lemma cold_batch_calls_per_element_witness :
  ∃ w',
    getMultiple demoConfig demoEnv
      (batchOf [JStr (js "GDP"); JStr (js " "); JStr (js "GDP")]) emptyWorld
    = (Ret tt, w')
    ∧ fetches w' = 2%nat
    ∧ length (List.filter isFetch (newEvents emptyWorld w')) = 2%nat.
Proof.
  apply (cold_batch_calls_per_element demoConfig demoEnv
           (batchOf [JStr (js "GDP"); JStr (js " "); JStr (js "GDP")])
           emptyWorld); [reflexivity|reflexivity|reflexivity|].
  intros s _. apply lookup_empty.
Defined.

(** X9. A batch of strings whose non-blank elements all have an entry that
    stays fresh is answered from the cache alone: one task per element, no
    call, cache unchanged, and each identifier other than ["__proto__"] gets
    the payload of its entry. The elements need not be well-formed: no URL
    is built. *)
Theorem warm_batch_makes_no_call cfg env req w :
  invalidSeries (series req) = false →
  keyMissing cfg = false →
  forallb isString (elementsOf (series req)) = true →
  (∀ s, JStr s ∈ elementsOf (series req) → trim s ≠ [] →
     ∃ e, cache w !! getCacheKey (trim s) (batch_start req) (batch_end req)
            = Some e
          ∧ ∀ n, clock env n - timestamp e < CACHE_DURATION) →
  ∃ w' res,
    getMultiple cfg env req w = (Ret tt, w')
    ∧ trace w' = trace w ++ List.map EvSpawn (elementsOf (series req))
                   ++ [EvRespond 200 (PProps res)]
    ∧ fetches w' = fetches w
    ∧ cache w' = cache w
    ∧ ∀ s e,
        JStr s ∈ elementsOf (series req) → trim s ≠ [] → trim s ≠ protoKey →
        cache w !! getCacheKey (trim s) (batch_start req) (batch_end req)
          = Some e →
        res !! trim s = Some (data e).
Proof.
  intros Hinv Hkey Hstr Hwarm.
  assert (Hlog : loggable (series req) = true).
  { destruct (invalidSeries_false _ Hinv) as (x & l & Hs). rewrite Hs in *.
    by apply loggable_printable, isString_printable. }
  rewrite getMultiple_valid by done.
  destruct (spawnAll_warm cfg env _ _ _ Hstr emptyResults w Hwarm)
    as (tasks & r1 & w1 & -> & -> & Hp & Hf & Hc & Htr & Hres).
  rewrite (orderOf_no_pending env _ Hp). simpl.
  eexists _, _. split; [done|]. simpl. split; [by rewrite Htr, <- app_assoc|].
  split; [done|]. split; [done|].
  intros s e Hin Hne Hproto Hl. apply (Hres (trim s) e Hproto Hl).
  right. split; [done|]. by exists s.
Qed.

Lemma warm_batch_makes_no_call_witness :
  ∃ w' res,
    getMultiple demoConfig frozenEnv (batchOf [JStr (js "GDP"); JStr (js " ")])
      warmWorld = (Ret tt, w')
    ∧ trace w' = trace warmWorld
                   ++ List.map EvSpawn [JStr (js "GDP"); JStr (js " ")]
                   ++ [EvRespond 200 (PProps res)]
    ∧ fetches w' = fetches warmWorld
    ∧ cache w' = cache warmWorld
    ∧ ∀ s e,
        JStr s ∈ [JStr (js "GDP"); JStr (js " ")] → trim s ≠ [] →
        trim s ≠ protoKey →
        cache warmWorld !! getCacheKey (trim s) None None = Some e →
        res !! trim s = Some (data e).
Proof.
  apply (warm_batch_makes_no_call demoConfig frozenEnv
           (batchOf [JStr (js "GDP"); JStr (js " ")]) warmWorld);
    [reflexivity|reflexivity|reflexivity|].
  intros s Hin Hne.
  apply elem_of_cons in Hin as [[= ->]|Hin].
  - eexists. split; [reflexivity|]. intros n. reflexivity.
  - apply list_elem_of_singleton in Hin as [= ->]. exfalso. by apply Hne.
Defined.

(** X10. A batch request whose first statement does not throw gets exactly
    one response, and its status is 200, 400 or 500: the status of an
    upstream error is never passed on as the status of a batch. When the
    first statement throws, nothing was sent and nothing has changed. *)
Theorem getMultiple_answers_once cfg env req w :
  (loggable (series req) = true →
   ∃ w' code body,
     getMultiple cfg env req w = (Ret tt, w')
     ∧ List.filter isRespond (newEvents w w') = [EvRespond code body]
     ∧ (code = 200 ∨ code = 400 ∨ code = 500))
  ∧ (loggable (series req) = false →
     ∃ e, getMultiple cfg env req w = (Throw e, w)).
Proof.
  split; [|apply getMultiple_log_throws]. intros Hlog.
  destruct (invalidSeries (series req)) eqn:Hinv.
  { rewrite getMultiple_invalid, logSeries_loggable by done.
    eexists _, 400, _. split; [done|].
    erewrite (newEvents_app w _ [_]) by done. split; [done|]. auto. }
  destruct (keyMissing cfg) eqn:Hkey.
  { rewrite getMultiple_no_key by done.
    eexists _, 500, _. split; [done|].
    erewrite (newEvents_app w _ [_]) by done. split; [done|]. auto. }
  pose proof (getMultiple_events cfg env req w Hlog Hinv Hkey) as Hev.
  destruct (spawnAll _ _ _ _ _ _ _) as [[tasks r1] w1].
  destruct Hev as (w' & _ & _ & Hrun & _ & _ & _ & _ & _ & Hresp).
  exists w'. destruct (firstFailure tasks); eexists _, _; (split; [done|]);
    (split; [done|]); auto.
Qed.

Lemma getMultiple_answers_once_witness :
  ∃ w' code body,
    getMultiple demoConfig failingEnv scenario emptyWorld = (Ret tt, w')
    ∧ List.filter isRespond (newEvents emptyWorld w') = [EvRespond code body]
    ∧ (code = 200 ∨ code = 400 ∨ code = 500).
Proof.
  apply (proj1 (getMultiple_answers_once demoConfig failingEnv scenario
                  emptyWorld)).
  reflexivity.
Defined.

(** ** The cache after a batch *)

Lemma afterTask_cache env key call w k :
  cache (afterTask env key call w) !! k
  = match outcomeOf (net env call) with
    | Success d =>
      if decide (key = k)
      then Some {| data := d; timestamp := clock env (ticks w) |}
      else cache w !! k
    | _ => cache w !! k
    end.
Proof.
  unfold afterTask. destruct (outcomeOf (net env call)); simpl; [|done|done].
  destruct (decide (key = k)) as [->|Hne].
  - by rewrite lookup_insert_eq.
  - by rewrite lookup_insert_ne.
Qed.

Lemma afterFinish_cache_mono env order k :
  ∀ w, is_Some (cache w !! k) →
       is_Some (cache (foldl (afterFinish env) w order) !! k).
Proof.
  induction order as [|t rest IH]; intros w Hk; [done|]. simpl. apply IH.
  destruct t as [| |id key n]; simpl; try done.
  rewrite afterTask_cache. destruct (outcomeOf (net env n)); try done.
  by destruct (decide (key = k)).
Qed.

Lemma afterFinish_cache_other env order k :
  (∀ id n, TaskPending id k n ∉ order) →
  ∀ w, cache (foldl (afterFinish env) w order) !! k = cache w !! k.
Proof.
  induction order as [|t rest IH]; intros Hno w; [done|]. simpl.
  rewrite IH.
  - destruct t as [| |id key n]; simpl; try done.
    rewrite afterTask_cache. destruct (outcomeOf (net env n)); try done.
    destruct (decide (key = k)) as [->|]; [|done].
    exfalso. apply (Hno id n). apply list_elem_of_here.
  - intros id n Hin. apply (Hno id n). by apply list_elem_of_further.
Qed.

Lemma afterFinish_cache_keeps env order k d :
  (∀ id n, TaskPending id k n ∈ order → outcomeOf (net env n) = Success d) →
  ∀ w, (∃ t, cache w !! k = Some {| data := d; timestamp := t |}) →
       ∃ t, cache (foldl (afterFinish env) w order) !! k
            = Some {| data := d; timestamp := t |}.
Proof.
  induction order as [|t rest IH]; intros Hall w Hk; [done|]. simpl.
  apply IH; [intros id n Hin; apply (Hall id n); by apply list_elem_of_further|].
  destruct t as [| |id key n]; simpl; try done.
  rewrite afterTask_cache.
  destruct (decide (key = k)) as [->|].
  - rewrite (Hall id n (list_elem_of_here _ _)). by eexists.
  - by destruct (outcomeOf (net env n)).
Qed.

Lemma afterFinish_cache_written env order k d :
  (∀ id n, TaskPending id k n ∈ order → outcomeOf (net env n) = Success d) →
  (∃ id n, TaskPending id k n ∈ order) →
  ∀ w, ∃ t, cache (foldl (afterFinish env) w order) !! k
            = Some {| data := d; timestamp := t |}.
Proof.
  induction order as [|t rest IH]; intros Hall (id & n & Hin) w.
  { by apply elem_of_nil in Hin. }
  assert (Hrest : ∀ id n, TaskPending id k n ∈ rest →
                          outcomeOf (net env n) = Success d).
  { intros id' n' Hin'. apply (Hall id' n'). by apply list_elem_of_further. }
  simpl. apply elem_of_cons in Hin as [<-|Hin].
  - apply afterFinish_cache_keeps; [done|]. simpl. rewrite afterTask_cache.
    rewrite (Hall id n (list_elem_of_here _ _)).
    destruct (decide (k = k)); [by eexists|done].
  - apply IH; [done|]. by exists id, n.
Qed.

(** The world a valid batch ends in. *)
Lemma getMultiple_final cfg env req w :
  loggable (series req) = true →
  invalidSeries (series req) = false →
  keyMissing cfg = false →
  ∃ tasks r1 w1 w2 w',
    spawnAll cfg env (batch_start req) (batch_end req)
      (elementsOf (series req)) emptyResults w = ((tasks, r1), w1)
    ∧ getMultiple cfg env req w = (Ret tt, w')
    ∧ cache w2 = cache w ∧ ticks w2 = ticks w1
    ∧ cache w' = cache (foldl (afterFinish env) w2 (orderOf env tasks)).
Proof.
  intros Hlog Hinv Hkey. rewrite getMultiple_valid by done.
  destruct (spawnAll _ _ _ _ _ _ _) as [[tasks r1] w1] eqn:Hsp.
  pose proof (spawnAll_Spawned _ _ _ _ _ _ _ _ _ _ Hsp) as Hsp'.
  destruct (Spawned_frame _ _ _ _ _ _ _ _ _ _ Hsp') as (Hc & _ & _).
  destruct (firstFailure tasks) as [message|].
  - by eexists tasks, r1, w1, (emit _ w1), _.
  - by eexists tasks, r1, w1, w1, _.
Qed.

(** X11. A batch request never removes an entry from the cache, and
    changes no entry other than those under the keys of its trimmed
    elements. *)
Theorem getMultiple_cache_frame cfg env req w k :
  let w' := snd (getMultiple cfg env req w) in
  (is_Some (cache w !! k) → is_Some (cache w' !! k))
  ∧ ((∀ s, JStr s ∈ elementsOf (series req) →
        k ≠ getCacheKey (trim s) (batch_start req) (batch_end req)) →
     cache w' !! k = cache w !! k).
Proof.
  simpl.
  destruct (loggable (series req)) eqn:Hlog.
  2: { by destruct (getMultiple_log_throws cfg env req w Hlog) as [err ->]. }
  destruct (invalidSeries (series req)) eqn:Hinv.
  { by rewrite getMultiple_invalid, logSeries_loggable by done. }
  destruct (keyMissing cfg) eqn:Hkey.
  { by rewrite getMultiple_no_key by done. }
  destruct (getMultiple_final cfg env req w Hlog Hinv Hkey)
    as (tasks & r1 & w1 & w2 & w' & Hsp & -> & Hc & _ & Hfinal).
  apply spawnAll_Spawned in Hsp. simpl. rewrite Hfinal. split.
  - intros Hk. apply afterFinish_cache_mono. by rewrite Hc.
  - intros Hother. rewrite afterFinish_cache_other; [by rewrite Hc|].
    intros id n Hin. apply orderOf_pending in Hin.
    destruct (Spawned_pending _ _ _ _ _ _ _ _ _ _ _ _ _ Hsp Hin)
      as (_ & Hk & _ & s & Hs & Hid).
    apply (Hother s Hs). by rewrite Hid.
Qed.

Lemma getMultiple_cache_frame_witness :
  cache (snd (getMultiple demoConfig demoEnv scenario warmWorld))
    !! js "DGS10-none-none"
  = cache warmWorld !! js "DGS10-none-none".
Proof.
  apply (proj2 (getMultiple_cache_frame demoConfig demoEnv scenario warmWorld
                  (js "DGS10-none-none"))).
  intros s Hin.
  repeat (apply elem_of_cons in Hin as [[= ->]|Hin]; [done|]).
  by apply elem_of_nil in Hin.
Defined.

(** X12. What a batch fetched, the single-series endpoint serves: if the
    calls that a batch made for an identifier succeeded with payload [d],
    then after the batch the cache holds [d] under the key of that
    identifier, and a single-series request for the same identifier and
    dates is answered 200 with [d] from the cache while the entry is fresh.
    This holds also when the batch itself was answered 500 because of
    another element (witness, and example [failed_batch_still_caches]). *)
Theorem batch_fills_cache_for_single cfg env breq w id key n d :
  loggable (series breq) = true →
  invalidSeries (series breq) = false →
  keyMissing cfg = false →
  TaskPending id key n ∈ tasksOf cfg env breq w →
  (∀ key' n', TaskPending id key' n' ∈ tasksOf cfg env breq w →
     outcomeOf (net env n') = Success d) →
  ∃ w1 t,
    getMultiple cfg env breq w = (Ret tt, w1)
    ∧ cache w1 !! getCacheKey id (batch_start breq) (batch_end breq)
      = Some {| data := d; timestamp := t |}
    ∧ ∀ sreq,
        seriesId sreq = id →
        start_date sreq = batch_start breq →
        end_date sreq = batch_end breq →
        clock env (ticks w1) - t < CACHE_DURATION →
        getSeries cfg env sreq w1
        = (Ret tt, emit (EvRespond 200 (PJson d)) (tick w1)).
Proof.
  intros Hlog Hinv Hkey Hin Hall. unfold tasksOf in Hin, Hall.
  destruct (getMultiple_final cfg env breq w Hlog Hinv Hkey)
    as (tasks & r1 & w1 & w2 & w' & Hsp & -> & Hc & _ & Hfinal).
  rewrite Hsp in Hin, Hall. simpl in Hin, Hall.
  apply spawnAll_Spawned in Hsp.
  destruct (Spawned_pending _ _ _ _ _ _ _ _ _ _ _ _ _ Hsp Hin)
    as (Hne & -> & _).
  destruct (afterFinish_cache_written env (orderOf env tasks)
              (getCacheKey id (batch_start breq) (batch_end breq)) d) with w2
    as [t Ht].
  { intros id' n' Hin'. apply orderOf_pending in Hin'.
    destruct (Spawned_pending _ _ _ _ _ _ _ _ _ _ _ _ _ Hsp Hin')
      as (_ & Hk' & _).
    apply getCacheKey_inj_id in Hk'. subst id'.
    exact (Hall _ n' Hin'). }
  { exists id, n. by apply orderOf_pending. }
  exists w', t. split; [done|]. rewrite Hfinal. split; [done|].
  intros sreq Hid Hsd Hed Hfresh.
  rewrite getSeries_valid; [| |done].
  2: { rewrite Hid. by destruct id. }
  unfold keyOf. rewrite Hid, Hsd, Hed, Hfinal, Ht. simpl.
  apply Z.ltb_lt in Hfresh. by rewrite Hfresh.
Qed.

Lemma batch_fills_cache_for_single_witness :
  ∃ w1 t,
    getMultiple demoConfig demoEnv (batchOf [JNum 42; JStr (js "GDP")]) emptyWorld
    = (Ret tt, w1)
    ∧ cache w1 !! getCacheKey (js "GDP") None None
      = Some {| data := JNum 1; timestamp := t |}
    ∧ ∀ sreq,
        seriesId sreq = js "GDP" →
        start_date sreq = None →
        end_date sreq = None →
        clock demoEnv (ticks w1) - t < CACHE_DURATION →
        getSeries demoConfig demoEnv sreq w1
        = (Ret tt, emit (EvRespond 200 (PJson (JNum 1))) (tick w1)).
Proof.
  assert (Ht : tasksOf demoConfig demoEnv (batchOf [JNum 42; JStr (js "GDP")])
                 emptyWorld
               = [TaskFailed (trimTypeError (JNum 42));
                  TaskPending (js "GDP") (js "GDP-none-none") 0]) by reflexivity.
  apply (batch_fills_cache_for_single demoConfig demoEnv
           (batchOf [JNum 42; JStr (js "GDP")]) emptyWorld
           (js "GDP") (js "GDP-none-none") 0%nat (JNum 1));
    [reflexivity|reflexivity|reflexivity| |].
  - rewrite Ht. apply list_elem_of_further, list_elem_of_here.
  - intros key' n' Hin. rewrite Ht in Hin.
    apply elem_of_cons in Hin as [[=]|Hin].
    apply list_elem_of_singleton in Hin as [= _ ->]. reflexivity.
Defined.

Example failed_batch_still_caches :
  ∃ w1 url,
    getMultiple demoConfig demoEnv (batchOf [JNum 42; JStr (js "GDP")]) emptyWorld
    = (Ret tt, w1)
    ∧ trace w1
      = [EvSpawn (JNum 42); EvSpawn (JStr (js "GDP")); EvFetch url;
         EvRespond 500 (batchError (trimTypeError (JNum 42)));
         EvCacheSet (js "GDP-none-none") {| data := JNum 1; timestamp := 1000 |}]
    ∧ cache w1 !! js "GDP-none-none"
      = Some {| data := JNum 1; timestamp := 1000 |}.
Proof. eexists _, _. split; [reflexivity|]. split; reflexivity. Qed.

(** ** The order in which the calls settle *)

Lemma spawnAll_withPick cfg env pick' sd ed elems :
  ∀ results w,
    spawnAll cfg (withPick env pick') sd ed elems results w
    = spawnAll cfg env sd ed elems results w.
Proof.
  induction elems as [|elem rest IH]; intros results w; simpl; [done|].
  change (taskStart cfg (withPick env pick') sd ed results elem w)
    with (taskStart cfg env sd ed results elem w).
  destruct (taskStart cfg env sd ed results elem w) as [[t r1] w1].
  by rewrite IH.
Qed.

Lemma writes_untouched env order id :
  id ≠ protoKey →
  (∀ key n, TaskPending id key n ∉ order) →
  ∀ r, own (foldl (writeOf env) r order) !! id = own r !! id.
Proof.
  intros Hid. induction order as [|t rest IH]; intros Hno r; [done|]. simpl.
  rewrite IH.
  - destruct t as [| |id' key n]; simpl; try done.
    rewrite setResult_lookup by done.
    destruct (decide (id' = id)) as [->|]; [|done].
    exfalso. apply (Hno key n). apply list_elem_of_here.
  - intros key n Hin. apply (Hno key n). by apply list_elem_of_further.
Qed.

Lemma writes_keep env order id v :
  id ≠ protoKey →
  (∀ key n, TaskPending id key n ∈ order →
     entryOf id (outcomeOf (net env n)) = v) →
  ∀ r, own r !! id = Some v →
       own (foldl (writeOf env) r order) !! id = Some v.
Proof.
  intros Hid. induction order as [|t rest IH]; intros Hall r Hr; [done|].
  simpl. apply IH.
  - intros key n Hin. apply (Hall key n). by apply list_elem_of_further.
  - destruct t as [| |id' key n]; simpl; try done.
    rewrite setResult_lookup by done.
    destruct (decide (id' = id)) as [->|]; [|done].
    by rewrite (Hall key n (list_elem_of_here _ _)).
Qed.

Lemma writes_written env order id v :
  id ≠ protoKey →
  (∀ key n, TaskPending id key n ∈ order →
     entryOf id (outcomeOf (net env n)) = v) →
  (∃ key n, TaskPending id key n ∈ order) →
  ∀ r, own (foldl (writeOf env) r order) !! id = Some v.
Proof.
  intros Hid. induction order as [|t rest IH]; intros Hall (key & n & Hin) r.
  { by apply elem_of_nil in Hin. }
  assert (Hrest : ∀ key n, TaskPending id key n ∈ rest →
                    entryOf id (outcomeOf (net env n)) = v).
  { intros key' n' Hin'. apply (Hall key' n'). by apply list_elem_of_further. }
  simpl. apply elem_of_cons in Hin as [<-|Hin].
  - apply writes_keep; [done|done|]. simpl. rewrite setResult_lookup by done.
    rewrite decide_True by done.
    by rewrite (Hall key n (list_elem_of_here _ _)).
  - apply IH; [done|]. by exists key, n.
Qed.

(** The entry of an identifier that at most one call was made for is the
    same in whatever order the tasks resume. *)
Lemma writes_order env order1 order2 id r :
  id ≠ protoKey →
  (∀ t, t ∈ order1 ↔ t ∈ order2) →
  (∀ k1 n1 k2 n2, TaskPending id k1 n1 ∈ order1 →
     TaskPending id k2 n2 ∈ order1 → n1 = n2) →
  own (foldl (writeOf env) r order1) !! id
  = own (foldl (writeOf env) r order2) !! id.
Proof.
  intros Hid Hsame Huniq.
  destruct (existsb (isTaskFor id) order1) eqn:Hex.
  - apply existsb_exists in Hex as (t & Hin & Ht).
    destruct t as [| |id' key n]; try done. simpl in Ht.
    apply bool_decide_eq_true in Ht. subst id'.
    apply list_elem_of_In in Hin.
    rewrite (writes_written env order1 id
               (entryOf id (outcomeOf (net env n)))); [|done| |by eauto].
    + symmetry. apply writes_written; [done| |].
      * intros key' n' Hin'. apply Hsame in Hin'.
        by rewrite (Huniq _ _ _ _ Hin' Hin).
      * exists key, n. by apply Hsame.
    + intros key' n' Hin'. by rewrite (Huniq _ _ _ _ Hin' Hin).
  - assert (Hno : ∀ key n, TaskPending id key n ∉ order1).
    { intros key n Hin. apply list_elem_of_In in Hin.
      assert (existsb (isTaskFor id) order1 = true); [|congruence].
      apply existsb_exists. exists (TaskPending id key n). split; [done|].
      simpl. by apply bool_decide_eq_true. }
    rewrite !writes_untouched; [done|done| |done|done].
    intros key n Hin. apply (Hno key n). by apply Hsame.
Qed.

(** X13. The entry of an identifier for which the batch made at most one
    call does not depend on the order in which the upstream calls settle. *)
Theorem batch_answer_independent_of_order cfg env pick' req w id :
  invalidSeries (series req) = false →
  keyMissing cfg = false →
  forallb (encodable (batch_start req) (batch_end req))
    (elementsOf (series req)) = true →
  id ≠ protoKey →
  (∀ k1 n1 k2 n2,
     TaskPending id k1 n1 ∈ tasksOf cfg env req w →
     TaskPending id k2 n2 ∈ tasksOf cfg env req w → n1 = n2) →
  ∃ w1 w2 res1 res2,
    getMultiple cfg env req w = (Ret tt, w1)
    ∧ getMultiple cfg (withPick env pick') req w = (Ret tt, w2)
    ∧ List.filter isRespond (newEvents w w1) = [EvRespond 200 (PProps res1)]
    ∧ List.filter isRespond (newEvents w w2) = [EvRespond 200 (PProps res2)]
    ∧ res1 !! id = res2 !! id.
Proof.
  intros Hinv Hkey Henc Hid Huniq.
  assert (Hlog : loggable (series req) = true).
  { destruct (invalidSeries_false _ Hinv) as (x & l & Hs).
    rewrite Hs in Henc |- *.
    apply (encodable_printable _ _ _ Henc). }
  pose proof (getMultiple_events cfg env req w Hlog Hinv Hkey) as Hev.
  pose proof (getMultiple_events cfg (withPick env pick') req w Hlog Hinv Hkey)
    as Hev'.
  rewrite spawnAll_withPick in Hev'. unfold tasksOf in Huniq.
  destruct (spawnAll cfg env (batch_start req) (batch_end req)
              (elementsOf (series req)) emptyResults w)
    as [[tasks r1] w1] eqn:Hrun1.
  pose proof (spawnAll_Spawned _ _ _ _ _ _ _ _ _ _ Hrun1) as Hsp.
  pose proof (Spawned_no_failure _ _ _ _ _ _ _ _ _ _ Hsp Henc) as Hff.
  simpl in *. rewrite Hff in Hev, Hev'.
  destruct Hev as (w' & _ & _ & Hrun & _ & _ & _ & _ & _ & Hresp).
  destruct Hev' as (w'' & _ & _ & Hrun' & _ & _ & _ & _ & _ & Hresp').
  eexists w', w'', _, _. split; [done|]. split; [done|]. split; [done|].
  split; [done|].
  change (writeOf (withPick env pick')) with (writeOf env).
  apply writes_order; [done| |].
  - intros t. by rewrite !orderOf_elem.
  - intros k1 n1 k2 n2 H1 H2. apply orderOf_pending in H1, H2. eauto.
Qed.

Lemma batch_answer_independent_of_order_witness :
  ∃ w1 w2 res1 res2,
    getMultiple demoConfig demoEnv scenario emptyWorld = (Ret tt, w1)
    ∧ getMultiple demoConfig (withPick demoEnv (fun _ => 1%nat)) scenario
        emptyWorld = (Ret tt, w2)
    ∧ List.filter isRespond (newEvents emptyWorld w1)
      = [EvRespond 200 (PProps res1)]
    ∧ List.filter isRespond (newEvents emptyWorld w2)
      = [EvRespond 200 (PProps res2)]
    ∧ res1 !! js "GDP" = res2 !! js "GDP".
Proof.
  assert (Ht : tasksOf demoConfig demoEnv scenario emptyWorld
               = [TaskPending (js "GDP") (js "GDP-none-none") 0; TaskDone;
                  TaskPending (js "CPI") (js "CPI-none-none") 1])
    by reflexivity.
  apply (batch_answer_independent_of_order demoConfig demoEnv (fun _ => 1%nat)
           scenario emptyWorld (js "GDP"));
    [reflexivity|reflexivity|reflexivity|done|].
  rewrite Ht. intros k1 n1 k2 n2 H1 H2.
  apply elem_of_cons in H1 as [[= _ ->]|H1];
    [|apply elem_of_cons in H1 as [[=]|H1];
      by apply list_elem_of_singleton in H1].
  apply elem_of_cons in H2 as [[= _ ->]|H2]; [done|].
  apply elem_of_cons in H2 as [[=]|H2].
  by apply list_elem_of_singleton in H2.
Defined.

(** ** The maintenance endpoints *)

(** X14. The health endpoint answers 200 with the number of entries of the
    cache (stale ones included) and reads the clock once; its
    [api_key_configured_properly] flag is the negation of the credential
    test of the handlers: the test fails exactly when a single-series
    request with an identifier is answered with the configuration error. *)
Theorem health_agrees_with_handlers cfg env toISOString w :
  getHealth cfg env toISOString w
  = (Ret tt,
     emit (EvRespond 200
             (PJson (JObj
                [(js "status", JStr (js "ok"));
                 (js "timestamp", JStr (toISOString (clock env (ticks w))));
                 (js "cache_size", JNum (Z.of_nat (size (cache w))));
                 (js "api_key_configured_properly",
                  JBool (negb (keyMissing cfg)));
                 (js "note",
                  JStr (healthNote (variant cfg) (negb (keyMissing cfg))))])))
       (tick w))
  ∧ ∀ req w0,
      truthyStr (seriesId req) = true →
      (keyMissing cfg = true
       ↔ getSeries cfg env req w0
         = (Ret tt,
            emit (EvRespond 500 (errorOnly (configErrorText (variant cfg) false)))
              w0)).
Proof.
  split.
  - unfold getHealth. by rewrite apiKeyOkay_keyMissing.
  - intros req w0 Hid. split.
    + intros Hkey. unfold getSeries. by rewrite Hid, Hkey.
    + destruct (keyMissing cfg) eqn:Hkey; [done|].
      rewrite getSeries_valid by done. intros H. exfalso.
      assert (Hgen : ∀ w1 r, fetches w1 = fetches w0 →
        match seriesURL cfg req w1 with
        | (Ret url, _) =>
          (Ret tt, afterFetch env (seriesId req) (keyOf req) url w1)
        | (Throw e, _) => (Throw e, w1)
        end ≠ (Ret tt, emit r w0)).
      { intros w1 r Hf. destruct (seriesURL cfg req w1) as [[url|e] w2]; [|done].
        intros Heq. apply (f_equal (fun p => fetches (snd p))) in Heq.
        simpl in Heq. rewrite afterFetch_fetches in Heq. lia. }
      destruct (cache w0 !! keyOf req) as [e|].
      * destruct (clock env (ticks w0) - timestamp e <? CACHE_DURATION).
        -- apply (f_equal (fun p => ticks (snd p))) in H. simpl in H. lia.
        -- by apply (Hgen (tick w0)) in H.
      * by apply Hgen in H.
Qed.

Lemma health_agrees_with_handlers_witness :
  keyMissing demoNoKey = true.
Proof.
  apply (proj2 (proj2 (health_agrees_with_handlers demoNoKey demoEnv
                         (fun _ => js "1970-01-01T00:00:01.000Z") emptyWorld)
                  (seriesOf "GDP" None) emptyWorld eq_refl)).
  reflexivity.
Defined.

(** X15. [POST /api/cache/clear] empties the cache and answers with
    [cache_size] 0, whatever the cache held; the next well-formed
    single-series request goes upstream, and afterwards the cache holds no
    entry other than, possibly, that request's. *)
Theorem clear_then_request_fetches cfg env req w :
  truthyStr (seriesId req) = true →
  keyMissing cfg = false →
  requestWellFormed req = true →
  ∃ w1 w2 url rest,
    clearCache w = (Ret tt, w1)
    ∧ cache w1 = ∅
    ∧ trace w1
      = trace w ++
          [EvRespond 200
             (PJson (JObj [(js "message", JStr (js "Cache cleared successfully"));
                           (js "cache_size", JNum 0)]))]
    ∧ getSeries cfg env req w1 = (Ret tt, w2)
    ∧ trace w2 = trace w1 ++ EvFetch url :: rest
    ∧ fetches w2 = S (fetches w)
    ∧ ∀ k, is_Some (cache w2 !! k) → k = keyOf req.
Proof.
  intros Hid Hkey Hwf.
  destruct (seriesURL_ok cfg req Hwf) as [url Hurl].
  set (w1 := emit (EvRespond 200
                     (PJson (JObj [(js "message",
                                    JStr (js "Cache cleared successfully"));
                                   (js "cache_size", JNum 0)])))
               {| cache := ∅; ticks := ticks w; fetches := fetches w;
                  trace := trace w |}).
  destruct (afterFetch_trace env (seriesId req) (keyOf req) url w1)
    as [rest Hrest].
  exists w1, (afterFetch env (seriesId req) (keyOf req) url w1), url, rest.
  split; [done|]. split; [done|]. split; [done|].
  split.
  { rewrite getSeries_valid by done.
    change (cache w1) with (∅ : gmap jsstring CacheEntry).
    by rewrite lookup_empty, Hurl. }
  split; [done|].
  split; [by rewrite afterFetch_fetches|].
  intros k Hk.
  pose proof (afterFetch_cache env (seriesId req) (keyOf req) url w1) as Hc.
  destruct (outcomeOf (net env (fetches w1))); rewrite Hc in Hk; simpl in Hk;
    try (rewrite lookup_empty in Hk; by destruct Hk).
  destruct (decide (keyOf req = k)) as [<-|Hne]; [done|].
  rewrite lookup_insert_ne, lookup_empty in Hk by done. by destruct Hk.
Qed.

Lemma clear_then_request_fetches_witness :
  ∃ w1 w2 url rest,
    clearCache warmWorld = (Ret tt, w1)
    ∧ cache w1 = ∅
    ∧ trace w1
      = trace warmWorld ++
          [EvRespond 200
             (PJson (JObj [(js "message", JStr (js "Cache cleared successfully"));
                           (js "cache_size", JNum 0)]))]
    ∧ getSeries demoConfig demoEnv (seriesOf "GDP" None) w1 = (Ret tt, w2)
    ∧ trace w2 = trace w1 ++ EvFetch url :: rest
    ∧ fetches w2 = S (fetches warmWorld)
    ∧ ∀ k, is_Some (cache w2 !! k) → k = keyOf (seriesOf "GDP" None).
Proof.
  apply (clear_then_request_fetches demoConfig demoEnv (seriesOf "GDP" None)
           warmWorld); reflexivity.
Defined.

(** ** The earlier variant *)

Lemma legacy_fetch_run env key url w :
  ∃ w' rest code body,
    tryCatch (LegacyServer.fetchSeries env key url)
      (fun message => respond 500 (internalError message)) w
    = (Ret tt, w')
    ∧ trace w' = trace w ++ EvFetch url :: rest
    ∧ List.filter isFetch rest = []
    ∧ List.filter isRespond rest = [EvRespond code body]
    ∧ EvRespond 500 LegacyServer.configError ∉ rest.
Proof.
  unfold tryCatch, LegacyServer.fetchSeries, bind, startFetch, settle. simpl.
  destruct (net env (fetches w)) as [r|e]; simpl.
  - destruct (ok r); simpl.
    + destruct (json r) as [d|e]; simpl.
      * eexists _, [_; _], _, _. split; [done|]. unfold emit. simpl.
        rewrite <- !app_assoc. split; [done|]. split; [done|]. split; [done|].
        intros Hin. apply elem_of_cons in Hin as [[=]|Hin].
        by apply list_elem_of_singleton in Hin.
      * eexists _, [_], _, _. split; [done|]. unfold emit. simpl.
        rewrite <- !app_assoc. split; [done|]. split; [done|]. split; [done|].
        intros Hin. by apply list_elem_of_singleton in Hin.
    + destruct (text r) as [t|e]; simpl.
      * eexists _, [_], _, _. split; [done|]. unfold emit. simpl.
        rewrite <- !app_assoc. split; [done|]. split; [done|]. split; [done|].
        intros Hin. by apply list_elem_of_singleton in Hin.
      * eexists _, [_], _, _. split; [done|]. unfold emit. simpl.
        rewrite <- !app_assoc. split; [done|]. split; [done|]. split; [done|].
        intros Hin. by apply list_elem_of_singleton in Hin.
  - eexists _, [_], _, _. split; [done|]. unfold emit. simpl.
    rewrite <- !app_assoc. split; [done|]. split; [done|]. split; [done|].
    intros Hin. by apply list_elem_of_singleton in Hin.
Qed.

Lemma legacy_getSeries_paths cfg env req w :
  (∃ code body w',
     LegacyServer.getSeries cfg env req w = (Ret tt, w')
     ∧ trace w' = trace w ++ [EvRespond code body]
     ∧ (code = 500 → body = LegacyServer.configError →
        truthyStr (LegacyServer.FRED_API_KEY cfg) = false))
  ∨ (∃ w0,
       trace w0 = trace w
       ∧ LegacyServer.getSeries cfg env req w
         = tryCatch (LegacyServer.fetchSeries env
                       (Legacy.getCacheKey (seriesId req) (start_date req)
                          (end_date req))
                       (LegacyServer.seriesURL cfg req))
             (fun message => respond 500 (internalError message)) w0).
Proof.
  unfold LegacyServer.getSeries.
  destruct (truthyStr (seriesId req)); simpl;
    [|left; eexists _, _, _; split; [done|]; split; [done|]; done].
  destruct (truthyStr (LegacyServer.FRED_API_KEY cfg)); simpl;
    [|left; eexists _, _, _; split; [done|]; split; [done|]; done].
  unfold bind, cacheGet, freshData. simpl.
  destruct (cache w !! _) as [e|]; simpl.
  - unfold bind, dateNow. simpl.
    destruct (clock env (ticks w) - timestamp e <? CACHE_DURATION).
    + left. eexists _, _, _. split; [done|]. split; [done|]. done.
    + right. by exists (tick w).
  - right. by exists w.
Qed.

(** X16. For a request whose query fields are each absent or a string, the
    single-series handler of the earlier variant never throws: the request
    gets exactly one response, after at most one upstream call. (It puts
    the strings of the request into the URL as they are.) *)
Theorem legacy_getSeries_always_answers cfg env req w :
  ∃ w' code body,
    LegacyServer.getSeries cfg env req w = (Ret tt, w')
    ∧ List.filter isRespond (newEvents w w') = [EvRespond code body]
    ∧ (length (List.filter isFetch (newEvents w w')) <= 1)%nat.
Proof.
  destruct (legacy_getSeries_paths cfg env req w)
    as [(code & body & w' & -> & Ht & _)|(w0 & Ht & ->)].
  - exists w', code, body. split; [done|].
    rewrite (newEvents_app _ _ _ Ht). simpl. split; [done|lia].
  - destruct (legacy_fetch_run env
                (Legacy.getCacheKey (seriesId req) (start_date req) (end_date req))
                (LegacyServer.seriesURL cfg req) w0)
      as (w' & rest & code & body & -> & Ht' & Hnf & Hr & _).
    exists w', code, body. split; [done|]. rewrite Ht in Ht'.
    rewrite (newEvents_app _ _ _ Ht'). simpl. rewrite Hnf, Hr. simpl.
    split; [done|lia].
Qed.

(** X17. In the earlier variant the credential test cannot fail, its
    fallback literal being non-empty: no response is the 500 configuration
    error, the health endpoint reports [api_key_configured] as [true], and
    when the environment provides no key the fallback literal is what is
    sent upstream. *)
Theorem legacy_fallback_key_always_passes cfg env req w :
  PLACEHOLDER_API_KEY cfg ≠ [] →
  (EvRespond 500 LegacyServer.configError
     ∉ newEvents w (snd (LegacyServer.getSeries cfg env req w)))
  ∧ LegacyServer.getHealth cfg w
    = (Ret tt,
       emit (EvRespond 200
               (PJson (JObj [(js "status", JStr (js "ok"));
                             (js "cache_size", JNum (Z.of_nat (size (cache w))));
                             (js "api_key_configured", JBool true)]))) w)
  ∧ (truthyOpt (envKey cfg) = false →
     ∀ url, EvFetch url ∈ newEvents w (snd (LegacyServer.getSeries cfg env req w)) →
       ∃ rest, url = observationsURL ++ seriesId req ++ js "&api_key="
                       ++ PLACEHOLDER_API_KEY cfg ++ rest).
Proof.
  intros Hph.
  assert (Hkey : truthyStr (LegacyServer.FRED_API_KEY cfg) = true).
  { unfold LegacyServer.FRED_API_KEY, orElse.
    destruct (envKey cfg) as [[|c t]|]; simpl; try done;
      by destruct (PLACEHOLDER_API_KEY cfg). }
  split; [|split].
  - destruct (legacy_getSeries_paths cfg env req w)
      as [(code & body & w' & -> & Ht & Hcfg)|(w0 & Ht & ->)]; simpl.
    + rewrite (newEvents_app _ _ _ Ht). intros Hin.
      apply list_elem_of_singleton in Hin as [= <- <-].
      by rewrite Hcfg in Hkey.
    + destruct (legacy_fetch_run env
                  (Legacy.getCacheKey (seriesId req) (start_date req)
                     (end_date req))
                  (LegacyServer.seriesURL cfg req) w0)
        as (w' & rest & code & body & -> & Ht' & _ & _ & Hno).
      rewrite Ht in Ht'. simpl. rewrite (newEvents_app _ _ _ Ht').
      intros Hin. by apply elem_of_cons in Hin as [[=]|Hin].
  - unfold LegacyServer.getHealth. by rewrite Hkey.
  - intros Henv url.
    destruct (legacy_getSeries_paths cfg env req w)
      as [(code & body & w' & -> & Ht & _)|(w0 & Ht & ->)]; simpl.
    + rewrite (newEvents_app _ _ _ Ht). intros Hin.
      by apply list_elem_of_singleton in Hin.
    + destruct (legacy_fetch_run env
                  (Legacy.getCacheKey (seriesId req) (start_date req)
                     (end_date req))
                  (LegacyServer.seriesURL cfg req) w0)
        as (w' & rest & code & body & -> & Ht' & Hnf & _ & _).
      rewrite Ht in Ht'. simpl. rewrite (newEvents_app _ _ _ Ht').
      intros Hin. apply elem_of_cons in Hin as [[= ->]|Hin].
      * assert (Hk : LegacyServer.FRED_API_KEY cfg = PLACEHOLDER_API_KEY cfg).
        { unfold LegacyServer.FRED_API_KEY, orElse.
          by destruct (envKey cfg) as [[|c t]|]. }
        unfold LegacyServer.seriesURL. rewrite Hk.
        destruct (truthyOpt (start_date req)), (truthyOpt (end_date req));
          rewrite <- ?app_assoc; by eexists.
      * exfalso. apply list_elem_of_In in Hin.
        assert (Hf : In (EvFetch url) (List.filter isFetch rest))
          by (by apply List.filter_In).
        by rewrite Hnf in Hf.
Qed.

Lemma legacy_fallback_key_always_passes_witness :
  LegacyServer.getHealth demoNoKey emptyWorld
  = (Ret tt,
     emit (EvRespond 200
             (PJson (JObj [(js "status", JStr (js "ok"));
                           (js "cache_size", JNum 0);
                           (js "api_key_configured", JBool true)]))) emptyWorld).
Proof.
  apply (proj1 (proj2 (legacy_fallback_key_always_passes demoNoKey demoEnv
                         (seriesOf "GDP" None) emptyWorld ltac:(done)))).
Defined.
